(** * TransScriptRT: ring buffer, audio segments, script engine and stage loops

    A shallow embedding of the streaming core of TransScriptRT
    (include/ring_buffer_tsrt.h, include/audio_segment_tsrt.h,
    include/speaker_id_tsrt.h, src/script_engine_tsrt.cpp, src/audio_tsrt.cpp
    and the two stage loops of src/main.cpp), followed by the properties
    established about it.

    Conventions.
    - [size_t] values are [Z] with the 64-bit wrap-around written out.
    - A [float] is represented by its 32-bit pattern (a [Z]); the modelled code
      only zero-fills and copies samples, it never computes with them.
    - A [std::chrono::system_clock::time_point] is its tick count (a [Z]).
    - Heap arrays ([std::unique_ptr<float[]>]) live in an explicit store, so
      that raw pointers into them ([midpoint]) can dangle as they do in C++. *)

From Stdlib Require Import ZArith Lia Bool.
From stdpp Require Import base option list gmap strings.

Local Open Scope Z_scope.

(* ===================================================================== *)
(** * Part I: the program                                                 *)
(* ===================================================================== *)

(** ** status_codes_tsrt.h *)

Inductive tsrt_status_code :=
  | SUCCESS
  | INSUFFICIENT_MEMORY
  | IO_ERROR
  | INVALID_ARGUMENT
  | CONFIGURATION_ERROR
  | RUNTIME_ERROR
  | OUT_OF_RANGE_ERROR
  | TRY_AGAIN
  | INVALID_OPERATION
  | UNKNOWN_ERROR.

#[global] Instance tsrt_status_code_eq_dec : EqDecision tsrt_status_code.
Proof. solve_decision. Defined.

(** ** constants_config_tsrt.h *)

Definition SAMPLE_RATE : Z := 16000.
Definition SEGMENT_DURATION : Z := 50.
Definition MS_PER_SEC : Z := 1000.
Definition SAMPLES_PER_SEGMENT : Z :=
  Z.quot SAMPLE_RATE MS_PER_SEC * SEGMENT_DURATION.
Definition SAMPLES_PER_HALF_SEGMENT : Z := Z.quot SAMPLES_PER_SEGMENT 2.
Definition AUDIO_BUFFER_SIZE : Z := 16.
Definition VOCAL_EMBEDDINGS_SIZE : Z := 512.

(** ** Machine arithmetic on [size_t] *)

Definition size_t_bits : Z := 64.
Definition size_t_modulus : Z := 2 ^ size_t_bits.

Definition size_t_add (a b : Z) : Z := (a + b) mod size_t_modulus.
Definition size_t_sub (a b : Z) : Z := (a - b) mod size_t_modulus.

(** ** ring_buffer_tsrt.h *)

(** [constexpr bool is_power_of_two(size_t Size)] *)
Definition is_power_of_two (Size : Z) : bool :=
  negb (Size =? 0) && (Z.land Size (size_t_sub Size 1) =? 0).

(** What the ring buffer needs of an element type [T] other than
    [Audio_Segment], one whose move assignment (or [memcpy]) replaces the
    slot: the value of a value-initialised [T] (the slots of
    [std::make_unique<T[]>(Size)]) and the state a slot is left in when a
    value is move-constructed out of it. The buffer of [Audio_Segment] has
    definitions of its own, [Audio_Ring_Buffer]. *)
Class Element (T : Type) := {
  value_initialized : T;
  moved_from : T → T;
}.

#[global] Instance Element_inhabited `{Element T} : Inhabited T :=
  populate value_initialized.

(** [time_point] is trivially copyable: moving out of a slot copies it. *)
#[global] Instance time_point_Element : Element Z :=
  {| value_initialized := 0; moved_from := λ t, t |}.

Module Ring_Buffer.

Record t (T : Type) := mk {
  buffer : list T;
  head : Z;
  tail : Z;
}.
Arguments mk {T} _ _ _.
Arguments buffer {T} _.
Arguments head {T} _.
Arguments tail {T} _.

(** The two compile-time alternatives of [wrap_index]. *)
Definition wrap_index_mask (Size index : Z) : Z :=
  Z.land index (size_t_sub Size 1).
Definition wrap_index_mod (Size index : Z) : Z :=
  index mod Size.

(** [size_t wrap_index(const size_t index) const] *)
Definition wrap_index (Size index : Z) : Z :=
  if is_power_of_two Size
  then wrap_index_mask Size index
  else wrap_index_mod Size index.

(** [Ring_Buffer() noexcept : head(0), tail(0)] *)
Definition init `{Element T} (Size : Z) : t T :=
  mk (replicate (Z.to_nat Size) value_initialized) 0 0.

(** [void push(T value)] for an element type other than [Audio_Segment]:
    the slot at [head] receives the value ([memcpy] or move assignment). *)
Definition push {T} (Size : Z) (value : T) (rb : t T) : t T :=
  let buffer' := <[Z.to_nat (head rb) := value]> (buffer rb) in
  let head' := wrap_index Size (size_t_add (head rb) 1) in
  let tail' :=
    if head' =? tail rb
    then wrap_index Size (size_t_add (tail rb) 1)
    else tail rb in
  mk buffer' head' tail'.

(** [std::optional<T> pop()] *)
Definition pop `{Element T} (Size : Z) (rb : t T) : option T * t T :=
  if head rb =? tail rb then (None, rb)
  else
    let value := buffer rb !!! Z.to_nat (tail rb) in
    let buffer' := alter moved_from (Z.to_nat (tail rb)) (buffer rb) in
    (Some value, mk buffer' (head rb) (wrap_index Size (size_t_add (tail rb) 1))).

(** [size_t get_size() const] *)
Definition get_size {T} (Size : Z) (rb : t T) : Z := Size.

(** [void clear()] *)
Definition clear {T} (rb : t T) : t T := mk (buffer rb) 0 0.

(** Drivers used to state properties of runs. *)
Definition push_all {T} (Size : Z) (values : list T) (rb : t T) : t T :=
  foldl (λ rb value, push Size value rb) rb values.

Fixpoint pop_n `{Element T} (Size : Z) (n : nat) (rb : t T)
  : list (option T) * t T :=
  match n with
  | O => ([], rb)
  | S n' =>
      let '(r, rb') := pop Size rb in
      let '(rs, rb'') := pop_n Size n' rb' in
      (r :: rs, rb'')
  end.

End Ring_Buffer.

(** ** exceptions_tsrt.h and the outcome of a call *)

Inductive exception :=
  | Tsrt_Exception (status_code : tsrt_status_code) (message : string)
  | bad_alloc.

(** A call returns, throws, ends the process through [std::terminate] (an
    exception leaving a [noexcept] function) or has undefined behaviour. *)
Inductive outcome (A : Type) :=
  | Ok (a : A)
  | Throw (e : exception)
  | Terminate
  | Undefined.
Arguments Ok {A} _.
Arguments Throw {A} _.
Arguments Terminate {A}.
Arguments Undefined {A}.

(** ** The store of heap-allocated [float] arrays *)

Inductive pointer :=
  | nullptr
  | Ptr (block : nat) (offset : Z).

#[global] Instance pointer_eq_dec : EqDecision pointer.
Proof. solve_decision. Defined.

(** Pointer arithmetic [p + k]. *)
Definition ptr_add (p : pointer) (k : Z) : pointer :=
  match p with
  | nullptr => nullptr
  | Ptr b off => Ptr b (off + k)
  end.

Module Heap.

Record t := mk {
  blocks : gmap nat (list Z);   (* the live arrays *)
  next : nat;                   (* the next fresh block *)
}.

Definition empty : t := mk ∅ 0%nat.

(** [new float[n]()]: a fresh zero-filled array. *)
Definition alloc (n : Z) (h : t) : nat * t :=
  (next h, mk (<[next h := replicate (Z.to_nat n) 0]> (blocks h)) (S (next h))).

(** [delete[]]. *)
Definition free (b : nat) (h : t) : t :=
  mk (delete b (blocks h)) (next h).

(** The [n] floats at [p], when they lie inside a live array. *)
Definition load (p : pointer) (n : Z) (h : t) : option (list Z) :=
  match p with
  | nullptr => None
  | Ptr b off =>
      data ← blocks h !! b;
      if bool_decide (0 ≤ off ∧ 0 ≤ n ∧ off + n ≤ Z.of_nat (length data))
      then Some (take (Z.to_nat n) (drop (Z.to_nat off) data))
      else None
  end.

(** Overwrite the floats at [p] with [src], when they lie inside a live array. *)
Definition store (p : pointer) (src : list Z) (h : t) : option t :=
  match p with
  | nullptr => None
  | Ptr b off =>
      data ← blocks h !! b;
      if bool_decide (0 ≤ off ∧ off + Z.of_nat (length src) ≤ Z.of_nat (length data))
      then Some (mk (<[b := take (Z.to_nat off) data ++ src
                            ++ drop (Z.to_nat off + length src) data]> (blocks h))
                    (next h))
      else None
  end.

End Heap.

(** Computations over the store. *)
Definition M (A : Type) : Type := Heap.t → outcome (A * Heap.t).

#[global] Instance M_ret : MRet M := λ A a h, Ok (a, h).
#[global] Instance M_bind : MBind M := λ A B f m h,
  match m h with
  | Ok (a, h') => f a h'
  | Throw e => Throw e
  | Terminate => Terminate
  | Undefined => Undefined
  end.

Definition throw {A} (e : exception) : M A := λ _, Throw e.

(** A [noexcept] function: an exception that would leave it terminates. *)
Definition noexcept {A} (m : M A) : M A := λ h,
  match m h with
  | Throw _ => Terminate
  | r => r
  end.

(** [std::make_unique<float[]>(n)] throws [std::bad_array_new_length] once
    [n * sizeof(float)] exceeds [PTRDIFF_MAX], that is from this [n] on. *)
Definition float_array_limit : Z := 2 ^ 61.

(** [std::make_unique<float[]>(n)], for [n] below [float_array_limit] and as
    long as memory is available: the two allocation failures are left to the
    environment. *)
Definition make_unique (n : Z) : M nat := λ h, Ok (Heap.alloc n h).

(** Destruction or reassignment of a [unique_ptr<float[]>]. *)
Definition release (p : option nat) : M () := λ h,
  match p with
  | Some b => Ok ((), Heap.free b h)
  | None => Ok ((), h)
  end.

(** [memcpy(dst, src, n * sizeof(float))] *)
Definition memcpy (dst src : pointer) (n : Z) : M () := λ h,
  match Heap.load src n h with
  | Some data =>
      match Heap.store dst data h with
      | Some h' => Ok ((), h')
      | None => Undefined
      end
  | None => Undefined
  end.

(** [std::copy(first, first + n, dst)]; an empty range touches no memory. *)
Definition std_copy (src : pointer) (n : Z) (dst : pointer) : M () :=
  if n =? 0 then mret () else memcpy dst src n.

(** ** audio_segment_tsrt.h *)

Module Audio_Segment.

Record t := mk {
  audio : option nat;     (* std::unique_ptr<float[]>: the owned array *)
  midpoint : pointer;     (* float*: a raw pointer *)
  timestamp : Z;
  size : Z;
}.

(** [audio.get()] *)
Definition get_audio (s : t) : pointer :=
  match audio s with
  | Some b => Ptr b 0
  | None => nullptr
  end.

Definition get_midpoint (s : t) : pointer := midpoint s.
Definition get_timestamp (s : t) : Z := timestamp s.
Definition get_size (s : t) : Z := size s.

Definition set_timestamp (ts : Z) (s : t) : t :=
  mk (audio s) (midpoint s) ts (size s).

(** [void swap(Audio_Segment& other) noexcept]: exchanges [audio],
    [timestamp] and [size]. Returns the two objects after the call. *)
Definition swap (this other : t) : t * t :=
  (mk (audio other) (midpoint this) (timestamp other) (size other),
   mk (audio this) (midpoint other) (timestamp this) (size this)).

(** [Audio_Segment()] at time [now]. *)
Definition default_constructor (now : Z) : t :=
  mk None nullptr now 0.

(** [Audio_Segment(size_t size)] at time [now]. *)
Definition constructor (sz : Z) (now : Z) : M t :=
  b ← make_unique sz;
  mret (mk (Some b) (ptr_add (Ptr b 0) (Z.quot sz 2)) now sz).

(** [Audio_Segment(const Audio_Segment& other)] *)
Definition copy_constructor (other : t) : M t :=
  b ← make_unique (size other);
  _ ← std_copy (get_audio other) (size other) (Ptr b 0);
  mret (mk (Some b) (ptr_add (Ptr b 0) (Z.quot (size other) 2))
           (timestamp other) (size other)).

(** [Audio_Segment(Audio_Segment&& other) noexcept]: the new object and
    what is left of [other]. *)
Definition move_constructor (other : t) : t * t :=
  (mk (audio other) (midpoint other) (timestamp other) (size other),
   mk None (midpoint other) (timestamp other) (size other)).

(** [~Audio_Segment()] *)
Definition destructor (s : t) : M () := release (audio s).

(** [Audio_Segment& operator=(const Audio_Segment& other)], for
    [this != &other]. *)
Definition copy_assign (this other : t) : M t :=
  temp ← copy_constructor other;
  let '(this', temp') := swap this temp in
  _ ← destructor temp';
  mret this'.

(** [Audio_Segment& operator=(Audio_Segment&& other) noexcept] *)
Definition move_assign (this other : t) : t * t := swap this other.

(** [bool operator==(const Audio_Segment& other) const noexcept] *)
Definition equal (this other : t) : bool :=
  timestamp this =? timestamp other.

(** [void reset_audio() noexcept] *)
Definition reset_audio (s : t) : M t :=
  b ← make_unique (size s);
  _ ← release (audio s);
  mret (mk (Some b) (ptr_add (Ptr b 0) (Z.quot (size s) 2)) (timestamp s) (size s)).

(** [void lazy_initialize(size_t size)] at time [now]. *)
Definition lazy_initialize (sz : Z) (now : Z) (s : t) : M t :=
  if sz =? 0
  then throw (Tsrt_Exception INVALID_ARGUMENT
                "Audio segment size must be greater than 0.")
  else
    b ← make_unique sz;
    _ ← release (audio s);
    mret (mk (Some b) (ptr_add (Ptr b 0) (Z.quot sz 2)) now sz).

(** The class comment's description of [midpoint]: it points at element
    [size / 2] of the array the segment currently owns. *)
Definition midpoint_ok (s : t) : Prop :=
  ∃ b, audio s = Some b ∧ midpoint s = Ptr b (Z.quot (size s) 2).

Definition midpoint_okb (s : t) : bool :=
  match audio s with
  | Some b => bool_decide (midpoint s = Ptr b (Z.quot (size s) 2))
  | None => false
  end.

(** The samples a segment owns, read from the store. *)
Definition samples (s : t) (h : Heap.t) : option (list Z) :=
  Heap.load (get_audio s) (size s) h.

End Audio_Segment.

#[global] Instance Audio_Segment_inhabited : Inhabited Audio_Segment.t :=
  populate (Audio_Segment.default_constructor 0).

(** ** The instantiation [Ring_Buffer<Audio_Segment, true, Size>] *)

Module Audio_Ring_Buffer.

Import Ring_Buffer.

(** Every slot is a default-constructed segment. *)
Definition init (Size : Z) (now : Z) : Ring_Buffer.t Audio_Segment.t :=
  mk (replicate (Z.to_nat Size) (Audio_Segment.default_constructor now)) 0 0.

(** [void push(Audio_Segment value) noexcept], called as
    [push(std::move(arg))]: the by-value parameter is move-constructed from
    [arg], the slot at [head] is lazily initialised and then move-assigned
    from the parameter, and the parameter is destroyed. Returns the buffer
    and what is left of [arg]. *)
Definition push (Size : Z) (now : Z) (arg : Audio_Segment.t)
    (rb : Ring_Buffer.t Audio_Segment.t)
  : M (Ring_Buffer.t Audio_Segment.t * Audio_Segment.t) :=
  let '(value, arg') := Audio_Segment.move_constructor arg in
  noexcept (
    let slot := buffer rb !!! Z.to_nat (head rb) in
    slot ← Audio_Segment.lazy_initialize (Audio_Segment.get_size value) now slot;
    let '(slot, value) := Audio_Segment.move_assign slot value in
    let buffer' := <[Z.to_nat (head rb) := slot]> (buffer rb) in
    let head' := wrap_index Size (size_t_add (head rb) 1) in
    let tail' :=
      if head' =? tail rb
      then wrap_index Size (size_t_add (tail rb) 1)
      else tail rb in
    _ ← Audio_Segment.destructor value;
    mret (mk buffer' head' tail', arg')).

(** [std::optional<Audio_Segment> pop() noexcept]: the value is
    move-constructed out of the slot at [tail]. *)
Definition pop (Size : Z) (rb : Ring_Buffer.t Audio_Segment.t)
  : option Audio_Segment.t * Ring_Buffer.t Audio_Segment.t :=
  if head rb =? tail rb then (None, rb)
  else
    let '(value, slot) :=
      Audio_Segment.move_constructor (buffer rb !!! Z.to_nat (tail rb)) in
    (Some value,
     mk (<[Z.to_nat (tail rb) := slot]> (buffer rb)) (head rb)
        (wrap_index Size (size_t_add (tail rb) 1))).

End Audio_Ring_Buffer.

(** ** speaker_id_tsrt.h *)

Module Speaker_ID.

Record t := mk {
  name : string;
  vector : option (list Z);   (* the owned embedding; [None] is a null pointer *)
  vector_size : option Z;     (* [None]: the member was never initialised *)
}.

(** [Speaker_ID(std::string n, std::unique_ptr<float[]> v, size_t vs)] *)
Definition constructor (n : string) (v : option (list Z)) (vs : Z) : t :=
  mk n v (Some vs).

(** [Speaker_ID(const Speaker_ID &other)]: copies the name and the first
    [other.vector_size] floats; it does not set [vector_size].
    [alloc_ok] tells whether the allocation of the copy succeeds. *)
Definition copy_constructor (alloc_ok : bool) (other : t) : outcome t :=
  match vector_size other with
  | None => Undefined
  | Some vs =>
      if negb alloc_ok then Throw bad_alloc
      else
        match vector other with
        | None => Undefined
        | Some data =>
            if bool_decide (0 ≤ vs ≤ Z.of_nat (length data))
            then Ok (mk (name other) (Some (take (Z.to_nat vs) data)) None)
            else Undefined
        end
  end.

(** [Speaker_ID(Speaker_ID &&other) noexcept] *)
Definition move_constructor (other : t) : t :=
  mk (name other) (vector other) (vector_size other).

(** [bool operator==(const std::string &name) const] *)
Definition equal (this : t) (n : string) : bool :=
  bool_decide (name this = n).

End Speaker_ID.

(** ** logger_tsrt.h: the log is the list of reported errors, oldest first *)

Definition log_entry : Type := tsrt_status_code * string.

Definition log_error (status_code : tsrt_status_code) (message : string)
    (log : list log_entry) : list log_entry :=
  log ++ [(status_code, message)].

(** ** script_engine_tsrt.cpp *)

Module Script_Engine.

Record t := mk {
  speaker_diarization : bool;
  speech_recognition : bool;
  speaker_identification : bool;
  emotion_recognition : bool;
  running : bool;
  recording : bool;
  speakers : list Speaker_ID.t;
  audio_buffer : Ring_Buffer.t Audio_Segment.t;
}.

(** [Script_Engine::Script_Engine()] *)
Definition constructor (now : Z) : t :=
  mk false false false false false false []
     (Audio_Ring_Buffer.init AUDIO_BUFFER_SIZE now).

Definition start_engine (e : t) : t :=
  mk (speaker_diarization e) (speech_recognition e) (speaker_identification e)
     (emotion_recognition e) true (recording e) (speakers e) (audio_buffer e).

Definition stop_engine (e : t) : t :=
  mk (speaker_diarization e) (speech_recognition e) (speaker_identification e)
     (emotion_recognition e) false (recording e) (speakers e) (audio_buffer e).

Definition start_recording (e : t) : t :=
  mk (speaker_diarization e) (speech_recognition e) (speaker_identification e)
     (emotion_recognition e) (running e) true (speakers e) (audio_buffer e).

Definition stop_recording (e : t) : t :=
  mk (speaker_diarization e) (speech_recognition e) (speaker_identification e)
     (emotion_recognition e) (running e) false (speakers e) (audio_buffer e).

Definition set_speakers (l : list Speaker_ID.t) (e : t) : t :=
  mk (speaker_diarization e) (speech_recognition e) (speaker_identification e)
     (emotion_recognition e) (running e) (recording e) l (audio_buffer e).

Definition set_audio_buffer (rb : Ring_Buffer.t Audio_Segment.t) (e : t) : t :=
  mk (speaker_diarization e) (speech_recognition e) (speaker_identification e)
     (emotion_recognition e) (running e) (recording e) (speakers e) rb.

(** [void push_to_audio_buffer(Audio_Segment&& segment) noexcept]: returns
    the engine and what is left of the caller's segment. *)
Definition push_to_audio_buffer (now : Z) (segment : Audio_Segment.t) (e : t)
  : M (t * Audio_Segment.t) :=
  '(rb, segment') ←
    noexcept (Audio_Ring_Buffer.push AUDIO_BUFFER_SIZE now segment (audio_buffer e));
  mret (set_audio_buffer rb e, segment').

(** Whether each allocation request of [add_speaker] succeeds. *)
Record allocations := mk_allocations {
  reserve_ok : bool;          (* speakers.reserve(speakers.size() + 1) *)
  embedding_copy_ok : bool;   (* std::make_unique<float[]>(VOCAL_EMBEDDINGS_SIZE) *)
  push_back_ok : bool;        (* the copy constructor run by push_back *)
}.

(** [tsrt_status_code add_speaker(std::string name, float* embedding)];
    [embedding] lists the floats readable at the pointer. The result pairs
    the log with the outcome (status and engine). *)
Definition add_speaker (a : allocations) (n : string) (embedding : list Z)
    (log : list log_entry) (e : t)
  : list log_entry * outcome (tsrt_status_code * t) :=
  if negb (reserve_ok a) then
    (log_error INSUFFICIENT_MEMORY
       "Error allocating memory for speakers embedding" log,
     Ok (INSUFFICIENT_MEMORY, e))
  else if negb (embedding_copy_ok a) then (log, Throw bad_alloc)
  else if negb (bool_decide (VOCAL_EMBEDDINGS_SIZE ≤ Z.of_nat (length embedding)))
  then (log, Undefined)
  else
    let embedding_copy := take (Z.to_nat VOCAL_EMBEDDINGS_SIZE) embedding in
    let speaker :=
      Speaker_ID.constructor n (Some embedding_copy) VOCAL_EMBEDDINGS_SIZE in
    match Speaker_ID.copy_constructor (push_back_ok a) speaker with
    | Ok stored => (log, Ok (SUCCESS, set_speakers (speakers e ++ [stored]) e))
    | Throw ex => (log, Throw ex)
    | Terminate => (log, Terminate)
    | Undefined => (log, Undefined)
    end.

(** [void remove_speaker(std::string name) noexcept] *)
Definition remove_speaker (n : string) (e : t) : t :=
  set_speakers (filter (λ s, Speaker_ID.equal s n = false) (speakers e)) e.

Definition enable_speaker_diarization (e : t) : tsrt_status_code * t :=
  if speaker_diarization e || running e then (INVALID_OPERATION, e)
  else (SUCCESS,
        mk true (speech_recognition e) (speaker_identification e)
           (emotion_recognition e) (running e) (recording e) (speakers e)
           (audio_buffer e)).

Definition speaker_diarization_enabled (e : t) : bool := speaker_diarization e.

Definition enable_speech_recognition (e : t) : tsrt_status_code * t :=
  if speech_recognition e || running e then (INVALID_OPERATION, e)
  else (SUCCESS,
        mk (speaker_diarization e) true (speaker_identification e)
           (emotion_recognition e) (running e) (recording e) (speakers e)
           (audio_buffer e)).

Definition speech_recognition_enabled (e : t) : bool := speech_recognition e.

Definition enable_speaker_identification (e : t) : tsrt_status_code * t :=
  if speaker_identification e || running e then (INVALID_OPERATION, e)
  else (SUCCESS,
        mk (speaker_diarization e) (speech_recognition e) true
           (emotion_recognition e) (running e) (recording e) (speakers e)
           (audio_buffer e)).

Definition speaker_identification_enabled (e : t) : bool :=
  speaker_identification e.

Definition enable_emotion_recognition (e : t) : tsrt_status_code * t :=
  if emotion_recognition e || running e then (INVALID_OPERATION, e)
  else (SUCCESS,
        mk (speaker_diarization e) (speech_recognition e)
           (speaker_identification e) true (running e) (recording e)
           (speakers e) (audio_buffer e)).

Definition emotion_recognition_enabled (e : t) : bool := emotion_recognition e.

Definition is_running (e : t) : bool := running e.
Definition is_recording (e : t) : bool := recording e.
Definition get_speakers (e : t) : list Speaker_ID.t := speakers e.

(** The four feature-enable operations, each with its query. *)
Definition features : list ((t → tsrt_status_code * t) * (t → bool)) :=
  [ (enable_speaker_diarization, speaker_diarization_enabled);
    (enable_speech_recognition, speech_recognition_enabled);
    (enable_speaker_identification, speaker_identification_enabled);
    (enable_emotion_recognition, emotion_recognition_enabled) ].

End Script_Engine.

(** ** audio_tsrt.cpp: the audio backend over PortAudio and FFmpeg *)

Module Audio_tsrt.

(** What a PortAudio call reports: its [PaError] and the text
    [Pa_GetErrorText] gives for it. *)
Record PaResult := mk_PaResult {
  paStatus : Z;
  paErrorText : string;
}.

Definition paNoError : Z := 0.

(** [tsrt_status_code Audio_tsrt::start_stream()], given what
    [Pa_StartStream] reports. *)
Definition start_stream (r : PaResult) : outcome tsrt_status_code :=
  if negb (paStatus r =? paNoError)
  then Throw (Tsrt_Exception RUNTIME_ERROR (paErrorText r))
  else Ok SUCCESS.

(** [tsrt_status_code Audio_tsrt::stop_stream()], given what
    [Pa_StopStream] reports. *)
Definition stop_stream (r : PaResult) : outcome tsrt_status_code :=
  if negb (paStatus r =? paNoError)
  then Throw (Tsrt_Exception RUNTIME_ERROR (paErrorText r))
  else Ok SUCCESS.

(** [tsrt_status_code Audio_tsrt::read_audio_segment(float* segment, int
    segment_size)], given what [Pa_ReadStream] reports and the frames it
    delivers into [segment]. *)
Definition read_audio_segment (r : PaResult) (frames : list Z)
    (segment : pointer) (segment_size : Z) : M tsrt_status_code :=
  if negb (paStatus r =? paNoError)
  then throw (Tsrt_Exception IO_ERROR (paErrorText r))
  else λ h,
    if bool_decide (Z.of_nat (length frames) = segment_size) then
      match Heap.store segment frames h with
      | Some h' => Ok (SUCCESS, h')
      | None => Undefined
      end
    else Undefined.

(** [handle_ffmpeg_errors]: a negative return code becomes an exception. *)
Definition handle_ffmpeg_errors (ret : Z) (err_buf : string)
    (error_context : string) : outcome () :=
  if ret <? 0
  then Throw (Tsrt_Exception RUNTIME_ERROR
                (String.append error_context (String.append ": " err_buf)))
  else Ok ().

(** [tsrt_status_code Audio_tsrt::preprocess_audio_segment(float* segment)],
    given the return code of [av_buffersrc_add_frame_flags] and its error
    text. The frame is pushed into the filter graph; nothing is read back
    into [segment]. *)
Definition preprocess_audio_segment (ret : Z) (err_buf : string)
    (segment : pointer) : outcome tsrt_status_code :=
  match handle_ffmpeg_errors ret err_buf "Error adding frame to filter" with
  | Ok _ => Ok SUCCESS
  | Throw e => Throw e
  | Terminate => Terminate
  | Undefined => Undefined
  end.

End Audio_tsrt.

(** Lifting a call that does not touch the store. *)
Definition lift {A} (o : outcome A) : M A := λ h,
  match o with
  | Ok a => Ok (a, h)
  | Throw e => Throw e
  | Terminate => Terminate
  | Undefined => Undefined
  end.

(** A stage loop is run one pass at a time: a pass starts at the condition of
    the outer [while (engine.is_running())] or of the inner
    [while (!engine.is_recording())] and ends when control is back at one of
    them, or when the function returns. *)
Inductive position := AtOuterLoop | AtInnerLoop.

(** ** main.cpp: [audio_recording_thread] *)

Module Recording.

(** What the environment answers during one pass. *)
Record observation := mk_observation {
  is_streaming : bool;                    (* Pa_IsStreamActive *)
  stop_result : Audio_tsrt.PaResult;      (* Pa_StopStream *)
  start_result : Audio_tsrt.PaResult;     (* Pa_StartStream *)
  read_result : Audio_tsrt.PaResult;      (* Pa_ReadStream *)
  frames : list Z;                        (* the frames Pa_ReadStream delivers *)
  now : Z;                                (* std::chrono::system_clock::now() *)
}.

Record state := mk {
  at_loop : position;
  err_on_last_iteration : bool;
  audio_segment : Audio_Segment.t;
  shared_audio_ring_buffer : Ring_Buffer.t Audio_Segment.t;
  engine : Script_Engine.t;
  log : list log_entry;
}.

Inductive control :=
  | Next (s : state)      (* control is back at a loop condition *)
  | Returned.             (* the loop ended and the function returned *)

(** The locals before the loop. *)
Definition init (now : Z) (rb : Ring_Buffer.t Audio_Segment.t)
    (e : Script_Engine.t) (log : list log_entry) : M state :=
  audio_segment ←
    Audio_Segment.lazy_initialize SAMPLES_PER_HALF_SEGMENT now
      (Audio_Segment.default_constructor now);
  mret (mk AtOuterLoop false audio_segment rb e log).

(** The three calls the loop makes on the audio backend, as the loop sees
    them: each returns a status or throws. *)
Record backend := mk_backend {
  stop_stream : outcome tsrt_status_code;
  start_stream : outcome tsrt_status_code;
  read_audio_segment : pointer → Z → M tsrt_status_code;
}.

(** The backend of the program, [Audio_tsrt], under an observation. *)
Definition audio_tsrt (o : observation) : backend :=
  mk_backend
    (Audio_tsrt.stop_stream (stop_result o))
    (Audio_tsrt.start_stream (start_result o))
    (Audio_tsrt.read_audio_segment (read_result o) (frames o)).

(** The body of [while (!engine.is_recording())]. *)
Definition inner_body_on (b : backend) (o : observation) (s : state) : M control :=
  let again err log :=
    mk AtInnerLoop err (audio_segment s) (shared_audio_ring_buffer s)
       (engine s) log in
  if is_streaming o then
    status ← lift (stop_stream b);
    if negb (bool_decide (status = SUCCESS)) then
      if err_on_last_iteration s
      then throw (Tsrt_Exception IO_ERROR "Consecutive errors stopping stream")
      else mret (Next (again true (log_error IO_ERROR "Error stopping stream" (log s))))
    else mret (Next (again (err_on_last_iteration s) (log s)))
  else mret (Next (again (err_on_last_iteration s) (log s))).

(** The body of the outer loop after the inner loop has ended. *)
Definition outer_body_on (b : backend) (o : observation) (s : state) : M control :=
  let retry log :=
    mk AtOuterLoop true (audio_segment s) (shared_audio_ring_buffer s)
       (engine s) log in
  started ←
    (if negb (is_streaming o) then lift (start_stream b) else mret SUCCESS);
  if negb (bool_decide (started = SUCCESS)) then
    if err_on_last_iteration s
    then throw (Tsrt_Exception IO_ERROR "Consecutive errors starting stream")
    else mret (Next (retry (log_error IO_ERROR "Error starting stream" (log s))))
  else
    status ←
      read_audio_segment b (Audio_Segment.get_audio (audio_segment s))
        SAMPLES_PER_HALF_SEGMENT;
    if negb (bool_decide (status = SUCCESS)) then
      if err_on_last_iteration s
      then throw (Tsrt_Exception IO_ERROR "Consecutive errors reading audio segment")
      else mret (Next (retry (log_error IO_ERROR "Error reading audio segment" (log s))))
    else
      (* audio_segment.get_timestamp() = now(): assigns to a temporary *)
      '(rb, audio_segment) ←
        Audio_Ring_Buffer.push AUDIO_BUFFER_SIZE (now o) (audio_segment s)
          (shared_audio_ring_buffer s);
      audio_segment ← noexcept (Audio_Segment.reset_audio audio_segment);
      mret (Next (mk AtOuterLoop false audio_segment rb (engine s) (log s))).

(** One pass of the loop over a backend; the [catch] clauses of the function
    rethrow. *)
Definition pass_on (b : backend) (o : observation) (s : state) : M control :=
  match at_loop s with
  | AtOuterLoop =>
      if negb (Script_Engine.is_running (engine s)) then mret Returned
      else if negb (Script_Engine.is_recording (engine s)) then inner_body_on b o s
      else outer_body_on b o s
  | AtInnerLoop =>
      if negb (Script_Engine.is_recording (engine s)) then inner_body_on b o s
      else outer_body_on b o s
  end.

(** One pass of [audio_recording_thread]. *)
Definition pass (o : observation) (s : state) : M control :=
  pass_on (audio_tsrt o) o s.

End Recording.

(** ** main.cpp: [audio_preprocessing_thread] *)

Module Preprocessing.

(** What the environment answers during one pass. *)
Record observation := mk_observation {
  filter_ret : Z;          (* av_buffersrc_add_frame_flags *)
  filter_err : string;     (* av_make_error_string *)
  now : Z;                 (* std::chrono::system_clock::now() *)
}.

Record state := mk {
  at_loop : position;
  first_segment : bool;
  full_audio_segment : Audio_Segment.t;
  current_timestamp : Z;
  last_timestamp : Z;
  shared_audio_ring_buffer : Ring_Buffer.t Audio_Segment.t;
  engine : Script_Engine.t;
}.

Inductive control :=
  | Next (s : state)
  | Returned.

(** The locals before the loop; [now] is the time the thread starts. *)
Definition init (now : Z) (rb : Ring_Buffer.t Audio_Segment.t)
    (e : Script_Engine.t) : M state :=
  full_audio_segment ←
    Audio_Segment.lazy_initialize SAMPLES_PER_SEGMENT now
      (Audio_Segment.default_constructor now);
  mret (mk AtOuterLoop true full_audio_segment now now rb e).

(** The body of the outer loop after the inner loop has ended. *)
Definition outer_body (o : observation) (s : state) : M control :=
  let '(latest_half_segment_opt, rb) :=
    Audio_Ring_Buffer.pop AUDIO_BUFFER_SIZE (shared_audio_ring_buffer s) in
  match latest_half_segment_opt with
  | None =>
      mret (Next (mk AtOuterLoop (first_segment s) (full_audio_segment s)
                     (current_timestamp s) (last_timestamp s) rb (engine s)))
  | Some value =>
      let '(latest_half_segment, _) := Audio_Segment.move_constructor value in
      let current_timestamp := Audio_Segment.get_timestamp latest_half_segment in
      status ←
        lift (Audio_tsrt.preprocess_audio_segment (filter_ret o) (filter_err o)
                (Audio_Segment.get_audio latest_half_segment));
      if negb (bool_decide (status = SUCCESS))
      then throw (Tsrt_Exception UNKNOWN_ERROR "Error preprocessing audio segment")
      else if first_segment s then
        _ ← memcpy (Audio_Segment.get_audio (full_audio_segment s))
              (Audio_Segment.get_audio latest_half_segment)
              SAMPLES_PER_HALF_SEGMENT;
        _ ← Audio_Segment.destructor latest_half_segment;
        mret (Next (mk AtOuterLoop false (full_audio_segment s)
                       current_timestamp (last_timestamp s) rb (engine s)))
      else
        _ ← memcpy (Audio_Segment.get_midpoint (full_audio_segment s))
              (Audio_Segment.get_audio latest_half_segment)
              SAMPLES_PER_HALF_SEGMENT;
        let full_audio_segment :=
          Audio_Segment.set_timestamp (last_timestamp s) (full_audio_segment s) in
        let last_timestamp := current_timestamp in
        '(engine, full_audio_segment) ←
          Script_Engine.push_to_audio_buffer (now o) full_audio_segment (engine s);
        full_audio_segment ← noexcept (Audio_Segment.reset_audio full_audio_segment);
        _ ← memcpy (Audio_Segment.get_audio full_audio_segment)
              (Audio_Segment.get_audio latest_half_segment)
              SAMPLES_PER_HALF_SEGMENT;
        _ ← Audio_Segment.destructor latest_half_segment;
        mret (Next (mk AtOuterLoop false full_audio_segment
                       current_timestamp last_timestamp rb engine))
  end.

(** One pass of [audio_preprocessing_thread]. *)
Definition pass (o : observation) (s : state) : M control :=
  let wait :=
    mret (Next (mk AtInnerLoop (first_segment s) (full_audio_segment s)
                   (current_timestamp s) (last_timestamp s)
                   (shared_audio_ring_buffer s) (engine s))) in
  match at_loop s with
  | AtOuterLoop =>
      if negb (Script_Engine.is_running (engine s)) then mret Returned
      else if negb (Script_Engine.is_recording (engine s)) then wait
      else outer_body o s
  | AtInnerLoop =>
      if negb (Script_Engine.is_recording (engine s)) then wait
      else outer_body o s
  end.

(** Runs the passes of a list of observations, stopping at a return. *)
Fixpoint run (os : list observation) (s : state) : M control :=
  match os with
  | [] => mret (Next s)
  | o :: os' =>
      c ← pass o s;
      match c with
      | Next s' => run os' s'
      | Returned => mret Returned
      end
  end.

(** The finished windows waiting in the engine's buffer, oldest first, each
    with its samples and timestamp ([None] where the samples are gone). *)
Fixpoint finished_windows (fuel : nat) (rb : Ring_Buffer.t Audio_Segment.t)
    (h : Heap.t) : list (option (list Z) * Z) :=
  match fuel with
  | O => []
  | S fuel' =>
      match Audio_Ring_Buffer.pop AUDIO_BUFFER_SIZE rb with
      | (Some w, rb') =>
          (Audio_Segment.samples w h, Audio_Segment.get_timestamp w)
            :: finished_windows fuel' rb' h
      | (None, _) => []
      end
  end.

End Preprocessing.

(** ** Scenarios: half-windows placed in the raw buffer *)

Module Scenario.

(** Fills the array a segment owns. *)
Definition fill (data : list Z) (w : Audio_Segment.t) : M () := λ h,
  match Heap.store (Audio_Segment.get_audio w) data h with
  | Some h' => Ok ((), h')
  | None => Undefined
  end.

(** A half-window with the given samples and timestamp, pushed into the raw
    buffer as the capture stage pushes its segment. *)
Definition feed (data : list Z) (ts : Z) (now : Z)
    (rb : Ring_Buffer.t Audio_Segment.t) : M (Ring_Buffer.t Audio_Segment.t) :=
  w ← Audio_Segment.constructor (Z.of_nat (length data)) now;
  _ ← fill data w;
  '(rb, _) ← Audio_Ring_Buffer.push AUDIO_BUFFER_SIZE now
               (Audio_Segment.set_timestamp ts w) rb;
  mret rb.

Fixpoint feed_all (halves : list (list Z * Z)) (now : Z)
    (rb : Ring_Buffer.t Audio_Segment.t) : M (Ring_Buffer.t Audio_Segment.t) :=
  match halves with
  | [] => mret rb
  | (data, ts) :: halves' => rb ← feed data ts now rb; feed_all halves' now rb
  end.

(** The engine as [main] leaves it before the stages start, without the
    feature flags: running and recording. *)
Definition engine_recording (now : Z) : Script_Engine.t :=
  Script_Engine.start_recording
    (Script_Engine.start_engine (Script_Engine.constructor now)).

(** The preprocessing thread started at time [tstart] consumes the given
    half-windows, one per pass, the filter accepting each. The result is
    the finished windows in the engine's buffer, oldest first, and the
    thread's [last_timestamp]. *)
Definition stitch (halves : list (list Z * Z)) (tstart : Z)
  : outcome (list (option (list Z) * Z) * Z) :=
  let m : M Preprocessing.control :=
    rb ← feed_all halves tstart (Audio_Ring_Buffer.init AUDIO_BUFFER_SIZE tstart);
    s ← Preprocessing.init tstart rb (engine_recording tstart);
    Preprocessing.run
      (replicate (length halves) (Preprocessing.mk_observation 0 "" tstart)) s in
  match m Heap.empty with
  | Ok (Preprocessing.Next s, h) =>
      Ok (Preprocessing.finished_windows (Z.to_nat AUDIO_BUFFER_SIZE)
            (Script_Engine.audio_buffer (Preprocessing.engine s)) h,
          Preprocessing.last_timestamp s)
  | Ok (Preprocessing.Returned, _) => Undefined
  | Throw e => Throw e
  | Terminate => Terminate
  | Undefined => Undefined
  end.

End Scenario.

(** ** Vocabulary for the properties of segments in the store *)

(** The array a pointer points into is live. *)
Definition live (p : pointer) (h : Heap.t) : bool :=
  match p with
  | nullptr => false
  | Ptr b _ => bool_decide (is_Some (Heap.blocks h !! b))
  end.

(** No block at or beyond [next] is live: allocation returns fresh blocks. *)
Definition heap_wf (h : Heap.t) : Prop :=
  ∀ b : nat, (Heap.next h ≤ b)%nat → Heap.blocks h !! b = None.

(** The array of a segment, if it owns one, is live. *)
Definition owns_live (s : Audio_Segment.t) (h : Heap.t) : Prop :=
  ∀ b, Audio_Segment.audio s = Some b → is_Some (Heap.blocks h !! b).

(** ** Vocabulary for the properties of the ring buffer *)

Module Unread.

Import Ring_Buffer.

(** The indices are in range and the array has [Size] slots. *)
Definition wf {T} (Size : Z) (rb : Ring_Buffer.t T) : Prop :=
  length (buffer rb) = Z.to_nat Size
  ∧ 0 ≤ head rb < Size
  ∧ 0 ≤ tail rb < Size.

(** The distance from [tail] forward to [head]. *)
Definition count {T} (Size : Z) (rb : Ring_Buffer.t T) : Z :=
  (head rb - tail rb) mod Size.

(** The slots from [tail] forward to [head], oldest first. *)
Definition contents `{Inhabited T} (Size : Z) (rb : Ring_Buffer.t T) : list T :=
  (λ k : nat, buffer rb !!! Z.to_nat ((tail rb + Z.of_nat k) mod Size))
    <$> seq 0 (Z.to_nat (count Size rb)).

(** The last [n] elements of a list (all of it when it is shorter). *)
Definition keep_last {A} (n : nat) (l : list A) : list A :=
  drop (length l - n) l.

(** Pops until the buffer answers empty, at most [fuel] times. *)
Fixpoint drain `{Element T} (Size : Z) (fuel : nat) (rb : Ring_Buffer.t T)
  : list T :=
  match fuel with
  | O => []
  | S fuel' =>
      match pop Size rb with
      | (Some value, rb') => value :: drain Size fuel' rb'
      | (None, _) => []
      end
  end.

(** The states reached from the empty buffer by [push] and [pop]. *)
Inductive reachable `{Element T} (Size : Z) : Ring_Buffer.t T → Prop :=
  | reachable_init : reachable Size (init Size)
  | reachable_push value rb :
      reachable Size rb → reachable Size (push Size value rb)
  | reachable_pop rb :
      reachable Size rb → reachable Size (pop Size rb).2.

End Unread.

(** ** Runs of ring-buffer operations, and the queue they are compared with *)

Module Run.

(** A call on the buffer. *)
Inductive call (T : Type) :=
  | Push (value : T)
  | Pop
  | Clear.
Arguments Push {T} _.
Arguments Pop {T}.
Arguments Clear {T}.

(** Runs the calls in order on the buffer; the result lists what each [pop]
    returned, oldest call first, and gives the final buffer. *)
Fixpoint run `{Element T} (Size : Z) (calls : list (call T))
    (rb : Ring_Buffer.t T) : list (option T) * Ring_Buffer.t T :=
  match calls with
  | [] => ([], rb)
  | Push value :: calls' => run Size calls' (Ring_Buffer.push Size value rb)
  | Pop :: calls' =>
      let '(r, rb') := Ring_Buffer.pop Size rb in
      let '(rs, rb'') := run Size calls' rb' in
      (r :: rs, rb'')
  | Clear :: calls' => run Size calls' (Ring_Buffer.clear rb)
  end.

(** The same calls on a queue that keeps at most [bound] values, dropping
    the oldest when one more arrives. *)
Fixpoint queue {T} (bound : nat) (calls : list (call T)) (q : list T)
  : list (option T) * list T :=
  match calls with
  | [] => ([], q)
  | Push value :: calls' => queue bound calls' (Unread.keep_last bound (q ++ [value]))
  | Pop :: calls' =>
      let '(rs, q') := queue bound calls' (drop 1 q) in
      (q !! 0%nat :: rs, q')
  | Clear :: calls' => queue bound calls' []
  end.

End Run.

(** ** Runs of calls on the ring buffer of segments *)

(** The members of a segment that [swap] exchanges, and that therefore travel
    with it through a move assignment: the array, the timestamp and the
    size. The midpoint is not one of them. *)
Module Carried.

Record t := mk {
  audio : option nat;
  timestamp : Z;
  size : Z;
}.

Definition of_segment (s : Audio_Segment.t) : t :=
  mk (Audio_Segment.audio s) (Audio_Segment.timestamp s) (Audio_Segment.size s).

End Carried.

(** Moving out of a slot takes the array and leaves timestamp and size. *)
#[global] Instance Carried_Element : Element Carried.t :=
  {| value_initialized := Carried.mk None 0 0;
     moved_from := λ c, Carried.mk None (Carried.timestamp c) (Carried.size c) |}.

Module Segment_Run.

(** A call on the buffer of segments; a push is [push(std::move(arg))]. *)
Inductive call :=
  | Push (arg : Audio_Segment.t)
  | Pop
  | Clear.

(** Runs the calls in order on the buffer, every push at time [now]; the
    result lists what each [pop] returned, oldest call first, and gives the
    final buffer. *)
Fixpoint run (Size now : Z) (calls : list call)
    (rb : Ring_Buffer.t Audio_Segment.t)
  : M (list (option Audio_Segment.t) * Ring_Buffer.t Audio_Segment.t) :=
  match calls with
  | [] => mret ([], rb)
  | Push arg :: calls' =>
      '(rb', _) ← Audio_Ring_Buffer.push Size now arg rb;
      run Size now calls' rb'
  | Pop :: calls' =>
      let '(r, rb') := Audio_Ring_Buffer.pop Size rb in
      '(rs, rb'') ← run Size now calls' rb';
      mret (r :: rs, rb'')
  | Clear :: calls' => run Size now calls' (Ring_Buffer.clear rb)
  end.

(** Pops until the buffer answers empty, at most [fuel] times. *)
Fixpoint drain (Size : Z) (fuel : nat) (rb : Ring_Buffer.t Audio_Segment.t)
  : list Audio_Segment.t :=
  match fuel with
  | O => []
  | S fuel' =>
      match Audio_Ring_Buffer.pop Size rb with
      | (Some value, rb') => value :: drain Size fuel' rb'
      | (None, _) => []
      end
  end.

(** The segments the calls push, in order. *)
Definition pushed (calls : list call) : list Audio_Segment.t :=
  omap (λ c, match c with Push arg => Some arg | _ => None end) calls.

(** The same call, on what the segment carries. *)
Definition carried (c : call) : Run.call Carried.t :=
  match c with
  | Push arg => Run.Push (Carried.of_segment arg)
  | Pop => Run.Pop
  | Clear => Run.Clear
  end.

(** The buffer, seen through what its segments carry. *)
Definition view (rb : Ring_Buffer.t Audio_Segment.t) : Ring_Buffer.t Carried.t :=
  Ring_Buffer.mk (Carried.of_segment <$> Ring_Buffer.buffer rb)
    (Ring_Buffer.head rb) (Ring_Buffer.tail rb).

(** The arrays held by the slots of the buffer. *)
Definition slot_blocks (rb : Ring_Buffer.t Audio_Segment.t) : list nat :=
  omap Audio_Segment.audio (Ring_Buffer.buffer rb).

(** The arrays [bs] are pairwise distinct, live in [h0], and hold in [h] what
    they held in [h0]. *)
Definition kept (h0 h : Heap.t) (bs : list nat) : Prop :=
  NoDup bs
  ∧ ∀ b, b ∈ bs →
      is_Some (Heap.blocks h0 !! b) ∧ Heap.blocks h !! b = Heap.blocks h0 !! b.

(** A segment that can be pushed: it is not empty, its size is one that can
    be allocated, and its samples can be read. *)
Definition pushable (h : Heap.t) (s : Audio_Segment.t) : Prop :=
  0 < Audio_Segment.size s < float_array_limit
  ∧ is_Some (Audio_Segment.samples s h).

End Segment_Run.

(** ** exceptions_tsrt.h: [handle_exception] *)

Module Exceptions.

(** The dynamic type of an exception object, by name. *)
Definition typeid (e : exception) : string :=
  match e with
  | Tsrt_Exception _ _ => "Tsrt_Exception"
  | bad_alloc => "std::bad_alloc"
  end.

(** [inline std::map<std::type_index, tsrt_status_code> exception_status_code_map] *)
Definition exception_status_code_map : gmap string tsrt_status_code :=
  list_to_map
    [ ("std::bad_alloc", INSUFFICIENT_MEMORY);
      ("std::ios_base::failure", IO_ERROR);
      ("std::runtime_error", RUNTIME_ERROR);
      ("std::out_of_range", OUT_OF_RANGE_ERROR);
      ("std::invalid_argument", INVALID_ARGUMENT);
      ("std::logic_error", CONFIGURATION_ERROR) ].

(** [handle_exception], on the name of the dynamic type of its argument. *)
Definition handle_exception_of_type (type_name : string) : tsrt_status_code :=
  match exception_status_code_map !! type_name with
  | Some status_code => status_code
  | None => UNKNOWN_ERROR
  end.

(** [template <typename ExceptionType> tsrt_status_code
    handle_exception(const ExceptionType& e)] *)
Definition handle_exception (e : exception) : tsrt_status_code :=
  handle_exception_of_type (typeid e).

End Exceptions.

(** ** The calls of the script engine that leave the store alone *)

Module Engine_Calls.

Inductive feature :=
  | Speaker_diarization
  | Speech_recognition
  | Speaker_identification
  | Emotion_recognition.

Definition enable (f : feature) : Script_Engine.t → tsrt_status_code * Script_Engine.t :=
  match f with
  | Speaker_diarization => Script_Engine.enable_speaker_diarization
  | Speech_recognition => Script_Engine.enable_speech_recognition
  | Speaker_identification => Script_Engine.enable_speaker_identification
  | Emotion_recognition => Script_Engine.enable_emotion_recognition
  end.

Definition enabled (f : feature) : Script_Engine.t → bool :=
  match f with
  | Speaker_diarization => Script_Engine.speaker_diarization_enabled
  | Speech_recognition => Script_Engine.speech_recognition_enabled
  | Speaker_identification => Script_Engine.speaker_identification_enabled
  | Emotion_recognition => Script_Engine.emotion_recognition_enabled
  end.

Inductive call :=
  | Start_engine
  | Stop_engine
  | Start_recording
  | Stop_recording
  | Enable (f : feature)
  | Add_speaker (a : Script_Engine.allocations) (name : string) (embedding : list Z)
  | Remove_speaker (name : string).

(** The engine after a call, [None] when the call does not return normally
    or by an exception. An [add_speaker] that throws leaves the engine as it
    was: nothing was appended yet. *)
Definition apply (c : call) (e : Script_Engine.t) : option Script_Engine.t :=
  match c with
  | Start_engine => Some (Script_Engine.start_engine e)
  | Stop_engine => Some (Script_Engine.stop_engine e)
  | Start_recording => Some (Script_Engine.start_recording e)
  | Stop_recording => Some (Script_Engine.stop_recording e)
  | Enable f => Some (enable f e).2
  | Add_speaker a name embedding =>
      match (Script_Engine.add_speaker a name embedding [] e).2 with
      | Ok (_, e') => Some e'
      | Throw _ => Some e
      | Terminate | Undefined => None
      end
  | Remove_speaker name => Some (Script_Engine.remove_speaker name e)
  end.

(** Runs the calls in order. *)
Fixpoint run (calls : list call) (e : Script_Engine.t) : option Script_Engine.t :=
  match calls with
  | [] => Some e
  | c :: calls' => e' ← apply c e; run calls' e'
  end.

End Engine_Calls.

(** ** logger_tsrt.cpp *)

Module Logger.

(** [status_code_to_string], on the integer value of the enumerator. *)
Definition status_code_to_string (status_code : Z) : string :=
  if status_code =? 0 then "SUCCESS"
  else if status_code =? 1 then "INSUFFICIENT_MEMORY"
  else if status_code =? 2 then "IO_ERROR"
  else if status_code =? 3 then "INVALID_ARGUMENT"
  else if status_code =? 4 then "CONFIGURATION_ERROR"
  else if status_code =? 5 then "RUNTIME_ERROR"
  else if status_code =? 6 then "OUT_OF_RANGE_ERROR"
  else if status_code =? 7 then "TRY_AGAIN"
  else if status_code =? 8 then "INVALID_OPERATION"
  else "UNKNOWN_ERROR".

Definition STATUS_CODE_COUNT : Z := 10.

(** Where a line is written. *)
Inductive sink := To_logger | To_cerr | To_cout.

(** What is written: an error line, an info line, or a fixed diagnostic. *)
Inductive entry :=
  | Error_line (s : sink) (status_string message formatted_time filename : string)
      (line_number : Z)
  | Info_line (s : sink) (message formatted_time filename : string) (line_number : Z)
  | Diagnostic (s : sink) (text : string).

Record state := mk {
  registered : bool;            (* spdlog's registry holds "basic_logger" *)
  error_logger : option bool;   (* the static of log_error: [None] before its
                                   initialisation, else whether it is non-null *)
  info_logger : option bool;    (* the static of log_info *)
  output : list entry;          (* everything written, oldest first *)
}.

(** The state when the process starts. *)
Definition start : state := mk false None None [].

(** What can leave [init_logging] as an exception. *)
Inductive init_exception := runtime_error (what : string).

Definition typeid (e : init_exception) : string :=
  match e with runtime_error _ => "std::runtime_error" end.

Inductive init_result :=
  | Init_returned (status : tsrt_status_code) (st : state)
  | Init_threw (e : init_exception).

(** [tsrt_status_code init_logging()]. [path] is what [get_executable_path]
    does: it returns the directory or throws [std::runtime_error] with the
    given text; [spdlog_ex] is the text of the exception [basic_logger_mt]
    throws, if it throws. *)
Definition init_logging (path : string + string) (spdlog_ex : option string)
    (st : state) : init_result :=
  match path with
  | inr what => Init_threw (runtime_error what)
  | inl _ =>
      match spdlog_ex with
      | Some what =>
          Init_returned CONFIGURATION_ERROR
            (mk (registered st) (error_logger st) (info_logger st)
                (output st
                 ++ [Diagnostic To_cerr (String.append "Log initialization failed: " what)]))
      | None =>
          Init_returned SUCCESS
            (mk true (error_logger st) (info_logger st) (output st))
      end
  end.

(** [void log_error(...)], with the text [put_time] gives for the timestamp. *)
Definition log_error (status_code : Z) (message formatted_time filename : string)
    (line_number : Z) (st : state) : state :=
  if (status_code <? 0) || (STATUS_CODE_COUNT <=? status_code)
     || bool_decide (message = EmptyString) || bool_decide (filename = EmptyString)
     || (line_number <? 0)
  then mk (registered st) (error_logger st) (info_logger st)
          (output st ++ [Diagnostic To_cerr "Invalid argument(s) passed to log_error."])
  else
    let status_string := status_code_to_string status_code in
    let logger :=
      match error_logger st with
      | Some logger => logger
      | None => registered st        (* spdlog::get("basic_logger") *)
      end in
    mk (registered st) (Some logger) (info_logger st)
       (output st
        ++ [Error_line (if logger then To_logger else To_cerr)
              status_string message formatted_time filename line_number]).

(** [void log_info(...)] *)
Definition log_info (message formatted_time filename : string)
    (line_number : Z) (st : state) : state :=
  if bool_decide (message = EmptyString) || bool_decide (filename = EmptyString)
     || (line_number <? 0)
  then mk (registered st) (error_logger st) (info_logger st)
          (output st ++ [Diagnostic To_cerr "Invalid argument(s) passed to log_info."])
  else
    let logger :=
      match info_logger st with
      | Some logger => logger
      | None => registered st
      end in
    mk (registered st) (error_logger st) (Some logger)
       (output st
        ++ [Info_line (if logger then To_logger else To_cout)
              message formatted_time filename line_number]).

(** A call on the logging interface. *)
Inductive call :=
  | Init (path : string + string) (spdlog_ex : option string)
  | Log_error (status_code : Z) (message formatted_time filename : string)
      (line_number : Z)
  | Log_info (message formatted_time filename : string) (line_number : Z).

(** The state after a call; an [init_logging] that throws changes nothing. *)
Definition apply (c : call) (st : state) : state :=
  match c with
  | Init path spdlog_ex =>
      match init_logging path spdlog_ex st with
      | Init_returned _ st' => st'
      | Init_threw _ => st
      end
  | Log_error status_code message formatted_time filename line_number =>
      log_error status_code message formatted_time filename line_number st
  | Log_info message formatted_time filename line_number =>
      log_info message formatted_time filename line_number st
  end.

Definition run (calls : list call) (st : state) : state :=
  foldl (λ st c, apply c st) st calls.

(** The sinks the error lines, respectively the info lines, went to. *)
Definition error_sinks (out : list entry) : list sink :=
  omap (λ e, match e with Error_line s _ _ _ _ _ => Some s | _ => None end) out.

Definition info_sinks (out : list entry) : list sink :=
  omap (λ e, match e with Info_line s _ _ _ _ => Some s | _ => None end) out.

(** Where a line goes, given whether the function's static logger is
    non-null and which stream the function falls back on. *)
Definition sink_of (logger : bool) (console : sink) : sink :=
  if logger then To_logger else console.

(** Each function's lines agree with its static, once that is initialised. *)
Definition lines_follow_statics (st : state) : Prop :=
  match error_logger st with
  | None => error_sinks (output st) = []
  | Some logger => Forall (λ s, s = sink_of logger To_cerr) (error_sinks (output st))
  end
  ∧ match info_logger st with
    | None => info_sinks (output st) = []
    | Some logger => Forall (λ s, s = sink_of logger To_cout) (info_sinks (output st))
    end.

End Logger.

(** ** What the stitcher is expected to emit *)

Module Windows.

(** The windows over consecutive half-windows: each is the previous samples
    followed by the next, under the given stamp; the stamp of the following
    window is the timestamp of the half-window just consumed. *)
Fixpoint spliced (previous : list Z) (stamp : Z) (rest : list (list Z * Z))
  : list (option (list Z) * Z) :=
  match rest with
  | [] => []
  | (data, ts) :: rest' => (Some (previous ++ data), stamp) :: spliced data ts rest'
  end.

(** The windows of a thread started at [tstart], and its [last_timestamp]
    afterwards. *)
Definition emitted (halves : list (list Z * Z)) (tstart : Z)
  : list (option (list Z) * Z) * Z :=
  match halves with
  | [] => ([], tstart)
  | (first, _) :: rest => (spliced first tstart rest, List.last (snd <$> rest) tstart)
  end.

End Windows.

(* ===================================================================== *)
(** * Part II: properties                                                 *)
(* ===================================================================== *)

(** ** Index wrap-around *)

Lemma size_t_modulus_eq : size_t_modulus = 18446744073709551616.
Proof. reflexivity. Qed.

Lemma size_t_add_small a b :
  0 ≤ a + b < size_t_modulus → size_t_add a b = a + b.
Proof. intros. unfold size_t_add. by apply Z.mod_small. Qed.

Lemma size_t_sub_small a b :
  0 ≤ a - b < size_t_modulus → size_t_sub a b = a - b.
Proof. intros. unfold size_t_sub. by apply Z.mod_small. Qed.

(** A positive number sharing no bit with its predecessor is a power of two. *)
Lemma land_pred_zero_pow2 n :
  0 < n → Z.land n (n - 1) = 0 → n = 2 ^ Z.log2 n.
Proof.
  intros Hn Hland.
  destruct (Z.log2_spec n Hn) as [Hlo Hhi].
  destruct (decide (n = 2 ^ Z.log2 n)) as [|Hne]; [done|exfalso].
  assert (Hlog : Z.log2 (n - 1) = Z.log2 n).
  { apply Z.log2_unique; [apply Z.log2_nonneg | lia]. }
  assert (Hbit : Z.testbit (Z.land n (n - 1)) (Z.log2 n) = true).
  { assert (0 < 2 ^ Z.log2 n) by (apply Z.pow_pos_nonneg; [lia | apply Z.log2_nonneg]).
    rewrite Z.land_spec, Z.bit_log2 by lia.
    rewrite <- Hlog. rewrite Z.bit_log2 by lia. done. }
  rewrite Hland, Z.bits_0 in Hbit. done.
Qed.

Lemma is_power_of_two_pow2 Size :
  0 < Size < size_t_modulus → is_power_of_two Size = true →
  Size = 2 ^ Z.log2 Size.
Proof.
  intros HS Hp. unfold is_power_of_two in Hp.
  apply andb_true_iff in Hp as [_ Hp]. apply Z.eqb_eq in Hp.
  rewrite size_t_sub_small in Hp by lia.
  apply land_pred_zero_pow2; [lia | done].
Qed.

Lemma wrap_index_mask_mod Size index :
  0 < Size < size_t_modulus → is_power_of_two Size = true →
  Ring_Buffer.wrap_index_mask Size index = Ring_Buffer.wrap_index_mod Size index.
Proof.
  intros HS Hp. pose proof (is_power_of_two_pow2 _ HS Hp) as Hpow.
  unfold Ring_Buffer.wrap_index_mask, Ring_Buffer.wrap_index_mod.
  rewrite size_t_sub_small by lia.
  rewrite Hpow. rewrite Z.sub_1_r, <- Z.ones_equiv.
  rewrite Z.land_ones by apply Z.log2_nonneg.
  by rewrite <- Hpow.
Qed.

Lemma wrap_index_eq_mod Size index :
  0 < Size < size_t_modulus →
  Ring_Buffer.wrap_index Size index = index mod Size.
Proof.
  intros HS. unfold Ring_Buffer.wrap_index.
  destruct (is_power_of_two Size) eqn:Hp; [|done].
  by rewrite wrap_index_mask_mod.
Qed.

(** ** The ring buffer as a bounded queue *)

Section ring_buffer.
Import Ring_Buffer Unread.
Context `{Element T}.
Variable Size : Z.
Hypothesis Size_range : 0 < Size < size_t_modulus.

Implicit Types (rb : Ring_Buffer.t T) (v : T) (l : list T).

Lemma mod_cases a :
  - Size ≤ a < 2 * Size →
  (a < 0 ∧ a mod Size = a + Size)
  ∨ (0 ≤ a < Size ∧ a mod Size = a)
  ∨ (Size ≤ a ∧ a mod Size = a - Size).
Proof using Size_range.
  intros Ha.
  destruct (decide (a < 0)); [|destruct (decide (a < Size))].
  - left. split; [done|].
    rewrite <- (Z_mod_plus_full a 1 Size). rewrite Z.mod_small; lia.
  - right; left. split; [lia|]. apply Z.mod_small. lia.
  - right; right. split; [lia|].
    rewrite <- (Z_mod_plus_full a (-1) Size). rewrite Z.mod_small; lia.
Qed.

Lemma next_index i :
  0 ≤ i < Size → wrap_index Size (size_t_add i 1) = (i + 1) mod Size.
Proof using Size_range.
  intros Hi. rewrite size_t_add_small by lia. by apply wrap_index_eq_mod.
Qed.

(** Replaces every [a mod Size] whose argument is within one period of the
    range by its value, splitting on the three cases. *)
Ltac norm_mod :=
  repeat match goal with
  | |- context [?a mod Size] =>
      let Hb := fresh in
      let E := fresh in
      assert (- Size ≤ a < 2 * Size) as Hb by lia;
      destruct (mod_cases a Hb) as [[? E]|[[? E]|[? E]]];
      rewrite !E in *; clear Hb E
  end.

Lemma init_wf : wf Size (init Size).
Proof using Size_range.
  unfold wf, init; simpl. rewrite length_replicate. lia.
Qed.

Lemma init_contents : contents Size (init Size) = [].
Proof using Size_range.
  unfold contents, count, init; simpl. done.
Qed.

Lemma length_contents rb :
  length (contents Size rb) = Z.to_nat (count Size rb).
Proof. unfold contents. by rewrite length_fmap, length_seq. Qed.

Lemma count_bound rb : 0 ≤ count Size rb ≤ Size - 1.
Proof using Size_range.
  unfold count. pose proof (Z.mod_pos_bound (head rb - tail rb) Size). lia.
Qed.

Lemma count_zero rb : wf Size rb → count Size rb = 0 ↔ head rb = tail rb.
Proof using Size_range.
  intros (_ & Hh & Ht). unfold count. split; intros Heq.
  - revert Heq. norm_mod; lia.
  - rewrite Heq, Z.sub_diag. apply Z.mod_0_l. lia.
Qed.

Lemma push_wf v rb : wf Size rb → wf Size (push Size v rb).
Proof using Size_range.
  intros (Hlen & Hh & Ht). unfold wf, push; simpl.
  rewrite length_insert, !next_index by done.
  split; [done|]. split; [apply Z.mod_pos_bound; lia|].
  case_match; [apply Z.mod_pos_bound|]; lia.
Qed.

Lemma pop_wf rb : wf Size rb → wf Size (pop Size rb).2.
Proof using Size_range.
  intros (Hlen & Hh & Ht). unfold wf, pop.
  case_match; simpl; [done|].
  rewrite length_alter, next_index by done.
  split; [done|]. split; [done|]. apply Z.mod_pos_bound; lia.
Qed.

Lemma lookup_tabulate (f : nat → T) (n i : nat) :
  (f <$> seq 0 n) !! i = if decide (i < n)%nat then Some (f i) else None.
Proof.
  rewrite list_lookup_fmap. case_decide.
  - by rewrite lookup_seq_lt.
  - by rewrite lookup_seq_ge by lia.
Qed.

Lemma lookup_snoc_tabulate (f : nat → T) (n j : nat) v :
  ((f <$> seq 0 n) ++ [v]) !! j
  = if decide (j < n)%nat then Some (f j)
    else if decide (j = n) then Some v else None.
Proof.
  repeat case_decide.
  - rewrite lookup_app_l by (by rewrite length_fmap, length_seq).
    rewrite lookup_tabulate. by case_decide.
  - subst. rewrite list_lookup_middle; [done|]. by rewrite length_fmap, length_seq.
  - apply lookup_ge_None. rewrite length_app, length_fmap, length_seq. simpl. lia.
Qed.

Lemma slot_insert (buf : list T) (i j : Z) v :
  0 ≤ i < Z.of_nat (length buf) → 0 ≤ j →
  <[Z.to_nat i := v]> buf !!! Z.to_nat j
  = if decide (i = j) then v else buf !!! Z.to_nat j.
Proof.
  intros Hi Hj. case_decide.
  - subst. apply list_lookup_total_insert_eq. lia.
  - apply list_lookup_total_insert_ne. lia.
Qed.

Lemma slot_alter (g : T → T) (buf : list T) (i j : Z) :
  0 ≤ i → 0 ≤ j → i ≠ j →
  alter g (Z.to_nat i) buf !!! Z.to_nat j = buf !!! Z.to_nat j.
Proof. intros. apply list_lookup_total_alter_ne. lia. Qed.

(** A push appends the value; when [Size - 1] values are already unread,
    the oldest of them is dropped. *)
Lemma push_contents v rb :
  wf Size rb →
  contents Size (push Size v rb)
  = keep_last (Z.to_nat (Size - 1)) (contents Size rb ++ [v]).
Proof using Size_range.
  intros (Hlen & Hh & Ht).
  unfold keep_last. rewrite length_app, length_contents; simpl.
  unfold contents, count, push in *; simpl. rewrite !next_index by done.
  set (h := head rb) in *. set (t := tail rb) in *.
  assert (Hslot : ∀ j, 0 ≤ j → <[Z.to_nat h := v]> (buffer rb) !!! Z.to_nat j
            = if decide (h = j) then v else buffer rb !!! Z.to_nat j).
  { intros j Hj. apply slot_insert; lia. }
  norm_mod; try lia.
  all: repeat match goal with |- context [?a =? ?b] => destruct (Z.eqb_spec a b) end; try lia; simpl.
  all: norm_mod; try lia.
  all: apply list_eq; intros i.
  all: rewrite lookup_drop, lookup_snoc_tabulate, lookup_tabulate.
  all: repeat case_decide; try lia; try done.
  all: try rewrite Hslot by (apply Z.mod_pos_bound; lia).
  all: norm_mod; try lia.
  all: repeat case_decide; try lia; try done.
  all: try (do 2 f_equal; lia).
Qed.

(** A pop returns the oldest unread value and removes it. *)
Lemma pop_contents rb :
  wf Size rb →
  (pop Size rb).1 = contents Size rb !! 0%nat
  ∧ contents Size (pop Size rb).2 = drop 1 (contents Size rb).
Proof using Size_range.
  intros (Hlen & Hh & Ht).
  unfold pop. destruct (Z.eqb_spec (head rb) (tail rb)) as [Heq|Hne]; simpl.
  { unfold contents, count. by rewrite Heq, Z.sub_diag, Z.mod_0_l by lia. }
  unfold contents, count; simpl. rewrite next_index by done.
  set (h := head rb) in *. set (t := tail rb) in *.
  rewrite lookup_tabulate.
  split.
  - norm_mod; try lia.
    all: case_decide; try lia.
    all: do 2 f_equal; lia.
  - norm_mod; try lia.
    all: apply list_eq; intros i.
    all: rewrite lookup_drop, !lookup_tabulate.
    all: repeat case_decide; try lia; try done.
    all: f_equal.
    all: norm_mod; try lia.
    all: rewrite slot_alter by lia.
    all: f_equal; lia.
Qed.

Lemma keep_last_all {A} (n : nat) (l : list A) :
  (length l ≤ n)%nat → keep_last n l = l.
Proof. intros. unfold keep_last. by replace (length l - n)%nat with 0%nat by lia. Qed.

Lemma length_keep_last {A} (n : nat) (l : list A) :
  length (keep_last n l) = (length l `min` n)%nat.
Proof. unfold keep_last. rewrite length_drop. lia. Qed.

Lemma keep_last_app_l {A} (n : nat) (l k : list A) :
  keep_last n (keep_last n l ++ k) = keep_last n (l ++ k).
Proof.
  destruct (decide (length l ≤ n)%nat) as [Hle|Hgt].
  { by rewrite (keep_last_all n l). }
  unfold keep_last. rewrite !length_app, length_drop.
  rewrite <- (drop_app_le l k (length l - n)) by lia.
  rewrite drop_drop. f_equal. lia.
Qed.

Lemma push_all_wf vs rb : wf Size rb → wf Size (push_all Size vs rb).
Proof using Size_range.
  revert rb. induction vs as [|v vs IH]; intros rb Hwf; simpl; [done|].
  apply IH. by apply push_wf.
Qed.

Lemma push_all_contents vs rb :
  wf Size rb →
  contents Size (push_all Size vs rb)
  = keep_last (Z.to_nat (Size - 1)) (contents Size rb ++ vs).
Proof using Size_range.
  revert rb. induction vs as [|v vs IH]; intros rb Hwf; simpl.
  - rewrite app_nil_r, keep_last_all; [done|].
    rewrite length_contents. pose proof (count_bound rb). lia.
  - rewrite IH by (by apply push_wf). rewrite push_contents by done.
    rewrite keep_last_app_l. by rewrite <- app_assoc.
Qed.

Lemma pop_n_contents n rb :
  wf Size rb →
  (pop_n Size n rb).1
  = (Some <$> take n (contents Size rb))
    ++ replicate (n - length (contents Size rb)) None.
Proof using Size_range.
  revert rb. induction n as [|n IH]; intros rb Hwf; simpl; [done|].
  destruct (pop_contents rb Hwf) as [Hv Hrest].
  pose proof (pop_wf rb Hwf) as Hwf'.
  destruct (pop Size rb) as [r rb'] eqn:Hpop; simpl in *.
  specialize (IH rb' Hwf'). destruct (pop_n Size n rb') as [rs rb'']; simpl in *.
  rewrite IH, Hrest, Hv.
  destruct (contents Size rb) as [|x l]; simpl.
  - rewrite take_nil. simpl. by rewrite Nat.sub_0_r.
  - done.
Qed.

Lemma drain_contents fuel rb :
  wf Size rb → drain Size fuel rb = take fuel (contents Size rb).
Proof using Size_range.
  revert rb. induction fuel as [|fuel IH]; intros rb Hwf; simpl; [done|].
  destruct (pop_contents rb Hwf) as [Hv Hrest].
  pose proof (pop_wf rb Hwf) as Hwf'.
  destruct (pop Size rb) as [r rb'] eqn:Hpop; simpl in *.
  rewrite Hv. destruct (contents Size rb) as [|x l]; simpl; [done|].
  rewrite IH by done. by rewrite Hrest.
Qed.

Lemma reachable_push_all vs rb :
  reachable Size rb → reachable Size (push_all Size vs rb).
Proof.
  revert rb. induction vs as [|v vs IH]; intros rb Hr; simpl; [done|].
  apply IH. by apply reachable_push.
Qed.

Lemma reachable_wf rb : reachable Size rb → wf Size rb.
Proof using Size_range.
  induction 1; [apply init_wf | by apply push_wf | by apply pop_wf].
Qed.

(** What any run of pushes into the empty buffer leaves to be popped. *)
Lemma push_all_then_pops vs k :
  let kept := keep_last (Z.to_nat (Size - 1)) vs in
  (pop_n Size (length kept + k) (push_all Size vs (init Size))).1
  = (Some <$> kept) ++ replicate k None.
Proof using Size_range.
  intros kept.
  rewrite pop_n_contents by apply push_all_wf, init_wf.
  rewrite push_all_contents, init_contents by apply init_wf. simpl. fold kept.
  rewrite firstn_all2 by lia.
  f_equal. f_equal. lia.
Qed.

(** In a reachable state, at most [Size - 1] pops in a row succeed. *)
Lemma reachable_pops_bounded rb (n : nat) :
  reachable Size rb → (Z.to_nat (Size - 1) ≤ n)%nat →
  (pop_n Size (S n) rb).1 !! n = Some None.
Proof using Size_range.
  intros Hr Hn. pose proof (reachable_wf rb Hr) as Hwf.
  rewrite pop_n_contents by done.
  pose proof (count_bound rb). pose proof (length_contents rb).
  rewrite lookup_app_r; rewrite length_fmap, length_take; [|lia].
  apply lookup_replicate_2. lia.
Qed.

End ring_buffer.

(** C8. With capacity 16, a power of two, masking an index with
    [capacity - 1] gives the same result as reducing it modulo the capacity,
    for every non-negative index; [wrap_index] therefore computes the same
    value whichever branch is compiled. *)
Theorem wrap_index_mask_agrees_with_mod (index : Z) :
  0 ≤ index →
  AUDIO_BUFFER_SIZE = 16
  ∧ is_power_of_two 16 = true
  ∧ Ring_Buffer.wrap_index_mask 16 index = Ring_Buffer.wrap_index_mod 16 index
  ∧ Ring_Buffer.wrap_index 16 index = Ring_Buffer.wrap_index_mod 16 index.
Proof.
  intros _. split; [done|]. split; [done|].
  assert (Ring_Buffer.wrap_index_mask 16 index = Ring_Buffer.wrap_index_mod 16 index) as Heq.
  { apply wrap_index_mask_mod; done. }
  split; [done|]. unfold Ring_Buffer.wrap_index.
  by replace (is_power_of_two 16) with true by done.
Qed.

Lemma wrap_index_mask_agrees_with_mod_witness :
  AUDIO_BUFFER_SIZE = 16
  ∧ is_power_of_two 16 = true
  ∧ Ring_Buffer.wrap_index_mask 16 37 = Ring_Buffer.wrap_index_mod 16 37
  ∧ Ring_Buffer.wrap_index 16 37 = Ring_Buffer.wrap_index_mod 16 37.
Proof. apply (wrap_index_mask_agrees_with_mod 37). lia. Defined.

(** ** The feature flags of the script engine *)

(** C5. Each of the four feature-enable operations, called while the engine
    is not running and its flag is unset, returns success and sets the flag;
    a second call returns INVALID_OPERATION; and a call while the engine is
    running, in particular any call after [start_engine], returns
    INVALID_OPERATION whatever the flag, and changes nothing. *)
Theorem enable_feature_is_one_shot :
  Forall (λ '(enable, enabled),
    ∀ e : Script_Engine.t,
      (Script_Engine.is_running e = false → enabled e = false →
         (enable e).1 = SUCCESS
         ∧ enabled (enable e).2 = true
         ∧ enable (enable e).2 = (INVALID_OPERATION, (enable e).2))
      ∧ (enabled e = true → enable e = (INVALID_OPERATION, e))
      ∧ (Script_Engine.is_running e = true → enable e = (INVALID_OPERATION, e))
      ∧ enable (Script_Engine.start_engine e)
        = (INVALID_OPERATION, Script_Engine.start_engine e)
      ∧ enabled (Script_Engine.start_engine e) = enabled e)
    Script_Engine.features.
Proof.
  unfold Script_Engine.features.
  repeat apply List.Forall_cons; [..|apply List.Forall_nil].
  all: intros [d r i m run rec sp ab].
  all: cbv [Script_Engine.enable_speaker_diarization
            Script_Engine.enable_speech_recognition
            Script_Engine.enable_speaker_identification
            Script_Engine.enable_emotion_recognition
            Script_Engine.speaker_diarization_enabled
            Script_Engine.speech_recognition_enabled
            Script_Engine.speaker_identification_enabled
            Script_Engine.emotion_recognition_enabled
            Script_Engine.is_running Script_Engine.start_engine]; simpl.
  all: repeat split; try intros ->; try intros ->; simpl; try done.
  all: repeat match goal with b : bool |- _ => destruct b end; done.
Qed.

(** ** Speakers *)




(** X24. The other two allocations of [add_speaker] are outside its [try]
    block: when the copy of the embedding or the copy into the collection
    fails to allocate, [std::bad_alloc] leaves the function and nothing is
    logged. *)
Lemma add_speaker_other_allocation_failures a name embedding log e :
  VOCAL_EMBEDDINGS_SIZE ≤ Z.of_nat (length embedding) →
  Script_Engine.reserve_ok a = true →
  Script_Engine.embedding_copy_ok a = false ∨ Script_Engine.push_back_ok a = false →
  Script_Engine.add_speaker a name embedding log e = (log, Throw bad_alloc).
Proof.
  intros Hlen Hr Hfail. unfold Script_Engine.add_speaker. rewrite Hr; simpl.
  destruct (Script_Engine.embedding_copy_ok a); simpl; [|done].
  destruct Hfail as [|Hp]; [done|].
  rewrite bool_decide_eq_true_2 by done. simpl.
  unfold Speaker_ID.copy_constructor; simpl. by rewrite Hp.
Qed.

Lemma add_speaker_other_allocation_failures_witness :
  Script_Engine.add_speaker (Script_Engine.mk_allocations true true false)
    "A" (replicate 512 3) [] (Script_Engine.constructor 0) = ([], Throw bad_alloc).
Proof.
  apply (add_speaker_other_allocation_failures
           (Script_Engine.mk_allocations true true false)
           "A" (replicate 512 3) [] (Script_Engine.constructor 0)).
  - vm_compute. discriminate.
  - reflexivity.
  - right. reflexivity.
Defined.

(** ** Audio segments *)

(** C10. Two segments compare equal exactly when their timestamps are equal:
    the owned samples, the midpoint and the size play no part. *)
Theorem segment_equality_is_timestamp_equality :
  (∀ a b : Audio_Segment.t,
     Audio_Segment.equal a b = true
     ↔ Audio_Segment.timestamp a = Audio_Segment.timestamp b)
  ∧ (∀ audio midpoint size audio' midpoint' size' ts,
       Audio_Segment.equal (Audio_Segment.mk audio midpoint ts size)
         (Audio_Segment.mk audio' midpoint' ts size') = true)
  ∧ (∀ audio midpoint size ts ts', ts ≠ ts' →
       Audio_Segment.equal (Audio_Segment.mk audio midpoint ts size)
         (Audio_Segment.mk audio midpoint ts' size) = false).
Proof.
  unfold Audio_Segment.equal. split; [|split]; simpl.
  - intros a b. apply Z.eqb_eq.
  - intros. apply Z.eqb_refl.
  - intros. by apply Z.eqb_neq.
Qed.

(** *** The midpoint of a segment *)

Section midpoint.
Import Audio_Segment.

Lemma constructor_midpoint_ok sz now h :
  ∃ s h', constructor sz now h = Ok (s, h') ∧ midpoint_ok s ∧ size s = sz.
Proof.
  eexists _, _. split; [reflexivity|]. split; [|done].
  eexists. split; [reflexivity|]. simpl. by rewrite Z.add_0_l.
Qed.

Lemma lazy_initialize_midpoint_ok sz now s h :
  sz ≠ 0 →
  ∃ s' h', lazy_initialize sz now s h = Ok (s', h') ∧ midpoint_ok s' ∧ size s' = sz.
Proof.
  intros Hsz. unfold lazy_initialize.
  rewrite (proj2 (Z.eqb_neq sz 0) Hsz).
  unfold mbind, M_bind, make_unique, release, mret, M_ret; simpl.
  destruct (audio s); simpl; eexists _, _; (split; [reflexivity|]);
    (split; [|done]); eexists; (split; [reflexivity|]); simpl; by rewrite Z.add_0_l.
Qed.

Lemma reset_audio_midpoint_ok s h :
  ∃ s' h', reset_audio s h = Ok (s', h') ∧ midpoint_ok s' ∧ size s' = size s.
Proof.
  unfold reset_audio, mbind, M_bind, make_unique, release, mret, M_ret; simpl.
  destruct (audio s); simpl; eexists _, _; (split; [reflexivity|]);
    (split; [|done]); eexists; (split; [reflexivity|]); simpl; by rewrite Z.add_0_l.
Qed.

Lemma copy_constructor_midpoint_ok other h s' h' :
  copy_constructor other h = Ok (s', h') → midpoint_ok s' ∧ size s' = size other.
Proof.
  unfold copy_constructor, mbind, M_bind, make_unique; simpl.
  destruct (std_copy _ _ _ _) as [[[] h'']| | |]; try done.
  unfold mret, M_ret. intros [= <- <-]. split; [|done].
  eexists. split; [reflexivity|]. simpl. by rewrite Z.add_0_l.
Qed.

(** The copy constructor of a segment that owns a live array of [size]
    samples returns, and the copy owns an equal array of its own. *)
Lemma copy_constructor_copies other h b data :
  heap_wf h →
  audio other = Some b →
  Heap.blocks h !! b = Some data →
  Z.of_nat (length data) = size other →
  ∃ s' h',
    copy_constructor other h = Ok (s', h')
    ∧ midpoint_ok s'
    ∧ audio s' ≠ audio other
    ∧ samples s' h' = Some data
    ∧ timestamp s' = timestamp other
    ∧ size s' = size other.
Proof.
  intros Hwf Haudio Hb Hlen.
  assert (Hfresh : Heap.blocks h !! Heap.next h = None) by (by apply Hwf).
  assert (Hne : Heap.next h ≠ b) by (intros Heq; rewrite Heq in Hfresh; congruence).
  unfold copy_constructor, mbind, M_bind, make_unique, std_copy, Heap.alloc.
  unfold get_audio. rewrite Haudio.
  destruct (Z.eqb_spec (size other) 0) as [Hz|Hnz].
  - (* an empty range: nothing is copied *)
    assert (data = []) as -> by (apply nil_length_inv; lia).
    eexists _, _. split; [reflexivity|].
    split; [eexists; split; [reflexivity|]; simpl; by rewrite Z.add_0_l|].
    split; [simpl; congruence|].
    split; [|done].
    unfold samples, get_audio, Heap.load; simpl.
    rewrite lookup_insert_eq; simpl. by rewrite Hz.
  - unfold memcpy, Heap.load, Heap.store; simpl.
    rewrite lookup_insert_ne by done. rewrite Hb; simpl.
    rewrite bool_decide_eq_true_2 by lia. simpl.
    rewrite lookup_insert_eq; simpl.
    assert (Htake : take (Z.to_nat (size other)) data = data)
      by (apply firstn_all2; lia).
    change (Z.to_nat 0) with 0%nat. rewrite drop_0, Htake.
    rewrite bool_decide_eq_true_2 by (rewrite length_replicate; lia).
    eexists _, _. split; [reflexivity|].
    split; [eexists; split; [reflexivity|]; simpl; by rewrite Z.add_0_l|].
    split; [simpl; congruence|].
    split; [|done].
    unfold samples, get_audio, Heap.load; simpl.
    rewrite lookup_insert_eq; simpl.
    rewrite drop_ge by (rewrite length_replicate; lia).
    rewrite app_nil_r.
    rewrite bool_decide_eq_true_2 by lia.
    change (Z.to_nat 0) with 0%nat. by rewrite drop_0, Htake.
Qed.

(** Assignment between two segments that own different arrays leaves the
    target's midpoint outside the array it now owns. *)
Lemma move_assign_breaks_midpoint this other :
  midpoint_ok this → midpoint_ok other → audio this ≠ audio other →
  ¬ midpoint_ok (move_assign this other).1.
Proof.
  intros (b1 & Ha1 & Hm1) (b2 & Ha2 & Hm2) Hne (b & Ha & Hm).
  simpl in *. congruence.
Qed.

Lemma move_constructor_midpoint_ok other :
  midpoint_ok other → midpoint_ok (move_constructor other).1.
Proof. intros (b & Ha & Hm). exists b. by simpl. Qed.

End midpoint.

(** C4. The midpoint does not follow the array through an assignment:
    [swap] exchanges [audio], [timestamp] and [size] and leaves [midpoint]
    where it was. After [a = std::move(b)] the midpoint of [a] points into
    the array [b] now owns; after [a = b] it points into the array the
    temporary has freed; and the slot a segment is pushed into keeps a
    midpoint into the array of the destroyed parameter. *)
Theorem assignment_leaves_midpoint_behind :
  let two : M (Audio_Segment.t * Audio_Segment.t) :=
    a ← Audio_Segment.constructor 4 10;
    b ← Audio_Segment.constructor 4 20;
    mret (a, b) in
  match ('(a, b) ← two; mret (a, b, Audio_Segment.move_assign a b)) Heap.empty with
  | Ok ((a, b, (a', b')), h) =>
      Audio_Segment.midpoint_okb a = true
      ∧ Audio_Segment.midpoint_okb b = true
      ∧ a' = Audio_Segment.mk (Some 1%nat) (Ptr 0 2) 20 4
      ∧ Audio_Segment.audio b' = Some 0%nat
      ∧ Audio_Segment.midpoint_okb a' = false
  | _ => False
  end
  ∧ match ('(a, b) ← two; Audio_Segment.copy_assign a b) Heap.empty with
    | Ok (a', h) =>
        a' = Audio_Segment.mk (Some 2%nat) (Ptr 0 2) 20 4
        ∧ live (Audio_Segment.get_audio a') h = true
        ∧ live (Audio_Segment.midpoint a') h = false
        ∧ Audio_Segment.midpoint_okb a' = false
    | _ => False
    end
  ∧ match (a ← Audio_Segment.constructor 4 10;
           Audio_Ring_Buffer.push AUDIO_BUFFER_SIZE 30 a
             (Audio_Ring_Buffer.init AUDIO_BUFFER_SIZE 0)) Heap.empty with
    | Ok ((rb, _), h) =>
        let slot := Ring_Buffer.buffer rb !!! 0%nat in
        slot = Audio_Segment.mk (Some 0%nat) (Ptr 1 2) 10 4
        ∧ live (Audio_Segment.get_audio slot) h = true
        ∧ live (Audio_Segment.midpoint slot) h = false
        ∧ Audio_Segment.midpoint_okb slot = false
    | _ => False
    end.
Proof. vm_compute. repeat split; reflexivity. Qed.

(** ** The stitching stage *)

(** Any list is the table of its elements; over tables of a known length
    the stitcher runs by computation, whatever the samples are. *)
Lemma list_tabulate (l : list Z) (n : nat) :
  length l = n → l = (λ i, l !!! i) <$> seq 0 n.
Proof.
  intros <-. apply list_eq; intros i.
  rewrite list_lookup_fmap.
  destruct (decide (i < length l)%nat) as [Hlt|Hge].
  - rewrite lookup_seq_lt by done. simpl.
    by rewrite (list_lookup_lookup_total_lt l i).
  - rewrite lookup_seq_ge by lia. simpl. apply lookup_ge_None. lia.
Qed.

Lemma stitch_one_tabulated (a : nat → Z) (t0 tstart : Z) :
  Scenario.stitch [(a <$> seq 0 400, t0)] tstart = Ok ([], tstart).
Proof. vm_compute. reflexivity. Qed.

Lemma stitch_three_tabulated (a b c : nat → Z) (t0 t1 t2 tstart : Z) :
  Scenario.stitch
    [(a <$> seq 0 400, t0); (b <$> seq 0 400, t1); (c <$> seq 0 400, t2)] tstart
  = Ok ([(Some ((a <$> seq 0 400) ++ (b <$> seq 0 400)), tstart);
         (Some ((b <$> seq 0 400) ++ (c <$> seq 0 400)), t1)], t2).
Proof. vm_compute. reflexivity. Qed.

(** What the stitcher does with any three half-windows: the two windows are
    the spliced halves, the second is stamped with the second half-window's
    timestamp, and the first is stamped with the time the thread started. *)
Lemma stitch_three (A B C : list Z) (t0 t1 t2 tstart : Z) :
  Z.of_nat (length A) = SAMPLES_PER_HALF_SEGMENT →
  Z.of_nat (length B) = SAMPLES_PER_HALF_SEGMENT →
  Z.of_nat (length C) = SAMPLES_PER_HALF_SEGMENT →
  Scenario.stitch [(A, t0); (B, t1); (C, t2)] tstart
  = Ok ([(Some (A ++ B), tstart); (Some (B ++ C), t1)], t2).
Proof.
  intros HA HB HC.
  rewrite (list_tabulate A 400), (list_tabulate B 400), (list_tabulate C 400)
    by (apply Nat2Z.inj; by rewrite ?HA, ?HB, ?HC).
  apply stitch_three_tabulated.
Qed.

(** After the first half-window nothing is emitted, and [last_timestamp] is
    still the time the thread started. *)
Lemma stitch_one (A : list Z) (t0 tstart : Z) :
  Z.of_nat (length A) = SAMPLES_PER_HALF_SEGMENT →
  Scenario.stitch [(A, t0)] tstart = Ok ([], tstart).
Proof.
  intros HA.
  rewrite (list_tabulate A 400) by (apply Nat2Z.inj; by rewrite HA).
  apply stitch_one_tabulated.
Qed.

(** C1. The stitcher run on the half-windows A@100, B@200, C@300 by a thread
    started at time 7: after A nothing is emitted and [last_timestamp] is 7,
    not 100; after all three the windows are [A|B] stamped 7 and [B|C]
    stamped 200. The first window carries the thread's start time instead of
    the timestamp of A. *)
Theorem first_window_stamped_with_thread_start :
  let A := replicate 400 1 in
  let B := replicate 400 2 in
  let C := replicate 400 3 in
  Scenario.stitch [(A, 100)] 7 = Ok ([], 7)
  ∧ Scenario.stitch [(A, 100); (B, 200); (C, 300)] 7
    = Ok ([(Some (A ++ B), 7); (Some (B ++ C), 200)], 300)
  ∧ Scenario.stitch [(A, 100); (B, 200); (C, 300)] 7
    ≠ Ok ([(Some (A ++ B), 100); (Some (B ++ C), 200)], 300).
Proof.
  intros A B C. split; [|split].
  - by apply stitch_one.
  - by apply stitch_three.
  - rewrite stitch_three by done. intros [=].
Qed.

(** ** The capture stage *)

(** The backend never returns a failure status: it returns SUCCESS or throws. *)
Lemma start_stream_returns_only_success r status :
  Audio_tsrt.start_stream r = Ok status → status = SUCCESS.
Proof. unfold Audio_tsrt.start_stream. case_match; [done|]. by intros [= <-]. Qed.

Lemma stop_stream_returns_only_success r status :
  Audio_tsrt.stop_stream r = Ok status → status = SUCCESS.
Proof. unfold Audio_tsrt.stop_stream. case_match; [done|]. by intros [= <-]. Qed.

Lemma read_audio_segment_returns_only_success r frames p n h status h' :
  Audio_tsrt.read_audio_segment r frames p n h = Ok (status, h') → status = SUCCESS.
Proof.
  unfold Audio_tsrt.read_audio_segment. case_match; [done|].
  repeat case_match; try done. by intros [= <- <-].
Qed.

(** A failure to start the stream ends the pass with the backend's
    exception, whatever [err_on_last_iteration] holds. *)
Lemma start_failure_throws o s h :
  Script_Engine.is_running (Recording.engine s) = true →
  Script_Engine.is_recording (Recording.engine s) = true →
  Recording.is_streaming o = false →
  Audio_tsrt.paStatus (Recording.start_result o) ≠ Audio_tsrt.paNoError →
  Recording.pass o s h
  = Throw (Tsrt_Exception RUNTIME_ERROR
             (Audio_tsrt.paErrorText (Recording.start_result o))).
Proof.
  intros Hrun Hrec Hstr Hfail.
  unfold Recording.pass, Recording.pass_on. rewrite Hrun, Hrec; simpl.
  assert (Recording.outer_body_on (Recording.audio_tsrt o) o s h
          = Throw (Tsrt_Exception RUNTIME_ERROR
             (Audio_tsrt.paErrorText (Recording.start_result o)))) as Hbody.
  { unfold Recording.outer_body_on. rewrite Hstr; simpl.
    unfold Audio_tsrt.start_stream.
    rewrite (proj2 (Z.eqb_neq _ _) Hfail); simpl. done. }
  by destruct (Recording.at_loop s).
Qed.

(** X26. A failure to stop the stream ends the capture thread at once: with
    the engine running and not recording and the stream active, the pass
    throws the backend's RUNTIME_ERROR with PortAudio's text, whatever
    [err_on_last_iteration] holds. *)
Lemma stop_failure_throws o s h :
  Script_Engine.is_running (Recording.engine s) = true →
  Script_Engine.is_recording (Recording.engine s) = false →
  Recording.is_streaming o = true →
  Audio_tsrt.paStatus (Recording.stop_result o) ≠ Audio_tsrt.paNoError →
  Recording.pass o s h
  = Throw (Tsrt_Exception RUNTIME_ERROR
             (Audio_tsrt.paErrorText (Recording.stop_result o))).
Proof.
  intros Hrun Hrec Hstr Hfail.
  unfold Recording.pass, Recording.pass_on. rewrite Hrun, Hrec; simpl.
  assert (Recording.inner_body_on (Recording.audio_tsrt o) o s h
          = Throw (Tsrt_Exception RUNTIME_ERROR
             (Audio_tsrt.paErrorText (Recording.stop_result o)))) as Hbody.
  { unfold Recording.inner_body_on. rewrite Hstr; simpl.
    unfold Audio_tsrt.stop_stream.
    rewrite (proj2 (Z.eqb_neq _ _) Hfail); simpl. done. }
  by destruct (Recording.at_loop s).
Qed.

Lemma stop_failure_throws_witness :
  Recording.pass
    (Recording.mk_observation true
       (Audio_tsrt.mk_PaResult (-9988) "Stream is stopped")
       (Audio_tsrt.mk_PaResult 0 "Success") (Audio_tsrt.mk_PaResult 0 "Success") [] 1)
    (Recording.mk AtInnerLoop false (Audio_Segment.default_constructor 0)
       (Audio_Ring_Buffer.init AUDIO_BUFFER_SIZE 0)
       (Script_Engine.start_engine (Script_Engine.constructor 0)) [])
    Heap.empty
  = Throw (Tsrt_Exception RUNTIME_ERROR "Stream is stopped").
Proof.
  apply (stop_failure_throws
           (Recording.mk_observation true
              (Audio_tsrt.mk_PaResult (-9988) "Stream is stopped")
              (Audio_tsrt.mk_PaResult 0 "Success") (Audio_tsrt.mk_PaResult 0 "Success")
              [] 1)
           (Recording.mk AtInnerLoop false (Audio_Segment.default_constructor 0)
              (Audio_Ring_Buffer.init AUDIO_BUFFER_SIZE 0)
              (Script_Engine.start_engine (Script_Engine.constructor 0)) [])
           Heap.empty).
  - reflexivity.
  - reflexivity.
  - reflexivity.
  - discriminate.
Defined.

(** X27. A failure to read ends the capture thread at once: with the engine
    running and recording and the stream active, the pass throws the
    backend's IO_ERROR with PortAudio's text, whatever
    [err_on_last_iteration] holds. *)
Lemma read_failure_throws o s h :
  Script_Engine.is_running (Recording.engine s) = true →
  Script_Engine.is_recording (Recording.engine s) = true →
  Recording.is_streaming o = true →
  Audio_tsrt.paStatus (Recording.read_result o) ≠ Audio_tsrt.paNoError →
  Recording.pass o s h
  = Throw (Tsrt_Exception IO_ERROR
             (Audio_tsrt.paErrorText (Recording.read_result o))).
Proof.
  intros Hrun Hrec Hstr Hfail.
  unfold Recording.pass, Recording.pass_on. rewrite Hrun, Hrec; simpl.
  assert (Recording.outer_body_on (Recording.audio_tsrt o) o s h
          = Throw (Tsrt_Exception IO_ERROR
             (Audio_tsrt.paErrorText (Recording.read_result o)))) as Hbody.
  { unfold Recording.outer_body_on. rewrite Hstr; simpl.
    unfold Audio_tsrt.read_audio_segment.
    rewrite (proj2 (Z.eqb_neq _ _) Hfail); simpl. done. }
  by destruct (Recording.at_loop s).
Qed.

Lemma read_failure_throws_witness :
  Recording.pass
    (Recording.mk_observation true
       (Audio_tsrt.mk_PaResult 0 "Success") (Audio_tsrt.mk_PaResult 0 "Success")
       (Audio_tsrt.mk_PaResult (-9981) "Input overflowed") [] 1)
    (Recording.mk AtOuterLoop true (Audio_Segment.default_constructor 0)
       (Audio_Ring_Buffer.init AUDIO_BUFFER_SIZE 0)
       (Scenario.engine_recording 0) [])
    Heap.empty
  = Throw (Tsrt_Exception IO_ERROR "Input overflowed").
Proof.
  apply (read_failure_throws
           (Recording.mk_observation true
              (Audio_tsrt.mk_PaResult 0 "Success") (Audio_tsrt.mk_PaResult 0 "Success")
              (Audio_tsrt.mk_PaResult (-9981) "Input overflowed") [] 1)
           (Recording.mk AtOuterLoop true (Audio_Segment.default_constructor 0)
              (Audio_Ring_Buffer.init AUDIO_BUFFER_SIZE 0)
              (Scenario.engine_recording 0) [])
           Heap.empty).
  - reflexivity.
  - reflexivity.
  - reflexivity.
  - discriminate.
Defined.

(** No pass of the capture loop ever logs, nor sets
    [err_on_last_iteration]: the log-and-retry branches need a failure status
    that the backend never returns. *)
Lemma inner_body_never_logs o s h s' h' :
  Recording.inner_body_on (Recording.audio_tsrt o) o s h
  = Ok (Recording.Next s', h') →
  Recording.log s' = Recording.log s
  ∧ Recording.err_on_last_iteration s' = Recording.err_on_last_iteration s.
Proof.
  unfold Recording.inner_body_on.
  destruct (Recording.is_streaming o); simpl; [|by intros [= <- <-]].
  unfold mbind, M_bind, lift.
  destruct (Audio_tsrt.stop_stream _) as [status| | |] eqn:Hstop; try done.
  apply stop_stream_returns_only_success in Hstop as ->. simpl.
  by intros [= <- <-].
Qed.

Lemma outer_body_never_logs o s h s' h' :
  Recording.outer_body_on (Recording.audio_tsrt o) o s h
  = Ok (Recording.Next s', h') →
  Recording.log s' = Recording.log s
  ∧ Recording.err_on_last_iteration s' = false.
Proof.
  unfold Recording.outer_body_on, mbind, M_bind. simpl.
  set (started := if negb (Recording.is_streaming o)
                  then lift (Audio_tsrt.start_stream (Recording.start_result o))
                  else mret SUCCESS).
  destruct (started h) as [[status h1]| | |] eqn:Hstart; try done.
  assert (status = SUCCESS) as ->.
  { unfold started in Hstart.
    destruct (Recording.is_streaming o); simpl in Hstart.
    - by injection Hstart as <- <-.
    - unfold lift in Hstart.
      destruct (Audio_tsrt.start_stream _) as [st| | |] eqn:Hs; try done.
      apply start_stream_returns_only_success in Hs as ->.
      by injection Hstart as <- <-. }
  simpl.
  destruct (Audio_tsrt.read_audio_segment _ _ _ _ h1)
    as [[status h2]| | |] eqn:Hread; try done.
  apply read_audio_segment_returns_only_success in Hread as ->. simpl.
  destruct (Audio_Ring_Buffer.push _ _ _ _ h2) as [[[rb seg] h3]| | |]; try done.
  destruct (noexcept _ h3) as [[seg' h4]| | |]; try done.
  by intros [= <- <-].
Qed.

(** X25. A pass of the capture loop that returns has logged nothing: the
    branches that log and retry need a failure status, and the backend throws
    instead of returning one. *)
Lemma pass_never_logs o s h s' h' :
  Recording.pass o s h = Ok (Recording.Next s', h') →
  Recording.log s' = Recording.log s.
Proof.
  unfold Recording.pass, Recording.pass_on. intros Hpass.
  repeat case_match; try done;
    first [ by apply inner_body_never_logs in Hpass as [? _]
          | by apply outer_body_never_logs in Hpass as [? _] ].
Qed.

Lemma pass_never_logs_witness :
  Recording.log
    (Recording.mk AtInnerLoop false (Audio_Segment.default_constructor 0)
       (Audio_Ring_Buffer.init AUDIO_BUFFER_SIZE 0)
       (Script_Engine.start_engine (Script_Engine.constructor 0))
       [(IO_ERROR, "Error stopping stream")])
  = [(IO_ERROR, "Error stopping stream")].
Proof.
  apply (pass_never_logs
           (Recording.mk_observation true
              (Audio_tsrt.mk_PaResult 0 "Success") (Audio_tsrt.mk_PaResult 0 "Success")
              (Audio_tsrt.mk_PaResult 0 "Success") [] 1)
           (Recording.mk AtOuterLoop false (Audio_Segment.default_constructor 0)
              (Audio_Ring_Buffer.init AUDIO_BUFFER_SIZE 0)
              (Script_Engine.start_engine (Script_Engine.constructor 0))
              [(IO_ERROR, "Error stopping stream")])
           Heap.empty _ Heap.empty).
  reflexivity.
Defined.

(** *** The policy written in the loop

    Over a backend that did return a failure status, the loop logs the first
    failure and retries, and throws on a failure that finds
    [err_on_last_iteration] set. The flag is one flag for the three calls; a
    completed capture clears it, a successful stop does not. *)

Section loop_policy.
Import Recording.
Variables (b : backend) (o : observation) (s : state) (h : Heap.t).

Lemma stop_status_handling status :
  is_streaming o = true → stop_stream b = Ok status →
  inner_body_on b o s h =
    if bool_decide (status = SUCCESS) then
      Ok (Next (mk AtInnerLoop (err_on_last_iteration s) (audio_segment s)
                  (shared_audio_ring_buffer s) (engine s) (log s)), h)
    else if err_on_last_iteration s then
      Throw (Tsrt_Exception IO_ERROR "Consecutive errors stopping stream")
    else
      Ok (Next (mk AtInnerLoop true (audio_segment s)
                  (shared_audio_ring_buffer s) (engine s)
                  (log_error IO_ERROR "Error stopping stream" (log s))), h).
Proof.
  intros Hstr Hstop. unfold inner_body_on, mbind, M_bind, lift.
  rewrite Hstr, Hstop. case_bool_decide; simpl; [done|].
  by destruct (err_on_last_iteration s).
Qed.

Lemma start_failure_status_handling status :
  is_streaming o = false → start_stream b = Ok status → status ≠ SUCCESS →
  outer_body_on b o s h =
    if err_on_last_iteration s then
      Throw (Tsrt_Exception IO_ERROR "Consecutive errors starting stream")
    else
      Ok (Next (mk AtOuterLoop true (audio_segment s)
                  (shared_audio_ring_buffer s) (engine s)
                  (log_error IO_ERROR "Error starting stream" (log s))), h).
Proof.
  intros Hstr Hstart Hfail. unfold outer_body_on, mbind, M_bind, lift.
  rewrite Hstr; simpl. rewrite Hstart. rewrite bool_decide_eq_false_2 by done.
  simpl. by destruct (err_on_last_iteration s).
Qed.

Lemma read_failure_status_handling status h' :
  is_streaming o = true →
  read_audio_segment b (Audio_Segment.get_audio (audio_segment s))
    SAMPLES_PER_HALF_SEGMENT h = Ok (status, h') →
  status ≠ SUCCESS →
  outer_body_on b o s h =
    if err_on_last_iteration s then
      Throw (Tsrt_Exception IO_ERROR "Consecutive errors reading audio segment")
    else
      Ok (Next (mk AtOuterLoop true (audio_segment s)
                  (shared_audio_ring_buffer s) (engine s)
                  (log_error IO_ERROR "Error reading audio segment" (log s))), h').
Proof.
  intros Hstr Hread Hfail. unfold outer_body_on, mbind, M_bind.
  rewrite Hstr; simpl. unfold mret at 1, M_ret at 1. simpl.
  rewrite Hread. rewrite bool_decide_eq_false_2 by done.
  simpl. by destruct (err_on_last_iteration s).
Qed.

Lemma completed_capture_clears_the_flag s' h' :
  outer_body_on b o s h = Ok (Next s', h') →
  log s' = log s → err_on_last_iteration s' = false.
Proof.
  unfold outer_body_on, mbind, M_bind.
  destruct ((if negb (is_streaming o) then lift (start_stream b) else mret SUCCESS) h)
    as [[started h1]| | |]; try done.
  case_bool_decide; simpl.
  2:{ destruct (err_on_last_iteration s); [done|].
      intros [= <- <-]; simpl. unfold log_error. intros Hlog.
      apply (f_equal length) in Hlog. rewrite length_app in Hlog. simpl in Hlog. lia. }
  destruct (read_audio_segment b _ _ h1) as [[status h2]| | |]; try done.
  case_bool_decide; simpl.
  2:{ destruct (err_on_last_iteration s); [done|].
      intros [= <- <-]; simpl. unfold log_error. intros Hlog.
      apply (f_equal length) in Hlog. rewrite length_app in Hlog. simpl in Hlog. lia. }
  destruct (Audio_Ring_Buffer.push _ _ _ _ h2) as [[[rb seg] h3]| | |]; try done.
  destruct (noexcept _ h3) as [[seg' h4]| | |]; try done.
  by intros [= <- <-].
Qed.

End loop_policy.

(** C6. The capture thread, started with the engine running and recording
    and the stream not yet active, meets one failure of [Pa_StartStream] in
    its first pass: the backend's exception leaves the thread at once;
    nothing is logged and nothing is retried. *)
Theorem first_stream_failure_ends_capture :
  let o := Recording.mk_observation false
             (Audio_tsrt.mk_PaResult 0 "Success")
             (Audio_tsrt.mk_PaResult (-9999) "Unanticipated host error")
             (Audio_tsrt.mk_PaResult 0 "Success")
             (replicate 400 0) 1 in
  match Recording.init 0 (Audio_Ring_Buffer.init AUDIO_BUFFER_SIZE 0)
          (Scenario.engine_recording 0) [] Heap.empty with
  | Ok (s, h) =>
      Recording.err_on_last_iteration s = false
      ∧ Recording.log s = []
      ∧ Recording.pass o s h
        = Throw (Tsrt_Exception RUNTIME_ERROR "Unanticipated host error")
  | _ => False
  end.
Proof. vm_compute. repeat split; reflexivity. Qed.

(** ** The ring buffer: its indices, and runs of calls *)

(** X1. [wrap_index] always lands on a slot: for every positive Size that
    fits in [size_t], a power of two or not, the wrapped index is
    [index mod Size] and lies in [0, Size). *)
Theorem wrap_index_is_a_slot (Size index : Z) :
  0 < Size < size_t_modulus → 0 ≤ index →
  Ring_Buffer.wrap_index Size index = index mod Size
  ∧ 0 ≤ Ring_Buffer.wrap_index Size index < Size.
Proof.
  intros HS Hi. rewrite wrap_index_eq_mod by done.
  split; [done|]. apply Z.mod_pos_bound. lia.
Qed.

Lemma wrap_index_is_a_slot_witness :
  Ring_Buffer.wrap_index 12 29 = 29 mod 12
  ∧ 0 ≤ Ring_Buffer.wrap_index 12 29 < 12.
Proof. apply (wrap_index_is_a_slot 12 29); [split; reflexivity | lia]. Defined.

(** X2. [is_power_of_two] holds of exactly the powers of two that fit in
    [size_t]; zero is not one of them. *)
Theorem is_power_of_two_exactly (Size : Z) :
  0 ≤ Size < size_t_modulus →
  is_power_of_two Size = true ↔ ∃ k, 0 ≤ k < size_t_bits ∧ Size = 2 ^ k.
Proof.
  intros HS. split.
  - intros Hp.
    assert (0 < Size) as Hpos.
    { destruct (decide (Size = 0)) as [->|]; [done|lia]. }
    exists (Z.log2 Size). split; [|apply is_power_of_two_pow2; [lia|done]].
    split; [apply Z.log2_nonneg|].
    apply Z.log2_lt_pow2; [done|]. apply HS.
  - intros (k & Hk & ->). unfold is_power_of_two.
    assert (0 < 2 ^ k) by (apply Z.pow_pos_nonneg; lia).
    apply andb_true_iff. split.
    + apply negb_true_iff, Z.eqb_neq. lia.
    + apply Z.eqb_eq. rewrite size_t_sub_small by lia.
      rewrite Z.sub_1_r, <- Z.ones_equiv, Z.land_ones by lia.
      apply Z.mod_same. lia.
Qed.

Lemma is_power_of_two_exactly_witness :
  is_power_of_two 4096 = true ↔ ∃ k, 0 ≤ k < size_t_bits ∧ 4096 = 2 ^ k.
Proof. apply (is_power_of_two_exactly 4096). split; [lia | reflexivity]. Defined.

(** X3. The indices of the ring buffer never leave the array: after any
    sequence of pushes and pops on a fresh buffer the array still has Size
    slots, and [head] and [tail] both index into it. *)
Theorem reachable_indices_in_bounds `{Element T} (Size : Z) (rb : Ring_Buffer.t T) :
  0 < Size < size_t_modulus →
  Unread.reachable Size rb →
  Z.of_nat (length (Ring_Buffer.buffer rb)) = Size
  ∧ 0 ≤ Ring_Buffer.head rb < Z.of_nat (length (Ring_Buffer.buffer rb))
  ∧ 0 ≤ Ring_Buffer.tail rb < Z.of_nat (length (Ring_Buffer.buffer rb)).
Proof.
  intros HS Hr. destruct (reachable_wf Size HS rb Hr) as (Hlen & Hh & Ht).
  rewrite Hlen. lia.
Qed.

Lemma reachable_indices_in_bounds_witness :
  let rb := (Ring_Buffer.pop 16 (Ring_Buffer.push_all 16 (seqZ 0 40) (Ring_Buffer.init 16))).2 in
  Z.of_nat (length (Ring_Buffer.buffer rb)) = 16
  ∧ 0 ≤ Ring_Buffer.head rb < Z.of_nat (length (Ring_Buffer.buffer rb))
  ∧ 0 ≤ Ring_Buffer.tail rb < Z.of_nat (length (Ring_Buffer.buffer rb)).
Proof.
  apply (reachable_indices_in_bounds 16
    (Ring_Buffer.pop 16 (Ring_Buffer.push_all 16 (seqZ 0 40) (Ring_Buffer.init 16))).2).
  - split; reflexivity.
  - apply Unread.reachable_pop, reachable_push_all, Unread.reachable_init.
Defined.

Lemma clear_wf `{Element T} (Size : Z) (rb : Ring_Buffer.t T) :
  0 < Size → Unread.wf Size rb → Unread.wf Size (Ring_Buffer.clear rb).
Proof. intros HS (Hlen & _ & _). unfold Unread.wf; simpl. lia. Qed.

Lemma clear_contents `{Element T} (Size : Z) (rb : Ring_Buffer.t T) :
  Unread.contents Size (Ring_Buffer.clear rb) = [].
Proof. unfold Unread.contents, Unread.count; simpl. done. Qed.

Lemma run_refines_queue_from `{Element T} (Size : Z) (calls : list (Run.call T))
    (rb : Ring_Buffer.t T) :
  0 < Size < size_t_modulus → Unread.wf Size rb →
  (Run.run Size calls rb).1
  = (Run.queue (Z.to_nat (Size - 1)) calls (Unread.contents Size rb)).1
  ∧ Unread.contents Size (Run.run Size calls rb).2
    = (Run.queue (Z.to_nat (Size - 1)) calls (Unread.contents Size rb)).2.
Proof.
  intros HS. revert rb. induction calls as [|[v| |] calls IH]; intros rb Hwf; simpl.
  - done.
  - rewrite <- (push_contents Size HS v rb Hwf). apply IH. by apply push_wf.
  - destruct (pop_contents Size HS rb Hwf) as [Hv Hrest].
    pose proof (pop_wf Size HS rb Hwf) as Hwf'.
    destruct (Ring_Buffer.pop Size rb) as [r rb'] eqn:Hpop; simpl in *.
    specialize (IH rb' Hwf'). rewrite Hrest in IH.
    destruct (Run.run Size calls rb') as [rs rb''].
    destruct (Run.queue _ calls _) as [qs q']. simpl in *.
    destruct IH as [-> ->]. by rewrite Hv.
  - rewrite <- (clear_contents Size rb). apply IH. apply clear_wf; [lia|done].
Qed.

Lemma queue_of_nothing {T} (calls : list (Run.call T)) :
  Forall (λ r, r = None) (Run.queue 0 calls []).1.
Proof.
  induction calls as [|[v| |] calls IH]; simpl; try done.
  destruct (Run.queue 0 calls []) as [rs q]. simpl in *. by constructor.
Qed.

(** X5. With the template's default Size of 1 the buffer holds nothing:
    whatever is pushed, every pop returns [std::nullopt]. *)
Theorem default_size_holds_nothing `{Element T} (calls : list (Run.call T)) :
  Forall (λ r, r = None) (Run.run 1 calls (Ring_Buffer.init 1)).1.
Proof.
  assert (HS : 0 < 1 < size_t_modulus) by (split; reflexivity).
  destruct (run_refines_queue_from 1 calls (Ring_Buffer.init 1) HS
              (init_wf 1 HS)) as [-> _].
  rewrite init_contents by done. apply queue_of_nothing.
Qed.

(** ** The script engine over runs of calls *)

Section engine_calls.
Import Engine_Calls.

Lemma enable_keeps_or_sets f g e :
  enabled g e = true → enabled g (enable f e).2 = true.
Proof.
  destruct e as [d r i m run rec sp ab], f, g; simpl;
    cbv [Script_Engine.enable_speaker_diarization
         Script_Engine.enable_speech_recognition
         Script_Engine.enable_speaker_identification
         Script_Engine.enable_emotion_recognition
         Script_Engine.speaker_diarization_enabled
         Script_Engine.speech_recognition_enabled
         Script_Engine.speaker_identification_enabled
         Script_Engine.emotion_recognition_enabled]; simpl;
    intros ->; repeat case_match; simpl; done.
Qed.

Lemma add_speaker_touches_only_speakers a n emb log e st e' :
  (Script_Engine.add_speaker a n emb log e).2 = Ok (st, e') →
  ∃ l, e' = Script_Engine.set_speakers l e.
Proof.
  unfold Script_Engine.add_speaker. intros Hadd.
  destruct (Script_Engine.reserve_ok a); simpl in Hadd.
  2:{ injection Hadd as _ <-. exists (Script_Engine.speakers e). by destruct e. }
  repeat case_match; simpl in *; try done.
  injection Hadd as _ <-. by eexists.
Qed.

Lemma apply_keeps_enabled c g e e' :
  apply c e = Some e' → enabled g e = true → enabled g e' = true.
Proof.
  intros Happ Hg. destruct c as [| | | |f|a n emb|n]; simpl in Happ.
  1-4,7: injection Happ as <-; by destruct e, g.
  - injection Happ as <-. by apply enable_keeps_or_sets.
  - destruct (Script_Engine.add_speaker a n emb [] e).2 as [[st e1]| | |] eqn:Hadd;
      try done; injection Happ as <-; [|done].
    apply add_speaker_touches_only_speakers in Hadd as [l ->]. by destruct e, g.
Qed.

End engine_calls.

(** X6. No call on the engine clears a feature flag: a feature that is
    enabled is still enabled after any run of starts, stops, enables and
    speaker changes that returns. *)
Theorem feature_flags_are_never_cleared (calls : list Engine_Calls.call)
    (f : Engine_Calls.feature) (e e' : Script_Engine.t) :
  Engine_Calls.run calls e = Some e' →
  Engine_Calls.enabled f e = true →
  Engine_Calls.enabled f e' = true.
Proof.
  revert e. induction calls as [|c calls IH]; intros e Hrun He; simpl in Hrun.
  { by injection Hrun as <-. }
  destruct (Engine_Calls.apply c e) as [e1|] eqn:Happ; [|done]. simpl in Hrun.
  apply (IH e1 Hrun). by apply (apply_keeps_enabled c f e e1).
Qed.

Lemma feature_flags_are_never_cleared_witness :
  Engine_Calls.enabled Engine_Calls.Speech_recognition
    (Script_Engine.stop_recording
       (Script_Engine.remove_speaker "A"
          (Script_Engine.stop_engine
             (Script_Engine.start_engine
                (Engine_Calls.enable Engine_Calls.Speech_recognition
                   (Script_Engine.constructor 0)).2)))) = true.
Proof.
  apply (feature_flags_are_never_cleared
    [Engine_Calls.Start_engine; Engine_Calls.Stop_engine;
     Engine_Calls.Enable Engine_Calls.Speech_recognition;
     Engine_Calls.Remove_speaker "A"; Engine_Calls.Stop_recording]
    Engine_Calls.Speech_recognition
    (Engine_Calls.enable Engine_Calls.Speech_recognition
       (Script_Engine.constructor 0)).2).
  - reflexivity.
  - reflexivity.
Defined.

Lemma apply_while_running c e e' :
  c ≠ Engine_Calls.Stop_engine →
  Engine_Calls.apply c e = Some e' →
  Script_Engine.is_running e = true →
  Script_Engine.is_running e' = true
  ∧ ∀ f, Engine_Calls.enabled f e' = Engine_Calls.enabled f e.
Proof.
  intros Hc Happ Hrun. destruct c as [| | | |f|a n emb|n]; simpl in Happ; try done.
  1-3,6: injection Happ as <-; by (split; [|intros f]; destruct e; try destruct f).
  - injection Happ as <-.
    destruct e as [d r i m run rec sp ab]. simpl in Hrun. subst run.
    split; [|intros g]; destruct f; try destruct g;
      cbv [Engine_Calls.enable Engine_Calls.enabled
           Script_Engine.enable_speaker_diarization
           Script_Engine.enable_speech_recognition
           Script_Engine.enable_speaker_identification
           Script_Engine.enable_emotion_recognition]; simpl;
      by rewrite orb_true_r.
  - destruct (Script_Engine.add_speaker a n emb [] e).2 as [[st e1]| | |] eqn:Hadd;
      try done; injection Happ as <-; [|done].
    apply add_speaker_touches_only_speakers in Hadd as [l ->].
    split; [|intros f]; destruct e; try destruct f; done.
Qed.

(** X7. While the engine runs the feature flags are frozen: as long as
    [stop_engine] is not called, the engine stays running and every flag
    keeps its value, whatever else is called. *)
Theorem feature_flags_are_frozen_while_running (calls : list Engine_Calls.call)
    (e e' : Script_Engine.t) :
  Engine_Calls.run calls e = Some e' →
  Script_Engine.is_running e = true →
  Engine_Calls.Stop_engine ∉ calls →
  Script_Engine.is_running e' = true
  ∧ ∀ f, Engine_Calls.enabled f e' = Engine_Calls.enabled f e.
Proof.
  revert e. induction calls as [|c calls IH]; intros e Hcalls Hrun Hno;
    simpl in Hcalls.
  { by injection Hcalls as <-. }
  apply not_elem_of_cons in Hno as [Hc Hno].
  destruct (Engine_Calls.apply c e) as [e1|] eqn:Happ; [|done]. simpl in Hcalls.
  destruct (apply_while_running c e e1) as [Hrun' Hflags]; [done..|].
  destruct (IH e1 Hcalls Hrun' Hno) as [Hrun'' Hflags'].
  split; [done|]. intros f. by rewrite Hflags', Hflags.
Qed.

Lemma feature_flags_are_frozen_while_running_witness :
  let e := Script_Engine.start_engine (Script_Engine.constructor 0) in
  let e' := Script_Engine.start_engine (Script_Engine.start_recording e) in
  Script_Engine.is_running e' = true
  ∧ ∀ f, Engine_Calls.enabled f e' = Engine_Calls.enabled f e.
Proof.
  apply (feature_flags_are_frozen_while_running
    [Engine_Calls.Enable Engine_Calls.Emotion_recognition;
     Engine_Calls.Start_recording;
     Engine_Calls.Enable Engine_Calls.Speaker_diarization;
     Engine_Calls.Start_engine]
    (Script_Engine.start_engine (Script_Engine.constructor 0))).
  - reflexivity.
  - reflexivity.
  - intros Hin. repeat (apply elem_of_cons in Hin as [Hin|Hin]; [discriminate|]).
    by apply elem_of_nil in Hin.
Defined.

(** *** Speakers *)

Lemma equal_false_iff (p : Speaker_ID.t) (n : string) :
  Speaker_ID.equal p n = false ↔ Speaker_ID.name p ≠ n.
Proof. unfold Speaker_ID.equal. by rewrite bool_decide_eq_false. Qed.

Lemma filter_keeps_all {A} (P : A → Prop) `{!∀ x, Decision (P x)} (l : list A) :
  Forall P l → filter P l = l.
Proof.
  induction 1 as [|x l Hx Hl IH]; [done|].
  rewrite filter_cons, decide_True by done. by rewrite IH.
Qed.

Lemma set_speakers_same (e : Script_Engine.t) :
  Script_Engine.set_speakers (Script_Engine.speakers e) e = e.
Proof. by destruct e. Qed.

Lemma remove_speaker_absent (n : string) (e : Script_Engine.t) :
  Forall (λ p, Speaker_ID.name p ≠ n) (Script_Engine.speakers e) →
  Script_Engine.remove_speaker n e = e.
Proof.
  intros Hall. unfold Script_Engine.remove_speaker.
  rewrite filter_keeps_all; [apply set_speakers_same|].
  eapply Forall_impl; [done|]. intros p. apply equal_false_iff.
Qed.

Lemma remove_speaker_gone (n : string) (e : Script_Engine.t) :
  Forall (λ p, Speaker_ID.name p ≠ n)
    (Script_Engine.speakers (Script_Engine.remove_speaker n e)).
Proof.
  destruct e; simpl. apply Forall_forall. intros p [Hp _]%list_elem_of_filter.
  by apply equal_false_iff.
Qed.

Lemma add_speaker_succeeds (a : Script_Engine.allocations)
    (n : string) (embedding : list Z) (log : list log_entry) (e : Script_Engine.t) :
  VOCAL_EMBEDDINGS_SIZE ≤ Z.of_nat (length embedding) →
  Script_Engine.reserve_ok a = true →
  Script_Engine.embedding_copy_ok a = true →
  Script_Engine.push_back_ok a = true →
  Script_Engine.add_speaker a n embedding log e
  = (log, Ok (SUCCESS,
        Script_Engine.set_speakers
          (Script_Engine.speakers e
           ++ [Speaker_ID.mk n
                 (Some (take (Z.to_nat VOCAL_EMBEDDINGS_SIZE) embedding)) None]) e)).
Proof.
  intros Hlen Hr Hc Hp. unfold Script_Engine.add_speaker.
  rewrite Hr, Hc; simpl. rewrite bool_decide_eq_true_2 by done. simpl.
  unfold Speaker_ID.copy_constructor; simpl. rewrite Hp; simpl.
  assert (Z.of_nat (length (take (Z.to_nat VOCAL_EMBEDDINGS_SIZE) embedding))
          = VOCAL_EMBEDDINGS_SIZE) as Hcopy.
  { rewrite length_take. unfold VOCAL_EMBEDDINGS_SIZE in *. lia. }
  rewrite bool_decide_eq_true_2 by (rewrite Hcopy; done).
  rewrite (firstn_all2 (take _ _)); [done|]. lia.
Qed.

(** X8. [remove_speaker] erases every profile of the given name and nothing
    else: the collection afterwards is the old one, in its order, without the
    profiles of that name, and the rest of the engine is as it was. A name
    that is absent changes nothing, and removing twice is removing once. *)
Theorem remove_speaker_removes_every_match (n : string) (e : Script_Engine.t) :
  let e' := Script_Engine.remove_speaker n e in
  Script_Engine.get_speakers e'
  = filter (λ p, Speaker_ID.name p ≠ n) (Script_Engine.get_speakers e)
  ∧ Forall (λ p, Speaker_ID.name p ≠ n) (Script_Engine.get_speakers e')
  ∧ Script_Engine.get_speakers e' `sublist_of` Script_Engine.get_speakers e
  ∧ (∀ p, p ∈ Script_Engine.get_speakers e → Speaker_ID.name p ≠ n →
       p ∈ Script_Engine.get_speakers e')
  ∧ (Forall (λ p, Speaker_ID.name p ≠ n) (Script_Engine.get_speakers e) → e' = e)
  ∧ Script_Engine.remove_speaker n e' = e'
  ∧ Script_Engine.is_running e' = Script_Engine.is_running e
  ∧ Script_Engine.is_recording e' = Script_Engine.is_recording e
  ∧ Script_Engine.audio_buffer e' = Script_Engine.audio_buffer e
  ∧ Forall (λ '(_, enabled), enabled e' = enabled e) Script_Engine.features.
Proof.
  intros e'. unfold e', Script_Engine.get_speakers.
  split.
  { destruct e; simpl. apply list_filter_iff. intros p. apply equal_false_iff. }
  split; [apply remove_speaker_gone|].
  split; [destruct e; apply sublist_filter|].
  split.
  { intros p Hp Hn. destruct e; simpl in *.
    apply list_elem_of_filter. split; [by apply equal_false_iff|done]. }
  split; [apply remove_speaker_absent|].
  split; [apply remove_speaker_absent, remove_speaker_gone|].
  destruct e. repeat split. unfold Script_Engine.features. repeat constructor.
Qed.

(** X9. [add_speaker] followed by [remove_speaker] of the same name: the
    addition appends one profile, and the removal leaves the engine as a
    removal without the addition would, which is the engine from before when
    no profile had that name. *)
Theorem add_speaker_then_remove_speaker (a : Script_Engine.allocations)
    (n : string) (embedding : list Z) (log : list log_entry) (e : Script_Engine.t) :
  VOCAL_EMBEDDINGS_SIZE ≤ Z.of_nat (length embedding) →
  Script_Engine.reserve_ok a = true →
  Script_Engine.embedding_copy_ok a = true →
  Script_Engine.push_back_ok a = true →
  ∃ e1,
    (Script_Engine.add_speaker a n embedding log e).2 = Ok (SUCCESS, e1)
    ∧ length (Script_Engine.get_speakers e1) = S (length (Script_Engine.get_speakers e))
    ∧ Script_Engine.remove_speaker n e1 = Script_Engine.remove_speaker n e
    ∧ (Forall (λ p, Speaker_ID.name p ≠ n) (Script_Engine.get_speakers e) →
       Script_Engine.remove_speaker n e1 = e).
Proof.
  intros Hlen Hr Hc Hp.
  rewrite (add_speaker_succeeds a n embedding log e Hlen Hr Hc Hp).
  eexists. split; [reflexivity|].
  assert (Hrm : Script_Engine.remove_speaker n
            (Script_Engine.set_speakers
               (Script_Engine.speakers e
                ++ [Speaker_ID.mk n
                      (Some (take (Z.to_nat VOCAL_EMBEDDINGS_SIZE) embedding)) None]) e)
          = Script_Engine.remove_speaker n e).
  { unfold Script_Engine.remove_speaker, Script_Engine.set_speakers.
    destruct e as [d r i m run rec sp ab]; simpl.
    f_equal. rewrite filter_app, filter_cons, decide_False.
    - by rewrite filter_nil, app_nil_r.
    - unfold Speaker_ID.equal; simpl. rewrite bool_decide_eq_true_2 by done.
      discriminate. }
  split; [destruct e; simpl; rewrite length_app; simpl; lia|].
  split; [done|].
  intros Hall. rewrite Hrm. by apply remove_speaker_absent.
Qed.

Lemma add_speaker_then_remove_speaker_witness :
  ∃ e1,
    (Script_Engine.add_speaker (Script_Engine.mk_allocations true true true)
       "A" (replicate 512 3) [] (Script_Engine.constructor 0)).2 = Ok (SUCCESS, e1)
    ∧ length (Script_Engine.get_speakers e1)
      = S (length (Script_Engine.get_speakers (Script_Engine.constructor 0)))
    ∧ Script_Engine.remove_speaker "A" e1
      = Script_Engine.remove_speaker "A" (Script_Engine.constructor 0)
    ∧ (Forall (λ p, Speaker_ID.name p ≠ "A")
         (Script_Engine.get_speakers (Script_Engine.constructor 0)) →
       Script_Engine.remove_speaker "A" e1 = Script_Engine.constructor 0).
Proof.
  apply (add_speaker_then_remove_speaker (Script_Engine.mk_allocations true true true)
           "A" (replicate 512 3) [] (Script_Engine.constructor 0)).
  - vm_compute. discriminate.
  - reflexivity.
  - reflexivity.
  - reflexivity.
Defined.

(** X10. The copy constructor of [Speaker_ID] copies the name and the
    embedding and leaves [vector_size] uninitialised, so that copying the copy
    allocates by an indeterminate size; the move constructor does carry the
    size over. *)
Theorem copied_profile_has_no_vector_size (ok ok' : bool) (p q : Speaker_ID.t) :
  Speaker_ID.copy_constructor ok p = Ok q →
  Speaker_ID.name q = Speaker_ID.name p
  ∧ Speaker_ID.vector_size q = None
  ∧ Speaker_ID.copy_constructor ok' q = Undefined
  ∧ Speaker_ID.vector_size (Speaker_ID.move_constructor p) = Speaker_ID.vector_size p.
Proof.
  intros Hcopy. split; [|split; [|split]]; [..|done].
  all: unfold Speaker_ID.copy_constructor in Hcopy.
  all: destruct (Speaker_ID.vector_size p) as [vs|]; [|done].
  all: destruct ok; simpl in Hcopy; [|done].
  all: destruct (Speaker_ID.vector p) as [data|]; [|done].
  all: case_bool_decide; [|done].
  all: by injection Hcopy as <-.
Qed.

Lemma copied_profile_has_no_vector_size_witness :
  let p := Speaker_ID.constructor "A" (Some [1; 2; 3]) 3 in
  let q := Speaker_ID.mk "A" (Some [1; 2; 3]) None in
  Speaker_ID.name q = Speaker_ID.name p
  ∧ Speaker_ID.vector_size q = None
  ∧ Speaker_ID.copy_constructor true q = Undefined
  ∧ Speaker_ID.vector_size (Speaker_ID.move_constructor p) = Speaker_ID.vector_size p.
Proof.
  apply (copied_profile_has_no_vector_size true true
           (Speaker_ID.constructor "A" (Some [1; 2; 3]) 3)
           (Speaker_ID.mk "A" (Some [1; 2; 3]) None)).
  reflexivity.
Defined.

(** *** Exceptions reaching [main] *)

(** X11. [handle_exception] looks the dynamic type of the exception up by
    its exact [type_index]: the six standard types of the table get their
    code and every other type gets UNKNOWN_ERROR, [Tsrt_Exception] included,
    whatever status code it carries. *)
Theorem handle_exception_matches_exact_types_only :
  (∀ status_code message,
     Exceptions.handle_exception (Tsrt_Exception status_code message) = UNKNOWN_ERROR)
  ∧ Exceptions.handle_exception bad_alloc = INSUFFICIENT_MEMORY
  ∧ Exceptions.handle_exception_of_type "std::ios_base::failure" = IO_ERROR
  ∧ Exceptions.handle_exception_of_type "std::runtime_error" = RUNTIME_ERROR
  ∧ Exceptions.handle_exception_of_type "std::out_of_range" = OUT_OF_RANGE_ERROR
  ∧ Exceptions.handle_exception_of_type "std::invalid_argument" = INVALID_ARGUMENT
  ∧ Exceptions.handle_exception_of_type "std::logic_error" = CONFIGURATION_ERROR
  ∧ (∀ type_name,
       type_name ∉ ["std::bad_alloc"; "std::ios_base::failure"; "std::runtime_error";
                    "std::out_of_range"; "std::invalid_argument"; "std::logic_error"] →
       Exceptions.handle_exception_of_type type_name = UNKNOWN_ERROR).
Proof.
  repeat split; try (by vm_compute).
  intros type_name Hnot. unfold Exceptions.handle_exception_of_type.
  assert (Exceptions.exception_status_code_map !! type_name = None) as ->; [|done].
  apply not_elem_of_list_to_map. done.
Qed.

(** ** Segments and the arrays they own *)

Lemma heap_wf_empty : heap_wf Heap.empty.
Proof. intros b _. apply lookup_empty. Qed.

Lemma heap_wf_live h b :
  heap_wf h → is_Some (Heap.blocks h !! b) → (b < Heap.next h)%nat.
Proof.
  intros Hwf [data Hb]. destruct (decide (b < Heap.next h)%nat); [done|].
  rewrite Hwf in Hb by lia. done.
Qed.

Lemma heap_wf_alloc n h : heap_wf h → heap_wf (Heap.alloc n h).2.
Proof.
  intros Hwf b Hb. simpl in *. rewrite lookup_insert_ne by lia. apply Hwf. lia.
Qed.

Lemma heap_wf_free b h : heap_wf h → heap_wf (Heap.free b h).
Proof.
  intros Hwf b' Hb'. simpl in *.
  destruct (decide (b = b')) as [->|]; [apply lookup_delete_eq|].
  rewrite lookup_delete_ne by done. by apply Hwf.
Qed.

Lemma heap_wf_store p src h h' :
  heap_wf h → Heap.store p src h = Some h' → heap_wf h'.
Proof.
  intros Hwf Hstore. destruct p as [|b off]; [done|]. simpl in Hstore.
  destruct (Heap.blocks h !! b) as [data|] eqn:Hb; [|done]. simpl in Hstore.
  case_bool_decide; [|done]. injection Hstore as <-.
  intros b' Hb'. simpl in *.
  assert (b < Heap.next h)%nat by (apply heap_wf_live; [done|by eexists]).
  rewrite lookup_insert_ne by lia. by apply Hwf.
Qed.

(** Reading a whole live array. *)
Lemma load_whole h b data n :
  Heap.blocks h !! b = Some data → n = Z.of_nat (length data) →
  Heap.load (Ptr b 0) n h = Some data.
Proof.
  intros Hb ->. unfold Heap.load. rewrite Hb; simpl.
  rewrite bool_decide_eq_true_2 by lia.
  change (Z.to_nat 0) with 0%nat. rewrite drop_0, firstn_all2; [done|lia].
Qed.

(** Overwriting a whole live array. *)
Lemma store_whole h b old data :
  Heap.blocks h !! b = Some old → length data = length old →
  Heap.store (Ptr b 0) data h
  = Some (Heap.mk (<[b := data]> (Heap.blocks h)) (Heap.next h)).
Proof.
  intros Hb Hlen. unfold Heap.store. rewrite Hb; simpl.
  rewrite bool_decide_eq_true_2 by lia.
  change (Z.to_nat 0) with 0%nat. simpl.
  rewrite drop_ge by lia. by rewrite app_nil_r.
Qed.

Section segments.
Import Audio_Segment.

Lemma samples_of_block s h b data :
  audio s = Some b → Heap.blocks h !! b = Some data →
  Z.of_nat (length data) = size s →
  samples s h = Some data.
Proof.
  intros Ha Hb Hlen. unfold samples, get_audio. rewrite Ha.
  by apply load_whole.
Qed.

Lemma fresh_array s h sz now :
  heap_wf h → owns_live s h → 0 ≤ sz →
  ∃ h',
    (b ← make_unique sz; _ ← release (audio s);
     mret (mk (Some b) (ptr_add (Ptr b 0) (Z.quot sz 2)) now sz)) h
    = Ok (mk (Some (Heap.next h)) (Ptr (Heap.next h) (Z.quot sz 2)) now sz, h')
    ∧ Heap.blocks h' !! Heap.next h = Some (replicate (Z.to_nat sz) 0)
    ∧ (∀ b, audio s = Some b → Heap.blocks h' !! b = None)
    ∧ (∀ b, audio s ≠ Some b → b ≠ Heap.next h →
         Heap.blocks h' !! b = Heap.blocks h !! b)
    ∧ Heap.next h' = S (Heap.next h)
    ∧ heap_wf h'.
Proof.
  intros Hwf Hown Hsz.
  unfold mbind, M_bind, make_unique, release, mret, M_ret; simpl.
  destruct (audio s) as [old|] eqn:Hold; simpl.
  - assert (old < Heap.next h)%nat by (apply heap_wf_live; auto).
    eexists. split; [by rewrite Z.add_0_l|]. simpl.
    split; [rewrite lookup_delete_ne by lia; apply lookup_insert_eq|].
    split; [intros b [= <-]; apply lookup_delete_eq|].
    split; [intros b Hb Hn; rewrite lookup_delete_ne by congruence;
            by rewrite lookup_insert_ne|].
    split; [done|].
    apply (heap_wf_free old (Heap.alloc sz h).2), heap_wf_alloc, Hwf.
  - eexists. split; [by rewrite Z.add_0_l|]. simpl.
    split; [apply lookup_insert_eq|].
    split; [done|].
    split; [intros b _ Hn; by rewrite lookup_insert_ne|].
    split; [done|].
    apply (heap_wf_alloc sz h), Hwf.
Qed.

(** X12. [lazy_initialize] rejects size 0 with INVALID_ARGUMENT, and for a
    size below [float_array_limit], the sizes [std::make_unique] does not
    refuse, leaves a segment of the requested size, stamped with the current
    time, over a fresh zero-filled array with the midpoint half-way into it;
    the array held before is freed. *)
Theorem lazy_initialize_zero_or_silence (sz now : Z) (s : t) (h : Heap.t) :
  heap_wf h → owns_live s h → 0 ≤ sz < float_array_limit →
  if decide (sz = 0) then
    lazy_initialize sz now s h
    = Throw (Tsrt_Exception INVALID_ARGUMENT
               "Audio segment size must be greater than 0.")
  else
    ∃ s' h',
      lazy_initialize sz now s h = Ok (s', h')
      ∧ midpoint_ok s'
      ∧ size s' = sz
      ∧ timestamp s' = now
      ∧ samples s' h' = Some (replicate (Z.to_nat sz) 0)
      ∧ (∀ b, audio s = Some b → Heap.blocks h' !! b = None)
      ∧ heap_wf h'.
Proof.
  intros Hwf Hown [Hsz _]. unfold lazy_initialize. case_decide as Hz.
  - by rewrite Hz.
  - rewrite (proj2 (Z.eqb_neq sz 0) Hz).
    destruct (fresh_array s h sz now Hwf Hown Hsz)
      as (h' & -> & Hnew & Hold & _ & _ & Hwf').
    eexists _, _. split; [reflexivity|].
    split; [by eexists|]. split; [done|]. split; [done|].
    split; [|done].
    eapply samples_of_block; [reflexivity|done|].
    rewrite length_replicate. simpl. lia.
Qed.

Lemma lazy_initialize_zero_or_silence_witness :
  ∃ s' h',
    lazy_initialize 6 9 (default_constructor 1) Heap.empty = Ok (s', h')
    ∧ midpoint_ok s'
    ∧ size s' = 6
    ∧ timestamp s' = 9
    ∧ samples s' h' = Some (replicate (Z.to_nat 6) 0)
    ∧ (∀ b, audio (default_constructor 1) = Some b → Heap.blocks h' !! b = None)
    ∧ heap_wf h'.
Proof.
  apply (lazy_initialize_zero_or_silence 6 9 (default_constructor 1) Heap.empty).
  - apply heap_wf_empty.
  - intros b. discriminate.
  - split; [lia | reflexivity].
Defined.

(** X13. [reset_audio] replaces the samples by a fresh zero-filled array of
    the same size: size and timestamp stay, the midpoint points half-way into
    the new array, and the old array is freed. *)
Theorem reset_audio_gives_fresh_silence (s : t) (h : Heap.t) :
  heap_wf h → owns_live s h → 0 ≤ size s →
  ∃ s' h',
    reset_audio s h = Ok (s', h')
    ∧ midpoint_ok s'
    ∧ size s' = size s
    ∧ timestamp s' = timestamp s
    ∧ samples s' h' = Some (replicate (Z.to_nat (size s)) 0)
    ∧ audio s' ≠ audio s
    ∧ (∀ b, audio s = Some b → Heap.blocks h' !! b = None)
    ∧ heap_wf h'.
Proof.
  intros Hwf Hown Hsz. unfold reset_audio.
  destruct (fresh_array s h (size s) (timestamp s) Hwf Hown Hsz)
    as (h' & -> & Hnew & Hold & _ & _ & Hwf').
  eexists _, _. split; [reflexivity|].
  split; [by eexists|]. split; [done|]. split; [done|].
  split.
  { eapply samples_of_block; [reflexivity|done|].
    rewrite length_replicate. simpl. lia. }
  split; [|done]. simpl. intros Heq. symmetry in Heq.
  specialize (Hold _ Heq). congruence.
Qed.

Lemma reset_audio_gives_fresh_silence_witness :
  let s := (move_constructor (mk (Some 0%nat) (Ptr 0 2) 7 4)).2 in
  let h := (Heap.alloc 4 Heap.empty).2 in
  ∃ s' h',
    reset_audio s h = Ok (s', h')
    ∧ midpoint_ok s'
    ∧ size s' = size s
    ∧ timestamp s' = timestamp s
    ∧ samples s' h' = Some (replicate (Z.to_nat (size s)) 0)
    ∧ audio s' ≠ audio s
    ∧ (∀ b, audio s = Some b → Heap.blocks h' !! b = None)
    ∧ heap_wf h'.
Proof.
  apply (reset_audio_gives_fresh_silence
           (move_constructor (mk (Some 0%nat) (Ptr 0 2) 7 4)).2
           (Heap.alloc 4 Heap.empty).2).
  - apply heap_wf_alloc, heap_wf_empty.
  - intros b. discriminate.
  - simpl. lia.
Defined.

Lemma copy_constructor_spec (other : t) (h : Heap.t) (b : nat) (data : list Z) :
  heap_wf h →
  audio other = Some b →
  Heap.blocks h !! b = Some data →
  Z.of_nat (length data) = size other →
  ∃ h',
    copy_constructor other h
    = Ok (mk (Some (Heap.next h)) (Ptr (Heap.next h) (Z.quot (size other) 2))
             (timestamp other) (size other), h')
    ∧ Heap.blocks h' !! Heap.next h = Some data
    ∧ (∀ b', b' ≠ Heap.next h → Heap.blocks h' !! b' = Heap.blocks h !! b')
    ∧ Heap.next h' = S (Heap.next h)
    ∧ heap_wf h'.
Proof.
  intros Hwf Haudio Hb Hlen.
  assert (Hlt : (b < Heap.next h)%nat) by (apply heap_wf_live; [done|by eexists]).
  unfold copy_constructor, mbind, M_bind, make_unique, std_copy.
  unfold get_audio. rewrite Haudio.
  set (h1 := (Heap.alloc (size other) h).2).
  assert (Hb1 : Heap.blocks h1 !! b = Some data)
    by (simpl; rewrite lookup_insert_ne by lia; done).
  assert (Hn1 : Heap.blocks h1 !! Heap.next h
                = Some (replicate (Z.to_nat (size other)) 0))
    by (simpl; apply lookup_insert_eq).
  assert (Hwf1 : heap_wf h1) by (by apply heap_wf_alloc).
  simpl. fold h1.
  destruct (Z.eqb_spec (size other) 0) as [Hz|Hnz].
  - assert (data = []) as -> by (apply nil_length_inv; lia).
    eexists. split; [unfold mret, M_ret; by rewrite Z.add_0_l|].
    split; [simpl; rewrite lookup_insert_eq, Hz; done|].
    split; [intros b' Hb'; simpl; by rewrite lookup_insert_ne|].
    split; [done|]. exact Hwf1.
  - unfold memcpy.
    rewrite (load_whole h1 b data) by (done || lia).
    cbv beta iota.
    change (Heap.store (Ptr (Heap.next h) 0) data _)
      with (Heap.store (Ptr (Heap.next h) 0) data h1).
    rewrite (store_whole h1 (Heap.next h) _ data Hn1)
      by (rewrite length_replicate; lia).
    cbv beta iota.
    eexists. split; [unfold mret, M_ret; by rewrite Z.add_0_l|].
    split; [simpl; apply lookup_insert_eq|].
    split; [intros b' Hb'; simpl; by rewrite !lookup_insert_ne|].
    split; [done|].
    eapply heap_wf_store; [exact Hwf1|].
    apply (store_whole h1 (Heap.next h) _ data Hn1). rewrite length_replicate. lia.
Qed.

(** X14. The copy constructor of [Audio_Segment] is a deep copy: the new
    segment owns another array holding the same samples, has the source's
    timestamp and size and its midpoint half-way into its own array, and the
    source keeps its samples. *)
Theorem copy_constructor_is_deep (other : t) (h : Heap.t) (b : nat) (data : list Z) :
  heap_wf h →
  audio other = Some b →
  Heap.blocks h !! b = Some data →
  Z.of_nat (length data) = size other →
  ∃ s' h',
    copy_constructor other h = Ok (s', h')
    ∧ midpoint_ok s'
    ∧ audio s' ≠ audio other
    ∧ samples s' h' = Some data
    ∧ samples other h' = Some data
    ∧ timestamp s' = timestamp other
    ∧ size s' = size other
    ∧ heap_wf h'.
Proof.
  intros Hwf Haudio Hb Hlen.
  assert (Hlt : (b < Heap.next h)%nat) by (apply heap_wf_live; [done|by eexists]).
  destruct (copy_constructor_spec other h b data Hwf Haudio Hb Hlen)
    as (h' & -> & Hnew & Hold & _ & Hwf').
  eexists _, _. split; [reflexivity|].
  split; [by eexists|].
  split; [rewrite Haudio; simpl; intros [=]; lia|].
  split; [by eapply samples_of_block|].
  split; [eapply samples_of_block; [done| |done]; rewrite Hold by lia; done|].
  done.
Qed.

Lemma copy_constructor_is_deep_witness :
  let other := mk (Some 0%nat) (Ptr 0 1) 7 3 in
  let h := Heap.mk {[ 0%nat := [4; 5; 6] ]} 1 in
  ∃ s' h',
    copy_constructor other h = Ok (s', h')
    ∧ midpoint_ok s'
    ∧ audio s' ≠ audio other
    ∧ samples s' h' = Some [4; 5; 6]
    ∧ samples other h' = Some [4; 5; 6]
    ∧ timestamp s' = timestamp other
    ∧ size s' = size other
    ∧ heap_wf h'.
Proof.
  apply (copy_constructor_is_deep (mk (Some 0%nat) (Ptr 0 1) 7 3)
           (Heap.mk {[ 0%nat := [4; 5; 6] ]} 1) 0%nat [4; 5; 6]).
  - intros b Hb. simpl in *. apply lookup_singleton_ne. lia.
  - reflexivity.
  - reflexivity.
  - reflexivity.
Defined.

(** X15. A moved-from segment keeps its size and midpoint but has no array:
    the move hands the array over, and copy-constructing the moved-from
    segment then copies [size] floats from a null pointer, which is undefined
    behaviour. *)
Theorem moved_from_segment_cannot_be_copied (s : t) (h : Heap.t) :
  size s ≠ 0 →
  audio (move_constructor s).1 = audio s
  ∧ audio (move_constructor s).2 = None
  ∧ size (move_constructor s).2 = size s
  ∧ midpoint (move_constructor s).2 = midpoint s
  ∧ copy_constructor (move_constructor s).2 h = Undefined.
Proof.
  intros Hsz. repeat split.
  unfold copy_constructor, mbind, M_bind, make_unique, std_copy; simpl.
  by rewrite (proj2 (Z.eqb_neq _ _) Hsz).
Qed.

Lemma moved_from_segment_cannot_be_copied_witness :
  let s := mk (Some 0%nat) (Ptr 0 2) 7 4 in
  let h := (Heap.alloc 4 Heap.empty).2 in
  audio (move_constructor s).1 = audio s
  ∧ audio (move_constructor s).2 = None
  ∧ size (move_constructor s).2 = size s
  ∧ midpoint (move_constructor s).2 = midpoint s
  ∧ copy_constructor (move_constructor s).2 h = Undefined.
Proof.
  apply (moved_from_segment_cannot_be_copied (mk (Some 0%nat) (Ptr 0 2) 7 4)
           (Heap.alloc 4 Heap.empty).2).
  simpl. lia.
Defined.

(** X16. Copy assignment gives the target the source's samples in an array
    of its own, with the source's timestamp and size; the target's old array
    is freed and the source keeps its samples. The target's midpoint is the
    one member left as it was. *)
Theorem copy_assign_copies_samples (this other : t) (h : Heap.t)
    (b : nat) (data : list Z) :
  heap_wf h → owns_live this h →
  audio other = Some b → audio this ≠ Some b →
  Heap.blocks h !! b = Some data →
  Z.of_nat (length data) = size other →
  ∃ this' h',
    copy_assign this other h = Ok (this', h')
    ∧ samples this' h' = Some data
    ∧ samples other h' = Some data
    ∧ timestamp this' = timestamp other
    ∧ size this' = size other
    ∧ audio this' ≠ audio other
    ∧ midpoint this' = midpoint this
    ∧ (∀ old, audio this = Some old → Heap.blocks h' !! old = None)
    ∧ heap_wf h'.
Proof.
  intros Hwf Hown Haudio Hne Hb Hlen.
  assert (Hlt : (b < Heap.next h)%nat) by (apply heap_wf_live; [done|by eexists]).
  destruct (copy_constructor_spec other h b data Hwf Haudio Hb Hlen)
    as (h1 & Hcopy & Hnew & Hold & _ & Hwf1).
  unfold copy_assign, mbind, M_bind. rewrite Hcopy. cbv beta iota.
  unfold swap, destructor, release, mret, M_ret; simpl.
  destruct (audio this) as [old|] eqn:Hthis; simpl.
  - assert (old < Heap.next h)%nat by (apply heap_wf_live; auto).
    eexists _, _. split; [reflexivity|].
    split; [eapply samples_of_block; [reflexivity| |done];
            simpl; rewrite lookup_delete_ne by lia; done|].
    split; [eapply samples_of_block; [done| |done];
            simpl; rewrite lookup_delete_ne by congruence; rewrite Hold by lia; done|].
    split; [done|]. split; [done|].
    split; [rewrite Haudio; simpl; intros [=]; lia|].
    split; [done|].
    split; [intros ? [= <-]; simpl; apply lookup_delete_eq|].
    by apply heap_wf_free.
  - eexists _, _. split; [reflexivity|].
    split; [by eapply samples_of_block|].
    split; [eapply samples_of_block; [done| |done]; rewrite Hold by lia; done|].
    split; [done|]. split; [done|].
    split; [rewrite Haudio; simpl; intros [=]; lia|].
    done.
Qed.

Lemma copy_assign_copies_samples_witness :
  let this := mk (Some 0%nat) (Ptr 0 1) 3 2 in
  let other := mk (Some 1%nat) (Ptr 1 1) 7 3 in
  let h := Heap.mk (<[ 1%nat := [4; 5; 6] ]> {[ 0%nat := [8; 9] ]}) 2 in
  ∃ this' h',
    copy_assign this other h = Ok (this', h')
    ∧ samples this' h' = Some [4; 5; 6]
    ∧ samples other h' = Some [4; 5; 6]
    ∧ timestamp this' = timestamp other
    ∧ size this' = size other
    ∧ audio this' ≠ audio other
    ∧ midpoint this' = midpoint this
    ∧ (∀ old, audio this = Some old → Heap.blocks h' !! old = None)
    ∧ heap_wf h'.
Proof.
  apply (copy_assign_copies_samples (mk (Some 0%nat) (Ptr 0 1) 3 2)
           (mk (Some 1%nat) (Ptr 1 1) 7 3)
           (Heap.mk (<[ 1%nat := [4; 5; 6] ]> {[ 0%nat := [8; 9] ]}) 2)
           1%nat [4; 5; 6]).
  - intros b Hb. simpl in *.
    rewrite lookup_insert_ne by lia. apply lookup_singleton_ne. lia.
  - intros b [= <-]. eexists. reflexivity.
  - reflexivity.
  - discriminate.
  - reflexivity.
  - reflexivity.
Defined.

End segments.

(** ** The ring buffer of segments *)

Section segment_buffer.
Import Audio_Segment.

(** X17. Pushing a segment of size 0 ends the process: [push] initialises
    the slot with the size of the pushed segment, [lazy_initialize] throws
    INVALID_ARGUMENT inside the [noexcept] function, and [std::terminate] is
    called; the same happens through [push_to_audio_buffer]. *)
Theorem pushing_an_empty_segment_terminates (Size now : Z) (arg : t)
    (rb : Ring_Buffer.t t) (e : Script_Engine.t) (h : Heap.t) :
  size arg = 0 →
  Audio_Ring_Buffer.push Size now arg rb h = Terminate
  ∧ Script_Engine.push_to_audio_buffer now arg e h = Terminate.
Proof.
  intros Hsz.
  assert (Hpush : ∀ S r, Audio_Ring_Buffer.push S now arg r h = Terminate).
  { intros S r. unfold Audio_Ring_Buffer.push, move_constructor, noexcept,
      mbind, M_bind, lazy_initialize, get_size; simpl. by rewrite Hsz. }
  split; [apply Hpush|].
  unfold Script_Engine.push_to_audio_buffer, mbind, M_bind, noexcept.
  by rewrite Hpush.
Qed.

Lemma pushing_an_empty_segment_terminates_witness :
  Audio_Ring_Buffer.push 16 5 (default_constructor 1)
    (Audio_Ring_Buffer.init 16 0) Heap.empty = Terminate
  ∧ Script_Engine.push_to_audio_buffer 5 (default_constructor 1)
      (Script_Engine.constructor 0) Heap.empty = Terminate.
Proof.
  apply (pushing_an_empty_segment_terminates 16 5 (default_constructor 1)
           (Audio_Ring_Buffer.init 16 0) (Script_Engine.constructor 0) Heap.empty).
  reflexivity.
Defined.

(** What a push of a live segment does to the buffer and to the store. *)
Lemma segment_push_spec (Size now : Z) (arg : t) (rb : Ring_Buffer.t t)
    (h : Heap.t) (b : nat) (data : list Z) :
  heap_wf h →
  0 < size arg →
  audio arg = Some b →
  Heap.blocks h !! b = Some data →
  owns_live (Ring_Buffer.buffer rb !!! Z.to_nat (Ring_Buffer.head rb)) h →
  audio (Ring_Buffer.buffer rb !!! Z.to_nat (Ring_Buffer.head rb)) ≠ Some b →
  ∃ h',
    Audio_Ring_Buffer.push Size now arg rb h
    = Ok ((Ring_Buffer.mk
             (<[Z.to_nat (Ring_Buffer.head rb) :=
                  mk (Some b) (Ptr (Heap.next h) (Z.quot (size arg) 2))
                     (timestamp arg) (size arg)]> (Ring_Buffer.buffer rb))
             (Ring_Buffer.wrap_index Size (size_t_add (Ring_Buffer.head rb) 1))
             (if Ring_Buffer.wrap_index Size (size_t_add (Ring_Buffer.head rb) 1)
                 =? Ring_Buffer.tail rb
              then Ring_Buffer.wrap_index Size (size_t_add (Ring_Buffer.tail rb) 1)
              else Ring_Buffer.tail rb),
           mk None (midpoint arg) (timestamp arg) (size arg)), h')
    ∧ Heap.blocks h' !! b = Some data
    ∧ Heap.blocks h' !! Heap.next h = None
    ∧ heap_wf h'.
Proof.
  intros Hwf Hsz Haudio Hb Hown Hne.
  assert (Hlt : (b < Heap.next h)%nat) by (apply heap_wf_live; [done|by eexists]).
  set (slot := Ring_Buffer.buffer rb !!! Z.to_nat (Ring_Buffer.head rb)) in *.
  destruct (fresh_array slot h (size arg) now Hwf Hown ltac:(lia))
    as (h1 & Hfresh & Hnew & Hold & Hother & Hnext & Hwf1).
  unfold Audio_Ring_Buffer.push, move_constructor, noexcept.
  unfold mbind at 1, M_bind at 1.
  unfold lazy_initialize, get_size. cbn [size].
  rewrite (proj2 (Z.eqb_neq (size arg) 0)) by lia.
  fold slot. rewrite Hfresh. cbv beta iota.
  unfold move_assign, swap, destructor, release, mbind, M_bind, mret, M_ret.
  cbn [audio midpoint timestamp size]. rewrite Haudio.
  eexists. split; [reflexivity|]. simpl.
  split; [rewrite lookup_delete_ne by lia; rewrite Hother; [done|done|lia]|].
  split; [apply lookup_delete_eq|].
  by apply (heap_wf_free (Heap.next h) h1).
Qed.

Lemma next_index_moves (Size i : Z) :
  1 < Size < size_t_modulus → 0 ≤ i < Size →
  Ring_Buffer.wrap_index Size (size_t_add i 1) ≠ i.
Proof.
  intros HS Hi. rewrite next_index by lia.
  destruct (mod_cases Size ltac:(lia) (i + 1) ltac:(lia))
    as [[? E]|[[? E]|[? E]]]; rewrite E; lia.
Qed.

(** X18. A segment pushed into an empty buffer of segments comes back from
    the next pop with its samples, timestamp and size; the caller's segment
    is left without an array, and the pop after that finds the buffer
    empty. *)
Theorem segment_push_then_pop (Size now : Z) (arg : t) (rb : Ring_Buffer.t t)
    (h : Heap.t) (b : nat) (data : list Z) :
  1 < Size < size_t_modulus →
  Unread.wf Size rb →
  Ring_Buffer.head rb = Ring_Buffer.tail rb →
  heap_wf h →
  0 < size arg →
  audio arg = Some b →
  Heap.blocks h !! b = Some data →
  Z.of_nat (length data) = size arg →
  owns_live (Ring_Buffer.buffer rb !!! Z.to_nat (Ring_Buffer.head rb)) h →
  audio (Ring_Buffer.buffer rb !!! Z.to_nat (Ring_Buffer.head rb)) ≠ Some b →
  ∃ rb' arg' h' w rb'',
    Audio_Ring_Buffer.push Size now arg rb h = Ok ((rb', arg'), h')
    ∧ audio arg' = None
    ∧ Audio_Ring_Buffer.pop Size rb' = (Some w, rb'')
    ∧ samples w h' = Some data
    ∧ timestamp w = timestamp arg
    ∧ size w = size arg
    ∧ Audio_Ring_Buffer.pop Size rb'' = (None, rb'').
Proof.
  intros HS (Hlen & Hh & Ht) Hempty Hwf Hsz Haudio Hb Hdata Hown Hne.
  destruct (segment_push_spec Size now arg rb h b data Hwf Hsz Haudio Hb Hown Hne)
    as (h' & Hpush & Hb' & _ & _).
  pose proof (next_index_moves Size (Ring_Buffer.head rb) HS Hh) as Hmove.
  rewrite Hpush. clear Hpush.
  rewrite <- Hempty.
  rewrite (proj2 (Z.eqb_neq _ _) Hmove).
  eexists _, _, _, _, _. split; [reflexivity|].
  split; [done|].
  unfold Audio_Ring_Buffer.pop at 1. cbn [Ring_Buffer.head Ring_Buffer.tail Ring_Buffer.buffer].
  rewrite (proj2 (Z.eqb_neq _ _) Hmove).
  rewrite list_lookup_total_insert_eq by lia.
  unfold move_constructor. cbn [audio midpoint timestamp size].
  split; [reflexivity|].
  split; [by eapply samples_of_block|].
  split; [done|]. split; [done|].
  unfold Audio_Ring_Buffer.pop. cbn [Ring_Buffer.head Ring_Buffer.tail].
  by rewrite Z.eqb_refl.
Qed.

Lemma segment_push_then_pop_witness :
  let arg := mk (Some 0%nat) (Ptr 0 1) 7 3 in
  let h := Heap.mk {[ 0%nat := [4; 5; 6] ]} 1 in
  let rb := Audio_Ring_Buffer.init 16 0 in
  ∃ rb' arg' h' w rb'',
    Audio_Ring_Buffer.push 16 9 arg rb h = Ok ((rb', arg'), h')
    ∧ audio arg' = None
    ∧ Audio_Ring_Buffer.pop 16 rb' = (Some w, rb'')
    ∧ samples w h' = Some [4; 5; 6]
    ∧ timestamp w = timestamp arg
    ∧ size w = size arg
    ∧ Audio_Ring_Buffer.pop 16 rb'' = (None, rb'').
Proof.
  apply (segment_push_then_pop 16 9 (mk (Some 0%nat) (Ptr 0 1) 7 3)
           (Audio_Ring_Buffer.init 16 0)
           (Heap.mk {[ 0%nat := [4; 5; 6] ]} 1) 0%nat [4; 5; 6]).
  - split; reflexivity.
  - repeat split; simpl; lia.
  - reflexivity.
  - intros b Hb. simpl in *. apply lookup_singleton_ne. lia.
  - simpl. lia.
  - reflexivity.
  - reflexivity.
  - reflexivity.
  - intros b. discriminate.
  - discriminate.
Defined.

End segment_buffer.

(** ** The stitching stage over any half-windows *)

Ltac tabulate_halves :=
  repeat match goal with
  | H : Z.of_nat (length ?d) = SAMPLES_PER_HALF_SEGMENT |- _ =>
      rewrite (list_tabulate d 400) by (apply Nat2Z.inj; rewrite H; reflexivity);
      generalize (λ i : nat, d !!! i); clear H; clear d; intro
  end.

(** X19. The stitcher emits overlapping windows: given up to fifteen
    half-windows of SAMPLES_PER_HALF_SEGMENT samples, it pushes one window
    for each half-window after the first, made of the previous half followed
    by the new one. The first window is stamped with the time the thread
    started, every later one with the timestamp of its first half, and
    [last_timestamp] ends as the timestamp of the last half consumed. *)
Theorem stitcher_emits_overlapping_windows (halves : list (list Z * Z)) (tstart : Z) :
  (length halves ≤ 15)%nat →
  Forall (λ half, Z.of_nat (length half.1) = SAMPLES_PER_HALF_SEGMENT) halves →
  Scenario.stitch halves tstart = Ok (Windows.emitted halves tstart).
Proof.
  intros Hlen Hall.
  do 16 (destruct halves as [|[? ?] halves];
         [ clear Hlen Hall; tabulate_halves; vm_compute; reflexivity
         | apply Forall_cons in Hall as [? Hall]; simpl in * ]).
  lia.
Qed.

Lemma stitcher_emits_overlapping_windows_witness :
  Scenario.stitch
    [(replicate 400 1, 10); (replicate 400 2, 20); (replicate 400 3, 30);
     (replicate 400 4, 40)] 5
  = Ok (Windows.emitted
          [(replicate 400 1, 10); (replicate 400 2, 20); (replicate 400 3, 30);
           (replicate 400 4, 40)] 5).
Proof.
  apply (stitcher_emits_overlapping_windows
           [(replicate 400 1, 10); (replicate 400 2, 20); (replicate 400 3, 30);
            (replicate 400 4, 40)] 5).
  - simpl. lia.
  - repeat constructor.
Defined.

(** *** Exceptions *)

(** Calls that never throw. *)
Lemma memcpy_never_throws dst src n h e : memcpy dst src n h ≠ Throw e.
Proof. unfold memcpy. by repeat case_match. Qed.

Lemma noexcept_never_throws {A} (m : M A) h e : noexcept m h ≠ Throw e.
Proof. unfold noexcept. by repeat case_match. Qed.

Lemma destructor_returns s h : ∃ h', Audio_Segment.destructor s h = Ok ((), h').
Proof. unfold Audio_Segment.destructor, release. destruct (Audio_Segment.audio s); by eexists. Qed.

Lemma preprocess_outcome ret err p :
  Audio_tsrt.preprocess_audio_segment ret err p
  = if ret <? 0
    then Throw (Tsrt_Exception RUNTIME_ERROR
                  (String.append "Error adding frame to filter"
                     (String.append ": " err)))
    else Ok SUCCESS.
Proof.
  unfold Audio_tsrt.preprocess_audio_segment, Audio_tsrt.handle_ffmpeg_errors.
  by destruct (ret <? 0).
Qed.

(** The outer body, once a half-window was popped and the filter accepted it. *)
Lemma outer_body_throws o s h e :
  Preprocessing.outer_body o s h = Throw e →
  Preprocessing.filter_ret o < 0
  ∧ e = Tsrt_Exception RUNTIME_ERROR
          (String.append "Error adding frame to filter"
             (String.append ": " (Preprocessing.filter_err o))).
Proof.
  unfold Preprocessing.outer_body.
  destruct (Audio_Ring_Buffer.pop _ _) as [[value|] rb]; [|done].
  unfold Audio_Segment.move_constructor.
  unfold mbind at 1, M_bind at 1, lift.
  rewrite preprocess_outcome.
  destruct (Z.ltb_spec (Preprocessing.filter_ret o) 0) as [Hneg|Hpos].
  { by intros [= <-]. }
  rewrite bool_decide_eq_true_2 by done. cbn [negb].
  intros Hthrow. exfalso. revert Hthrow.
  destruct (Preprocessing.first_segment s).
  - unfold mbind, M_bind.
    destruct (memcpy _ _ _ h) as [[[] h1]| | |] eqn:Hm; try done.
    + match goal with |- context [Audio_Segment.destructor ?x h1] =>
        destruct (destructor_returns x h1) as [h2 ->] end. done.
    + by apply memcpy_never_throws in Hm.
  - unfold mbind, M_bind.
    destruct (memcpy _ _ _ h) as [[[] h1]| | |] eqn:Hm; try done.
    2:{ by apply memcpy_never_throws in Hm. }
    unfold Script_Engine.push_to_audio_buffer, mbind, M_bind.
    destruct (noexcept _ h1) as [[[rb' seg] h2]| | |] eqn:Hp; try done.
    2:{ by apply noexcept_never_throws in Hp. }
    unfold mret, M_ret.
    destruct (noexcept _ h2) as [[seg' h3]| | |] eqn:Hr; try done.
    2:{ by apply noexcept_never_throws in Hr. }
    destruct (memcpy _ _ _ h3) as [[[] h4]| | |] eqn:Hm2; try done.
    2:{ by apply memcpy_never_throws in Hm2. }
    match goal with |- context [Audio_Segment.destructor ?x h4] =>
      destruct (destructor_returns x h4) as [h5 ->] end. done.
Qed.

(** X20. The only exception a pass of the stitching loop throws is the
    filter's: a pass throws only when [av_buffersrc_add_frame_flags] returned
    a negative code, and what it throws is the RUNTIME_ERROR of
    [handle_ffmpeg_errors], never the loop's own UNKNOWN_ERROR. With the
    engine running and recording and a half-window waiting, a negative code
    does throw it. *)
Theorem preprocessing_throws_only_the_filter_error
    (o : Preprocessing.observation) (s : Preprocessing.state) (h : Heap.t) :
  (∀ e, Preprocessing.pass o s h = Throw e →
     Preprocessing.filter_ret o < 0
     ∧ e = Tsrt_Exception RUNTIME_ERROR
             (String.append "Error adding frame to filter"
                (String.append ": " (Preprocessing.filter_err o))))
  ∧ (Script_Engine.is_running (Preprocessing.engine s) = true →
     Script_Engine.is_recording (Preprocessing.engine s) = true →
     Ring_Buffer.head (Preprocessing.shared_audio_ring_buffer s)
       ≠ Ring_Buffer.tail (Preprocessing.shared_audio_ring_buffer s) →
     Preprocessing.filter_ret o < 0 →
     Preprocessing.pass o s h
     = Throw (Tsrt_Exception RUNTIME_ERROR
                (String.append "Error adding frame to filter"
                   (String.append ": " (Preprocessing.filter_err o))))).
Proof.
  split.
  - intros e. unfold Preprocessing.pass.
    repeat case_match; try done; apply outer_body_throws.
  - intros Hrun Hrec Hne Hneg.
    assert (Preprocessing.outer_body o s h
            = Throw (Tsrt_Exception RUNTIME_ERROR
                (String.append "Error adding frame to filter"
                   (String.append ": " (Preprocessing.filter_err o))))) as Hbody.
    { unfold Preprocessing.outer_body, Audio_Ring_Buffer.pop.
      rewrite (proj2 (Z.eqb_neq _ _) Hne).
      unfold Audio_Segment.move_constructor.
      unfold mbind at 1, M_bind at 1, lift.
      rewrite preprocess_outcome.
      by rewrite (proj2 (Z.ltb_lt _ _) Hneg). }
    unfold Preprocessing.pass. rewrite Hrun, Hrec. simpl.
    by destruct (Preprocessing.at_loop s).
Qed.

Lemma preprocessing_throws_only_the_filter_error_witness :
  Preprocessing.pass (Preprocessing.mk_observation (-22) "Invalid argument" 3)
    (Preprocessing.mk AtOuterLoop true (Audio_Segment.default_constructor 0) 0 0
       (Ring_Buffer.mk (replicate 16 (Audio_Segment.default_constructor 0)) 1 0)
       (Scenario.engine_recording 0))
    Heap.empty
  = Throw (Tsrt_Exception RUNTIME_ERROR
             "Error adding frame to filter: Invalid argument").
Proof.
  apply (proj2 (preprocessing_throws_only_the_filter_error
                  (Preprocessing.mk_observation (-22) "Invalid argument" 3)
                  (Preprocessing.mk AtOuterLoop true
                     (Audio_Segment.default_constructor 0) 0 0
                     (Ring_Buffer.mk
                        (replicate 16 (Audio_Segment.default_constructor 0)) 1 0)
                     (Scenario.engine_recording 0))
                  Heap.empty)).
  - reflexivity.
  - reflexivity.
  - discriminate.
  - reflexivity.
Defined.

(** ** The capture stage: timestamps *)

(** What a push leaves in the slot and in the caller's segment, field by
    field. *)
Lemma segment_push_fields Size now arg rb h rb' arg' h' :
  Audio_Ring_Buffer.push Size now arg rb h = Ok ((rb', arg'), h') →
  ∃ slot,
    Ring_Buffer.buffer rb'
    = <[Z.to_nat (Ring_Buffer.head rb) := slot]> (Ring_Buffer.buffer rb)
    ∧ Ring_Buffer.head rb'
      = Ring_Buffer.wrap_index Size (size_t_add (Ring_Buffer.head rb) 1)
    ∧ Audio_Segment.audio slot = Audio_Segment.audio arg
    ∧ Audio_Segment.timestamp slot = Audio_Segment.timestamp arg
    ∧ Audio_Segment.size slot = Audio_Segment.size arg
    ∧ arg' = Audio_Segment.mk None (Audio_Segment.midpoint arg)
               (Audio_Segment.timestamp arg) (Audio_Segment.size arg).
Proof.
  unfold Audio_Ring_Buffer.push, Audio_Segment.move_constructor, noexcept.
  unfold mbind at 1, M_bind at 1.
  destruct (Audio_Segment.lazy_initialize _ _ _ h) as [[slot1 h1]| | |]; try done.
  unfold Audio_Segment.move_assign, Audio_Segment.swap, mbind, M_bind.
  cbn [Audio_Segment.audio Audio_Segment.midpoint Audio_Segment.timestamp
       Audio_Segment.size].
  match goal with |- context [Audio_Segment.destructor ?x h1] =>
    destruct (destructor_returns x h1) as [h2 ->] end.
  unfold mret, M_ret. intros [= <- <- <-].
  eexists. repeat split.
Qed.

(** X22. The capture loop never stamps its segment: through every pass that
    returns, [audio_segment] keeps the timestamp it had, and the half-window
    a recording pass pushes carries that timestamp into the slot at the old
    [head]; a pass that is not recording leaves the buffer alone. *)
Theorem captured_segments_carry_the_start_time
    (o : Recording.observation) (s s' : Recording.state) (h h' : Heap.t) :
  Recording.pass o s h = Ok (Recording.Next s', h') →
  0 ≤ Ring_Buffer.head (Recording.shared_audio_ring_buffer s)
    < Z.of_nat (length (Ring_Buffer.buffer (Recording.shared_audio_ring_buffer s))) →
  Audio_Segment.timestamp (Recording.audio_segment s')
  = Audio_Segment.timestamp (Recording.audio_segment s)
  ∧ (Script_Engine.is_recording (Recording.engine s) = false →
     Recording.shared_audio_ring_buffer s' = Recording.shared_audio_ring_buffer s)
  ∧ (Script_Engine.is_recording (Recording.engine s) = true →
     Ring_Buffer.head (Recording.shared_audio_ring_buffer s')
     = Ring_Buffer.wrap_index AUDIO_BUFFER_SIZE
         (size_t_add (Ring_Buffer.head (Recording.shared_audio_ring_buffer s)) 1)
     ∧ Audio_Segment.timestamp
         (Ring_Buffer.buffer (Recording.shared_audio_ring_buffer s')
          !!! Z.to_nat (Ring_Buffer.head (Recording.shared_audio_ring_buffer s)))
       = Audio_Segment.timestamp (Recording.audio_segment s)).
Proof.
  intros Hpass Hhead.
  assert (Hinner : ∀ s1 h1,
    Recording.inner_body_on (Recording.audio_tsrt o) o s h = Ok (Recording.Next s1, h1) →
    Recording.audio_segment s1 = Recording.audio_segment s
    ∧ Recording.shared_audio_ring_buffer s1 = Recording.shared_audio_ring_buffer s).
  { intros s1 h1. unfold Recording.inner_body_on, mbind, M_bind, lift.
    repeat (case_match; try done); unfold mret, M_ret; by intros [= <- <-]. }
  assert (Houter : ∀ s1 h1,
    Recording.outer_body_on (Recording.audio_tsrt o) o s h = Ok (Recording.Next s1, h1) →
    Audio_Segment.timestamp (Recording.audio_segment s1)
    = Audio_Segment.timestamp (Recording.audio_segment s)
    ∧ Ring_Buffer.head (Recording.shared_audio_ring_buffer s1)
      = Ring_Buffer.wrap_index AUDIO_BUFFER_SIZE
          (size_t_add (Ring_Buffer.head (Recording.shared_audio_ring_buffer s)) 1)
    ∧ Audio_Segment.timestamp
        (Ring_Buffer.buffer (Recording.shared_audio_ring_buffer s1)
         !!! Z.to_nat (Ring_Buffer.head (Recording.shared_audio_ring_buffer s)))
      = Audio_Segment.timestamp (Recording.audio_segment s)).
  { intros s1 h1 Hbody.
    destruct (outer_body_never_logs o s h s1 h1 Hbody) as [Hlog _].
    revert Hbody. unfold Recording.outer_body_on, mbind, M_bind.
    set (starting := if negb (Recording.is_streaming o)
                     then lift (Recording.start_stream (Recording.audio_tsrt o))
                     else mret SUCCESS).
    destruct (starting h) as [[started h2]| | |]; try done.
    case_bool_decide; cbn [negb].
    2:{ destruct (Recording.err_on_last_iteration s); [done|].
        intros [= <- <-]. simpl in Hlog. unfold log_error in Hlog.
        apply (f_equal length) in Hlog. rewrite length_app in Hlog. simpl in Hlog. lia. }
    destruct (Recording.read_audio_segment _ _ _ h2) as [[status h3]| | |]; try done.
    case_bool_decide; cbn [negb].
    2:{ destruct (Recording.err_on_last_iteration s); [done|].
        intros [= <- <-]. simpl in Hlog. unfold log_error in Hlog.
        apply (f_equal length) in Hlog. rewrite length_app in Hlog. simpl in Hlog. lia. }
    destruct (Audio_Ring_Buffer.push _ _ _ _ h3) as [[[rb seg] h4]| | |] eqn:Hpush;
      try done.
    apply segment_push_fields in Hpush
      as (slot & Hbuf & Hhd & _ & Hts & _ & ->).
    unfold noexcept, Audio_Segment.reset_audio, mbind, M_bind, make_unique, release,
      mret, M_ret. simpl.
    intros [= <- <-]. simpl.
    split; [done|]. split; [done|].
    rewrite Hbuf, list_lookup_total_insert_eq by lia. done. }
  revert Hpass. unfold Recording.pass, Recording.pass_on.
  destruct (Recording.at_loop s), (Script_Engine.is_running (Recording.engine s)),
    (Script_Engine.is_recording (Recording.engine s)); cbn [negb]; try done.
  all: intros Hbody.
  all: first [ apply Hinner in Hbody as [Hseg Hrb];
               split; [by rewrite Hseg|]; split; [done|]; by intros [=]
             | apply Houter in Hbody as (Hts & Hhd & Hslot);
               split; [done|]; split; [by intros [=]|]; done ].
Qed.

Lemma captured_segments_carry_the_start_time_witness :
  let o := Recording.mk_observation true
             (Audio_tsrt.mk_PaResult 0 "Success") (Audio_tsrt.mk_PaResult 0 "Success")
             (Audio_tsrt.mk_PaResult 0 "Success")
             (replicate (Z.to_nat SAMPLES_PER_HALF_SEGMENT) 1) 9 in
  let started :=
    Recording.init 7 (Audio_Ring_Buffer.init AUDIO_BUFFER_SIZE 7)
      (Scenario.engine_recording 7) [] Heap.empty in
  let s := match started with
           | Ok (s, _) => s
           | _ => Recording.mk AtOuterLoop false (Audio_Segment.default_constructor 7)
                    (Audio_Ring_Buffer.init AUDIO_BUFFER_SIZE 7)
                    (Scenario.engine_recording 7) []
           end in
  let h := match started with Ok (_, h) => h | _ => Heap.empty end in
  let s' := match Recording.pass o s h with
            | Ok (Recording.Next s', _) => s'
            | _ => s
            end in
  Audio_Segment.timestamp (Recording.audio_segment s) = 7
  ∧ Audio_Segment.timestamp (Recording.audio_segment s') = 7
  ∧ Audio_Segment.timestamp
      (Ring_Buffer.buffer (Recording.shared_audio_ring_buffer s') !!! 0%nat) = 7.
Proof.
  intros o started s h s'.
  set (h' := match Recording.pass o s h with
             | Ok (Recording.Next _, h') => h'
             | _ => h
             end).
  destruct (captured_segments_carry_the_start_time o s s' h h')
    as (Hsegment & _ & Hslot).
  - vm_compute. reflexivity.
  - vm_compute. split; [discriminate | reflexivity].
  - destruct (Hslot eq_refl) as [_ Hstamp].
    split; [reflexivity|]. split; [exact Hsegment | exact Hstamp].
Defined.

(** ** The logger *)

Section logger.
Import Logger.

Lemma error_sinks_snoc out e :
  error_sinks (out ++ [e])
  = error_sinks out
    ++ match e with Error_line s _ _ _ _ _ => [s] | _ => [] end.
Proof. unfold error_sinks. rewrite omap_app. by destruct e. Qed.

Lemma info_sinks_snoc out e :
  info_sinks (out ++ [e])
  = info_sinks out
    ++ match e with Info_line s _ _ _ _ => [s] | _ => [] end.
Proof. unfold info_sinks. rewrite omap_app. by destruct e. Qed.

Lemma apply_keeps_statics c st :
  (∀ logger, error_logger st = Some logger → error_logger (apply c st) = Some logger)
  ∧ (∀ logger, info_logger st = Some logger → info_logger (apply c st) = Some logger).
Proof.
  destruct c as [path ex|code m t f l|m t f l]; simpl.
  - destruct path, ex; simpl; by split.
  - unfold log_error.
    match goal with |- context [if ?c then mk _ _ _ _ else _] => destruct c end;
      simpl; [by split|].
    split; [|done]. by intros logger ->.
  - unfold log_info.
    match goal with |- context [if ?c then mk _ _ _ _ else _] => destruct c end;
      simpl; [by split|].
    split; [done|]. by intros logger ->.
Qed.

Lemma apply_lines_follow_statics c st :
  lines_follow_statics st → lines_follow_statics (apply c st).
Proof.
  intros [Herr Hinfo]. unfold lines_follow_statics.
  destruct c as [path ex|code m t f l|m t f l]; unfold apply.
  - destruct path, ex; cbn [init_logging error_logger info_logger output]; try done.
    by rewrite error_sinks_snoc, info_sinks_snoc, !app_nil_r.
  - unfold log_error.
    match goal with |- context [if ?c then mk _ _ _ _ else _] => destruct c end;
      cbn [error_logger info_logger output].
    + by rewrite error_sinks_snoc, info_sinks_snoc, !app_nil_r.
    + rewrite error_sinks_snoc, info_sinks_snoc, app_nil_r. split; [|done].
      destruct (error_logger st) as [logger|].
      * apply Forall_app. split; [done|]. by constructor.
      * rewrite Herr. by constructor.
  - unfold log_info.
    match goal with |- context [if ?c then mk _ _ _ _ else _] => destruct c end;
      cbn [error_logger info_logger output].
    + by rewrite error_sinks_snoc, info_sinks_snoc, !app_nil_r.
    + rewrite error_sinks_snoc, info_sinks_snoc, app_nil_r. split; [done|].
      destruct (info_logger st) as [logger|].
      * apply Forall_app. split; [done|]. by constructor.
      * rewrite Hinfo. by constructor.
Qed.

Lemma run_lines_follow_statics calls st :
  lines_follow_statics st → lines_follow_statics (run calls st).
Proof.
  revert st. induction calls as [|c calls IH]; intros st Hst; simpl; [done|].
  apply IH. by apply apply_lines_follow_statics.
Qed.

Lemma run_keeps_statics calls st :
  (∀ logger, error_logger st = Some logger → error_logger (run calls st) = Some logger)
  ∧ (∀ logger, info_logger st = Some logger → info_logger (run calls st) = Some logger).
Proof.
  revert st. induction calls as [|c calls IH]; intros st; simpl; [done|].
  destruct (apply_keeps_statics c st) as [He Hi].
  destruct (IH (apply c st)) as [He' Hi']. split; eauto.
Qed.

End logger.

(** X23. [log_error] and [log_info] each resolve their logger once, at
    their first valid call, and keep it: all error lines of a run go to one
    sink, and so do all info lines. In particular, once a valid [log_error]
    has run before any [init_logging], every error line goes to [std::cerr],
    whatever is initialised later. *)
Theorem log_lines_keep_their_first_sink (calls : list Logger.call) :
  (∀ s1 s2,
     s1 ∈ Logger.error_sinks (Logger.output (Logger.run calls Logger.start)) →
     s2 ∈ Logger.error_sinks (Logger.output (Logger.run calls Logger.start)) →
     s1 = s2)
  ∧ (∀ s1 s2,
       s1 ∈ Logger.info_sinks (Logger.output (Logger.run calls Logger.start)) →
       s2 ∈ Logger.info_sinks (Logger.output (Logger.run calls Logger.start)) →
       s1 = s2)
  ∧ (∀ status_code message formatted_time filename line_number,
       0 ≤ status_code < Logger.STATUS_CODE_COUNT →
       message ≠ EmptyString → filename ≠ EmptyString → 0 ≤ line_number →
       Forall (λ s, s = Logger.To_cerr)
         (Logger.error_sinks
            (Logger.output
               (Logger.run
                  (Logger.Log_error status_code message formatted_time filename
                     line_number :: calls)
                  Logger.start)))).
Proof.
  assert (Hstart : Logger.lines_follow_statics Logger.start) by done.
  pose proof (run_lines_follow_statics calls _ Hstart) as [Herr Hinfo].
  split; [|split].
  - intros s1 s2 H1 H2.
    destruct (Logger.error_logger _) as [logger|].
    + rewrite Forall_forall in Herr. by rewrite (Herr _ H1), (Herr _ H2).
    + rewrite Herr in H1. by apply elem_of_nil in H1.
  - intros s1 s2 H1 H2.
    destruct (Logger.info_logger _) as [logger|].
    + rewrite Forall_forall in Hinfo. by rewrite (Hinfo _ H1), (Hinfo _ H2).
    + rewrite Hinfo in H1. by apply elem_of_nil in H1.
  - intros code m t f l Hcode Hm Hf Hl. simpl.
    set (st1 := Logger.log_error code m t f l Logger.start).
    assert (Hst1 : st1 = Logger.mk false (Some false) None
                     [Logger.Error_line Logger.To_cerr
                        (Logger.status_code_to_string code) m t f l]).
    { unfold st1, Logger.log_error, Logger.STATUS_CODE_COUNT in *.
      rewrite (proj2 (Z.ltb_ge _ _)) by lia.
      rewrite (proj2 (Z.leb_gt _ _)) by lia.
      rewrite !bool_decide_eq_false_2 by done.
      rewrite (proj2 (Z.ltb_ge _ _)) by lia. done. }
    assert (Hfollow : Logger.lines_follow_statics st1).
    { rewrite Hst1. split; simpl; [|done]. by repeat constructor. }
    pose proof (run_lines_follow_statics calls _ Hfollow) as [Herr1 _].
    destruct (run_keeps_statics calls st1) as [Hkeep _].
    rewrite (Hkeep false) in Herr1 by (by rewrite Hst1). done.
Qed.

Lemma log_lines_keep_their_first_sink_witness :
  Forall (λ s, s = Logger.To_cerr)
    (Logger.error_sinks
       (Logger.output
          (Logger.run
             [Logger.Log_error 2 "Error starting stream" "2024-01-01 00:00:00"
                "main.cpp" 57;
              Logger.Init (inl "/opt/tsrt/bin") None;
              Logger.Log_error 5 "Error adding frame to filter"
                "2024-01-01 00:00:01" "audio_tsrt.cpp" 45]
             Logger.start))).
Proof.
  apply (proj2 (proj2 (log_lines_keep_their_first_sink
                         [Logger.Init (inl "/opt/tsrt/bin") None;
                          Logger.Log_error 5 "Error adding frame to filter"
                            "2024-01-01 00:00:01" "audio_tsrt.cpp" 45]))
           2 "Error starting stream" "2024-01-01 00:00:00" "main.cpp" 57).
  - split; [discriminate | reflexivity].
  - discriminate.
  - discriminate.
  - discriminate.
Defined.

(** ** The ring buffer of segments as a bounded queue *)

Section segment_run.
Import Segment_Run.
Variable Size : Z.
Hypothesis Size_range : 0 < Size < size_t_modulus.

Implicit Types (rb : Ring_Buffer.t Audio_Segment.t) (h : Heap.t).

(** The store after a push: the array of the lazily initialised slot is
    allocated, the array the slot held is freed, and the fresh array, swapped
    into the parameter, is freed with it. *)
Lemma segment_push_eq now arg rb h :
  Audio_Segment.size arg ≠ 0 →
  Audio_Ring_Buffer.push Size now arg rb h
  = Ok ((Ring_Buffer.push Size
           (Audio_Segment.mk (Audio_Segment.audio arg)
              (Ptr (Heap.next h) (Z.quot (Audio_Segment.size arg) 2))
              (Audio_Segment.timestamp arg) (Audio_Segment.size arg)) rb,
         Audio_Segment.mk None (Audio_Segment.midpoint arg)
           (Audio_Segment.timestamp arg) (Audio_Segment.size arg)),
        Heap.free (Heap.next h)
          (match Audio_Segment.audio
                   (Ring_Buffer.buffer rb !!! Z.to_nat (Ring_Buffer.head rb)) with
           | Some old => Heap.free old (Heap.alloc (Audio_Segment.size arg) h).2
           | None => (Heap.alloc (Audio_Segment.size arg) h).2
           end)).
Proof.
  intros Hsz.
  unfold Audio_Ring_Buffer.push, Audio_Segment.move_constructor, noexcept.
  unfold mbind at 1, M_bind at 1.
  unfold Audio_Segment.lazy_initialize, Audio_Segment.get_size.
  cbn [Audio_Segment.size].
  rewrite (proj2 (Z.eqb_neq _ 0) Hsz).
  unfold mbind, M_bind, make_unique, release, mret, M_ret,
    Audio_Segment.move_assign, Audio_Segment.swap, Audio_Segment.destructor.
  cbn [Audio_Segment.audio Audio_Segment.midpoint Audio_Segment.timestamp
       Audio_Segment.size fst snd Heap.alloc].
  destruct (Audio_Segment.audio _) as [old|]; cbn; rewrite Z.add_0_l; reflexivity.
Qed.

Lemma segment_push_empty now arg rb h :
  Audio_Segment.size arg = 0 →
  Audio_Ring_Buffer.push Size now arg rb h = Terminate.
Proof.
  intros Hsz.
  unfold Audio_Ring_Buffer.push, Audio_Segment.move_constructor, noexcept,
    mbind, M_bind, Audio_Segment.lazy_initialize, Audio_Segment.get_size; simpl.
  by rewrite Hsz.
Qed.

Lemma view_push v rb :
  view (Ring_Buffer.push Size v rb)
  = Ring_Buffer.push Size (Carried.of_segment v) (view rb).
Proof. unfold view, Ring_Buffer.push; simpl. by rewrite list_fmap_insert. Qed.

(** A push that returns is, on what the segments carry, the push of the
    generic buffer; and a push returns only for a segment that is not empty. *)
Lemma push_view now arg rb h rb' arg' h' :
  Audio_Ring_Buffer.push Size now arg rb h = Ok ((rb', arg'), h') →
  Audio_Segment.size arg ≠ 0
  ∧ view rb' = Ring_Buffer.push Size (Carried.of_segment arg) (view rb).
Proof.
  destruct (decide (Audio_Segment.size arg = 0)) as [Hz|Hnz].
  - by rewrite segment_push_empty.
  - rewrite segment_push_eq by done. intros [= <- <- <-].
    split; [done|]. by rewrite view_push.
Qed.

Lemma pop_view rb :
  Unread.wf Size (view rb) →
  Ring_Buffer.pop Size (view rb)
  = (Carried.of_segment <$> (Audio_Ring_Buffer.pop Size rb).1,
     view (Audio_Ring_Buffer.pop Size rb).2).
Proof.
  intros (Hlen & Hh & Ht). unfold view in *; simpl in *.
  rewrite length_fmap in Hlen.
  unfold Ring_Buffer.pop, Audio_Ring_Buffer.pop; simpl.
  destruct (Ring_Buffer.head rb =? Ring_Buffer.tail rb); [done|].
  unfold Audio_Segment.move_constructor; simpl.
  rewrite (list_lookup_total_fmap Carried.of_segment (Inhabited0:=Audio_Segment_inhabited)) by lia.
  f_equal. f_equal.
  rewrite list_fmap_insert. simpl.
  apply list_eq. intros j.
  rewrite list_lookup_alter.
  destruct (decide (Z.to_nat (Ring_Buffer.tail rb) = j)) as [<-|Hne].
  - rewrite list_lookup_insert_eq by (rewrite length_fmap; lia).
    rewrite list_lookup_fmap.
    rewrite (list_lookup_lookup_total_lt (Ring_Buffer.buffer rb)) by lia. done.
  - by rewrite list_lookup_insert_ne.
Qed.

Lemma segment_pop_wf rb :
  Unread.wf Size (view rb) →
  Unread.wf Size (view (Audio_Ring_Buffer.pop Size rb).2).
Proof using Size_range.
  intros Hwf. pose proof (pop_wf Size Size_range (view rb) Hwf) as Hwf'.
  by rewrite pop_view in Hwf'.
Qed.

Lemma drain_view fuel rb :
  Unread.wf Size (view rb) →
  Carried.of_segment <$> drain Size fuel rb = Unread.drain Size fuel (view rb).
Proof using Size_range.
  revert rb. induction fuel as [|fuel IH]; intros rb Hwf; simpl; [done|].
  rewrite pop_view by done.
  pose proof (segment_pop_wf rb Hwf) as Hwf'.
  destruct (Audio_Ring_Buffer.pop Size rb) as [[w|] rb']; simpl in *; [|done].
  by rewrite IH.
Qed.

Lemma run_wf {T} `{Element T} (calls : list (Run.call T)) (rb : Ring_Buffer.t T) :
  Unread.wf Size rb → Unread.wf Size (Run.run Size calls rb).2.
Proof using Size_range.
  revert rb. induction calls as [|[v| |] calls IH]; intros rb Hwf; simpl.
  - done.
  - apply IH. by apply push_wf.
  - pose proof (pop_wf Size Size_range rb Hwf) as Hwf'.
    destruct (Ring_Buffer.pop Size rb) as [r rb']. simpl in *.
    specialize (IH rb' Hwf').
    by destruct (Run.run Size calls rb').
  - apply IH. apply clear_wf; [lia|done].
Qed.

(** A run that returns is, on what the segments carry, the run of the
    generic buffer. *)
Lemma run_view now calls rb h rs rb' h' :
  Unread.wf Size (view rb) →
  run Size now calls rb h = Ok ((rs, rb'), h') →
  Run.run (T:=Carried.t) Size (carried <$> calls) (view rb)
  = (fmap (M:=option) Carried.of_segment <$> rs, view rb').
Proof using Size_range.
  revert rb h rs. induction calls as [|[arg| |] calls IH]; intros rb h rs Hwf; csimpl.
  - by intros [= <- <- <-].
  - unfold mbind, M_bind.
    destruct (Audio_Ring_Buffer.push Size now arg rb h) as [[[rb1 arg1] h1]| | |]
      eqn:Hpush; try done.
    apply push_view in Hpush as [_ Hview]. intros Hrun.
    rewrite <- Hview. apply (IH rb1 h1); [|done].
    rewrite Hview. by apply push_wf.
  - rewrite pop_view by done.
    pose proof (segment_pop_wf rb Hwf) as Hwf'.
    destruct (Audio_Ring_Buffer.pop Size rb) as [r rb1]. cbn [fst snd] in *.
    unfold mbind, M_bind.
    destruct (run Size now calls rb1 h) as [[[rs1 rb2] h2]| | |] eqn:Hrun; try done.
    intros [= <- <- <-]. by rewrite (IH rb1 h rs1 Hwf' Hrun).
  - intros Hrun. apply (IH (Ring_Buffer.clear rb) h rs); [|done].
    apply (clear_wf Size (view rb)); [lia|done].
Qed.

(** *** The arrays of the segments in the buffer *)

#[local] Set Warnings "-clear-no-such-hyp".

(** Unfolds duplicate-freeness and membership over appended lists. *)
Ltac list_facts :=
  rewrite ?NoDup_app, ?NoDup_cons, ?NoDup_nil;
  repeat setoid_rewrite elem_of_app;
  repeat setoid_rewrite elem_of_cons;
  repeat setoid_rewrite elem_of_nil.

Lemma omap_audio_insert (buf : list Audio_Segment.t) (i : nat) (v : Audio_Segment.t) :
  (i < length buf)%nat →
  omap Audio_Segment.audio (<[i := v]> buf)
  = omap Audio_Segment.audio (take i buf)
    ++ option_list (Audio_Segment.audio v)
    ++ omap Audio_Segment.audio (drop (S i) buf).
Proof.
  intros Hi. rewrite insert_take_drop by done.
  rewrite omap_app. simpl. by destruct (Audio_Segment.audio v).
Qed.

Lemma omap_audio_split (buf : list Audio_Segment.t) (i : nat) :
  (i < length buf)%nat →
  omap Audio_Segment.audio buf
  = omap Audio_Segment.audio (take i buf)
    ++ option_list (Audio_Segment.audio (buf !!! i))
    ++ omap Audio_Segment.audio (drop (S i) buf).
Proof.
  intros Hi. rewrite <- (omap_audio_insert buf i (buf !!! i)) by done.
  f_equal. symmetry. apply list_insert_id.
  by apply list_lookup_lookup_total_lt.
Qed.

(** Replacing one array of a duplicate-free list by another that, so far,
    came after the list. *)
Lemma NoDup_replace (A B others : list nat) (o : option nat) (b : nat) :
  NoDup ((A ++ option_list o ++ B) ++ b :: others) →
  NoDup ((A ++ [b] ++ B) ++ others)
  ∧ ∀ x, x ∈ (A ++ [b] ++ B) ++ others →
      x ∈ (A ++ option_list o ++ B) ++ b :: others ∧ o ≠ Some x.
Proof.
  destruct o as [old|]; simpl; list_facts; intros Hold.
  - split; [naive_solver|].
    intros x Hx. split; [naive_solver|]. intros [= ->]. naive_solver.
  - split; [naive_solver|].
    intros x Hx. split; [naive_solver|done].
Qed.

Lemma kept_push h0 h sz (buf : list Audio_Segment.t) (i : nat)
    (v : Audio_Segment.t) (b : nat) (others : list nat) :
  (i < length buf)%nat →
  heap_wf h →
  Audio_Segment.audio v = Some b →
  kept h0 h (omap Audio_Segment.audio buf ++ b :: others) →
  let h' := Heap.free (Heap.next h)
              (match Audio_Segment.audio (buf !!! i) with
               | Some old => Heap.free old (Heap.alloc sz h).2
               | None => (Heap.alloc sz h).2
               end) in
  kept h0 h' (omap Audio_Segment.audio (<[i := v]> buf) ++ others) ∧ heap_wf h'.
Proof.
  intros Hi Hwf Hv [Hnodup Hlive] h'.
  rewrite (omap_audio_split buf i) in Hnodup, Hlive by done.
  rewrite omap_audio_insert, Hv by done. simpl option_list.
  apply NoDup_replace in Hnodup as [Hnodup' Hin].
  split; [split; [done|]|].
  - intros x Hx. destruct (Hin x Hx) as [Hx' Hold].
    destruct (Hlive x Hx') as [Hsome Hsame]. split; [done|].
    rewrite <- Hsame.
    assert (x < Heap.next h)%nat as Hlt
      by (apply heap_wf_live; [done|by rewrite Hsame]).
    unfold h'. destruct (Audio_Segment.audio (buf !!! i)) as [old|]; simpl.
    + rewrite lookup_delete_ne by lia.
      rewrite lookup_delete_ne by congruence.
      by rewrite lookup_insert_ne by lia.
    + rewrite lookup_delete_ne by lia.
      by rewrite lookup_insert_ne by lia.
  - unfold h'. apply heap_wf_free.
    destruct (Audio_Segment.audio (buf !!! i)) as [old|].
    + by apply heap_wf_free, heap_wf_alloc.
    + by apply heap_wf_alloc.
Qed.

Lemma kept_pop h0 h (buf : list Audio_Segment.t) (i : nat)
    (pending handed : list nat) :
  (i < length buf)%nat →
  kept h0 h (omap Audio_Segment.audio buf ++ pending ++ handed) →
  kept h0 h
    (omap Audio_Segment.audio
       (<[i := (Audio_Segment.move_constructor (buf !!! i)).2]> buf)
     ++ pending ++ handed ++ option_list (Audio_Segment.audio (buf !!! i))).
Proof.
  intros Hi [Hnodup Hlive].
  rewrite (omap_audio_split buf i) in Hnodup, Hlive by done.
  rewrite omap_audio_insert by done. simpl.
  split.
  - revert Hnodup. destruct (Audio_Segment.audio (buf !!! i)) as [old|]; simpl.
    + list_facts. naive_solver.
    + by rewrite app_nil_r.
  - intros x Hx. apply Hlive. revert Hx.
    destruct (Audio_Segment.audio (buf !!! i)); simpl; list_facts; naive_solver.
Qed.

(** The arrays of the segments a list of pop results returned. *)
Lemma popped_blocks_cons (r : option Audio_Segment.t) rs :
  omap (λ r : option Audio_Segment.t, r ≫= Audio_Segment.audio) (r :: rs)
  = option_list (r ≫= Audio_Segment.audio)
    ++ omap (λ r : option Audio_Segment.t, r ≫= Audio_Segment.audio) rs.
Proof. simpl. by destruct (r ≫= Audio_Segment.audio). Qed.

(** A run whose pushed segments are not empty and own pairwise distinct live
    arrays returns, and the arrays of the popped segments are, with those
    still in the slots, as they were. *)
Lemma run_returns now h0 calls rb h handed :
  Unread.wf Size (view rb) →
  heap_wf h →
  Forall (λ a, Audio_Segment.size a ≠ 0 ∧ is_Some (Audio_Segment.audio a))
    (pushed calls) →
  kept h0 h
    (slot_blocks rb ++ omap Audio_Segment.audio (pushed calls) ++ handed) →
  ∃ rs rb' h',
    run Size now calls rb h = Ok ((rs, rb'), h')
    ∧ heap_wf h'
    ∧ kept h0 h'
        (slot_blocks rb' ++ handed
         ++ omap (λ r : option Audio_Segment.t, r ≫= Audio_Segment.audio) rs).
Proof using Size_range.
  revert rb h handed.
  induction calls as [|[arg| |] calls IH]; intros rb h handed Hwf Hheap Hall Hkept.
  - exists [], rb, h. split; [done|]. split; [done|].
    simpl in *. by rewrite app_nil_r.
  - csimpl in *. apply Forall_cons in Hall as [[Hsz [b Hb]] Hall].
    rewrite Hb in Hkept. csimpl in Hkept.
    pose proof Hwf as (Hlen & Hh & Ht). unfold view in Hlen, Hh, Ht; simpl in *.
    rewrite length_fmap in Hlen.
    set (slot := Audio_Segment.mk (Audio_Segment.audio arg)
                   (Ptr (Heap.next h) (Z.quot (Audio_Segment.size arg) 2))
                   (Audio_Segment.timestamp arg) (Audio_Segment.size arg)).
    set (h1 := Heap.free (Heap.next h)
                 (match Audio_Segment.audio
                          (Ring_Buffer.buffer rb
                           !!! Z.to_nat (Ring_Buffer.head rb)) with
                  | Some old => Heap.free old (Heap.alloc (Audio_Segment.size arg) h).2
                  | None => (Heap.alloc (Audio_Segment.size arg) h).2
                  end)).
    pose proof (kept_push h0 h (Audio_Segment.size arg) (Ring_Buffer.buffer rb)
                  (Z.to_nat (Ring_Buffer.head rb)) slot b
                  (omap Audio_Segment.audio (pushed calls) ++ handed)
                  ltac:(lia) Hheap Hb Hkept) as Hk.
    cbv zeta in Hk. fold h1 in Hk. destruct Hk as [Hkept' Hheap'].
    destruct (IH (Ring_Buffer.push Size slot rb) h1 handed)
      as (rs & rb' & h' & Hrun & Hrest);
      [rewrite view_push; by apply push_wf|exact Hheap'|done|exact Hkept'|].
    exists rs, rb', h'. split; [|done].
    unfold mbind, M_bind. by rewrite segment_push_eq.
  - simpl in Hall, Hkept.
    pose proof Hwf as (Hlen & Hh & Ht). unfold view in Hlen, Hh, Ht; simpl in *.
    rewrite length_fmap in Hlen.
    pose proof (segment_pop_wf rb Hwf) as Hwf'.
    unfold Audio_Ring_Buffer.pop in *.
    destruct (Ring_Buffer.head rb =? Ring_Buffer.tail rb).
    + destruct (IH rb h handed) as (rs & rb' & h' & Hrun & Hrest); [done..|].
      exists (None :: rs), rb', h'. split; [|done].
      unfold mbind, M_bind. by rewrite Hrun.
    + pose proof (kept_pop h0 h (Ring_Buffer.buffer rb)
                    (Z.to_nat (Ring_Buffer.tail rb))
                    (omap Audio_Segment.audio (pushed calls)) handed
                    ltac:(lia) Hkept) as Hkept'.
      set (x := Ring_Buffer.buffer rb !!! Z.to_nat (Ring_Buffer.tail rb)) in *.
      simpl in Hwf'.
      destruct (IH _ h (handed ++ option_list (Audio_Segment.audio x)) Hwf' Hheap Hall)
        as (rs & rb' & h' & Hrun & Hheap' & Hfinal).
      { exact Hkept'. }
      eexists (Some _ :: rs), rb', h'. split; [|split; [done|]].
      * unfold mbind, M_bind. simpl. by rewrite Hrun.
      * rewrite popped_blocks_cons. simpl. by rewrite <- app_assoc in Hfinal.
  - simpl in Hall, Hkept.
    destruct (IH (Ring_Buffer.clear rb) h handed) as (rs & rb' & h' & Hrun & Hrest);
      [apply (clear_wf Size (view rb)); [lia|done]|done..|].
    by exists rs, rb', h'.
Qed.

End segment_run.

Section segment_queue.
Import Segment_Run.
Variable Size : Z.
Hypothesis Size_range : 0 < Size < size_t_modulus.

Lemma init_view_wf now : Unread.wf Size (view (Audio_Ring_Buffer.init Size now)).
Proof using Size_range.
  unfold Unread.wf, view, Audio_Ring_Buffer.init; simpl.
  rewrite length_fmap, length_replicate. lia.
Qed.

Lemma init_view_contents now :
  Unread.contents Size (view (Audio_Ring_Buffer.init Size now)) = [].
Proof. done. Qed.

Lemma init_slot_blocks now : slot_blocks (Audio_Ring_Buffer.init Size now) = [].
Proof.
  unfold slot_blocks, Audio_Ring_Buffer.init; simpl.
  induction (Z.to_nat Size) as [|n IH]; [done|]. simpl. apply IH.
Qed.

Lemma pushable_facts h a :
  pushable h a →
  Audio_Segment.size a ≠ 0
  ∧ ∃ b, Audio_Segment.audio a = Some b ∧ is_Some (Heap.blocks h !! b).
Proof.
  intros [[Hsz _] [data Hdata]]. split; [lia|].
  unfold Audio_Segment.samples, Audio_Segment.get_audio, Heap.load in Hdata.
  destruct (Audio_Segment.audio a) as [b|]; [|done].
  exists b. split; [done|].
  destruct (Heap.blocks h !! b); [by eexists|done].
Qed.

Lemma NoDup_omap_audio (l : list Audio_Segment.t) :
  NoDup (Audio_Segment.audio <$> l) → NoDup (omap Audio_Segment.audio l).
Proof.
  induction l as [|a l IH]; csimpl; [constructor|].
  rewrite NoDup_cons. intros [Hnot Hl].
  destruct (Audio_Segment.audio a) as [b|] eqn:Hb; [|by apply IH].
  apply NoDup_cons. split; [|by apply IH].
  intros Hin. apply Hnot. apply list_elem_of_omap in Hin as (a' & Ha' & Hb').
  apply list_elem_of_fmap. by exists a'.
Qed.

Lemma kept_start h (args : list Audio_Segment.t) :
  Forall (pushable h) args →
  NoDup (Audio_Segment.audio <$> args) →
  kept h h (omap Audio_Segment.audio args).
Proof.
  intros Hall Hnodup. split; [by apply NoDup_omap_audio|].
  intros b Hb. split; [|done].
  apply list_elem_of_omap in Hb as (a & Ha & Hab).
  rewrite Forall_forall in Hall.
  destruct (pushable_facts h a (Hall a Ha)) as (_ & b' & Hb' & Hlive).
  congruence.
Qed.

Lemma samples_same (w a : Audio_Segment.t) h h' :
  Carried.of_segment w = Carried.of_segment a →
  (∀ b, Audio_Segment.audio w = Some b → Heap.blocks h' !! b = Heap.blocks h !! b) →
  Audio_Segment.samples w h' = Audio_Segment.samples a h.
Proof.
  intros [= Haudio _ Hsize] Hsame.
  unfold Audio_Segment.samples, Audio_Segment.get_audio, Heap.load.
  rewrite <- Haudio, <- Hsize.
  destruct (Audio_Segment.audio w) as [b|]; [|done].
  by rewrite (Hsame b).
Qed.

Lemma pushed_pushes_pops (args : list Audio_Segment.t) (n : nat) :
  pushed ((Push <$> args) ++ replicate n Pop) = args.
Proof.
  unfold pushed. rewrite omap_app.
  assert (omap (λ c, match c with Push arg => Some arg | _ => None end)
            (replicate n Pop) = []) as ->.
  { induction n as [|n IH]; [done|]. simpl. apply IH. }
  rewrite app_nil_r. induction args as [|a args IH]; [done|].
  csimpl. by rewrite IH.
Qed.

Lemma carried_pushes_pops (args : list Audio_Segment.t) (n : nat) :
  carried <$> ((Push <$> args) ++ replicate n Pop)
  = (Run.Push <$> (Carried.of_segment <$> args)) ++ replicate n Run.Pop.
Proof.
  rewrite fmap_app, fmap_replicate. simpl. f_equal.
  rewrite <- !list_fmap_compose. done.
Qed.

Lemma run_pushes_pops {T} `{Element T} (vs : list T) (n : nat) (rb : Ring_Buffer.t T) :
  Run.run Size ((Run.Push <$> vs) ++ replicate n Run.Pop) rb
  = Ring_Buffer.pop_n Size n (Ring_Buffer.push_all Size vs rb).
Proof.
  revert rb. induction vs as [|v vs IH]; intros rb; csimpl.
  - revert rb. induction n as [|n IHn]; intros rb; simpl; [done|].
    destruct (Ring_Buffer.pop Size rb) as [r rb']. by rewrite IHn.
  - apply IH.
Qed.

Lemma keep_last_fmap {A B} (f : A → B) (n : nat) (l : list A) :
  Unread.keep_last n (f <$> l) = f <$> Unread.keep_last n l.
Proof. unfold Unread.keep_last. by rewrite fmap_drop, length_fmap. Qed.

Lemma fmap_Some_inv {A B} (f : A → B) (rs : list (option A)) (kept : list B) (k : nat) :
  fmap (M:=option) f <$> rs = (Some <$> kept) ++ replicate k None →
  ∃ ws, rs = (Some <$> ws) ++ replicate k None ∧ f <$> ws = kept.
Proof.
  revert rs. induction kept as [|c kept IH]; intros rs; csimpl.
  - intros Hrs. exists []. split; [|done]. simpl.
    revert rs Hrs. induction k as [|k IHk]; intros [|[w|] rs]; csimpl; try done.
    intros [= Hrs]. by rewrite (IHk rs).
  - destruct rs as [|[w|] rs]; csimpl; try done.
    intros [= Hw Hrs]. destruct (IH rs Hrs) as (ws & -> & <-).
    exists (w :: ws). by rewrite <- Hw.
Qed.

Lemma Forall2_with_l {A B} (P : A → B → Prop) (Q : A → Prop) l k :
  Forall2 P l k → Forall Q l → Forall2 (λ x y, P x y ∧ Q x) l k.
Proof.
  induction 1 as [|x y l k Hxy Hlk IH]; [constructor|].
  intros [Hx Hl]%Forall_cons. constructor; auto.
Qed.

(** Pushes into the empty buffer of segments, then pops. *)
Lemma segment_pushes_then_pops now (args : list Audio_Segment.t) (k : nat) h :
  heap_wf h →
  Forall (pushable h) args →
  NoDup (Audio_Segment.audio <$> args) →
  let kept_args := Unread.keep_last (Z.to_nat (Size - 1)) args in
  ∃ ws rb' h',
    run Size now ((Push <$> args) ++ replicate (length kept_args + k) Pop)
      (Audio_Ring_Buffer.init Size now) h
    = Ok (((Some <$> ws) ++ replicate k None, rb'), h')
    ∧ Forall2 (λ w a,
        Carried.of_segment w = Carried.of_segment a
        ∧ Audio_Segment.samples w h' = Audio_Segment.samples a h) ws kept_args.
Proof using Size_range.
  intros Hheap Hall Hnodup kept_args.
  set (calls := (Push <$> args) ++ replicate (length kept_args + k) Pop).
  destruct (run_returns Size Size_range now h calls
              (Audio_Ring_Buffer.init Size now) h [])
    as (rs & rb' & h' & Hrun & Hheap' & Hkept).
  { apply init_view_wf. }
  { done. }
  { unfold calls. rewrite pushed_pushes_pops.
    eapply Forall_impl; [exact Hall|]. intros a Ha.
    destruct (pushable_facts h a Ha) as (? & b & -> & _). split; [done|by eexists]. }
  { unfold calls. rewrite pushed_pushes_pops, init_slot_blocks, app_nil_r. simpl.
    by apply kept_start. }
  pose proof (run_view Size Size_range now calls _ h rs rb' h'
                (init_view_wf now) Hrun) as Hview.
  unfold calls in Hview. rewrite carried_pushes_pops, run_pushes_pops in Hview.
  apply (f_equal fst) in Hview. simpl in Hview.
  rewrite (pop_n_contents Size Size_range) in Hview
    by apply (push_all_wf Size Size_range), init_view_wf.
  rewrite (push_all_contents Size Size_range) in Hview by apply init_view_wf.
  rewrite init_view_contents in Hview. simpl in Hview.
  rewrite keep_last_fmap in Hview. fold kept_args in Hview.
  rewrite firstn_all2 in Hview by (rewrite length_fmap; lia).
  rewrite length_fmap in Hview.
  replace (length kept_args + k - length kept_args)%nat with k in Hview by lia.
  symmetry in Hview. apply fmap_Some_inv in Hview as (ws & -> & Hws).
  exists ws, rb', h'. split; [done|].
  assert (Forall2 (λ w a, Carried.of_segment w = Carried.of_segment a)
            ws kept_args) as Hcarried.
  { apply Forall2_fmap. rewrite Hws. reflexivity. }
  assert (Forall (λ w, ∀ b, Audio_Segment.audio w = Some b →
                        Heap.blocks h' !! b = Heap.blocks h !! b) ws) as Hsame.
  { apply Forall_forall. intros w Hw b Hb. destruct Hkept as [_ Hlive].
    apply Hlive. rewrite !elem_of_app. right; right.
    apply list_elem_of_omap. exists (Some w). split; [|done].
    apply elem_of_app. left. apply list_elem_of_fmap. by exists w. }
  eapply Forall2_impl; [apply Forall2_with_l; [exact Hcarried|exact Hsame]|].
  intros w a [Hwa Hb]. split; [done|]. by apply samples_same.
Qed.

End segment_queue.

(** *** What a push does *)

Section push_characterised.
Import Ring_Buffer Unread.
Context `{Element T}.
Variable Size : Z.
Hypothesis Size_range : 0 < Size < size_t_modulus.

Lemma drain_all (rb : Ring_Buffer.t T) :
  wf Size rb → drain Size (Z.to_nat Size) rb = contents Size rb.
Proof using Size_range.
  intros Hwf. rewrite (drain_contents Size Size_range) by done.
  apply firstn_all2. rewrite length_contents.
  pose proof (count_bound Size Size_range rb). lia.
Qed.

(** What a push does, by whether [Size - 1] values are unread. *)
Lemma push_characterised (v : T) (rb : Ring_Buffer.t T) :
  wf Size rb →
  let unread := drain Size (Z.to_nat Size) rb in
  let full := Z.of_nat (length unread) =? Size - 1 in
  head (push Size v rb) = wrap_index Size (size_t_add (head rb) 1)
  ∧ tail (push Size v rb)
    = (if full then wrap_index Size (size_t_add (tail rb) 1) else tail rb)
  ∧ (full = true ↔ wrap_index Size (size_t_add (head rb) 1) = tail rb)
  ∧ drain Size (Z.to_nat Size) (push Size v rb)
    = if full then drop 1 (unread ++ [v]) else unread ++ [v].
Proof using Size_range.
  intros Hwf unread full. pose proof Hwf as (Hlen & Hh & Ht).
  pose proof (count_bound Size Size_range rb) as Hc.
  pose proof (length_contents Size rb) as Hl.
  assert (unread = contents Size rb) as Hunread by (by apply drain_all).
  assert (full = true ↔ count Size rb = Size - 1) as Hfull.
  { unfold full. rewrite Hunread, Z.eqb_eq. lia. }
  assert (wrap_index Size (size_t_add (head rb) 1) = tail rb
          ↔ count Size rb = Size - 1) as Hmeet.
  { rewrite (next_index Size Size_range) by done. unfold count.
    destruct (mod_cases Size Size_range (head rb + 1) ltac:(lia))
      as [[? E1]|[[? E1]|[? E1]]];
    destruct (mod_cases Size Size_range (head rb - tail rb) ltac:(lia))
      as [[? E2]|[[? E2]|[? E2]]]; rewrite E1, E2; lia. }
  split; [done|]. split; [|split; [by rewrite Hfull, Hmeet|]].
  - unfold push; simpl.
    destruct (Z.eqb_spec (wrap_index Size (size_t_add (head rb) 1)) (tail rb))
      as [Heq|Hne].
    + by rewrite (proj2 Hfull (proj1 Hmeet Heq)).
    + destruct full; [|done]. destruct Hne. apply Hmeet, Hfull. done.
  - rewrite drain_all by (by apply (push_wf Size Size_range)).
    rewrite (push_contents Size Size_range) by done. rewrite Hunread.
    destruct full eqn:Hf.
    + unfold keep_last. f_equal. rewrite length_app. simpl.
      assert (count Size rb = Size - 1) by (by apply Hfull). lia.
    + apply keep_last_all. rewrite length_app. simpl.
      assert (count Size rb ≠ Size - 1) by (intros E; apply Hfull in E; done).
      lia.
Qed.

End push_characterised.

(** *** The two buffers the program instantiates *)

(** C2, as stated, fails when N equals the capacity: sixteen values pushed
    into the empty buffer of capacity 16 leave fifteen to pop; the first
    pushed value is gone. *)
Lemma capacity_pushes_lose_the_first :
  (Ring_Buffer.pop_n 16 17 (Ring_Buffer.push_all 16 (seqZ 0 16) (Ring_Buffer.init 16))).1
  = (Some <$> seqZ 1 15) ++ [None; None]
  ∧ (Ring_Buffer.pop_n 16 17 (Ring_Buffer.push_all 16 (seqZ 0 16) (Ring_Buffer.init 16))).1
    ≠ (Some <$> seqZ 0 16) ++ [None].
Proof. split; [by vm_compute | by vm_compute]. Qed.

(** C2, amended. After N pushes into the empty buffer with
    N ≤ capacity - 1, the pops return what was pushed, in push order, and
    then empty, every time. In the buffer of time points these are the
    pushed values. In the buffer of segments, where the pushed segments must
    not be empty and must own distinct live arrays, every popped segment has
    the array, the timestamp and the size of the pushed one, and the array
    holds the samples it held when pushed; the midpoint is not among what
    comes back. Pushing an empty segment ends the process instead. *)
Theorem pops_return_pushes_below_capacity (Size : Z) (values : list Z) (k : nat)
    (now : Z) (args : list Audio_Segment.t) (empty : Audio_Segment.t)
    (h : Heap.t) :
  0 < Size < size_t_modulus →
  Z.of_nat (length values) ≤ Size - 1 →
  Z.of_nat (length args) ≤ Size - 1 →
  heap_wf h →
  Forall (Segment_Run.pushable h) args →
  NoDup (Audio_Segment.audio <$> args) →
  Audio_Segment.size empty = 0 →
  (Ring_Buffer.pop_n Size (length values + k)
     (Ring_Buffer.push_all Size values (Ring_Buffer.init Size))).1
  = (Some <$> values) ++ replicate k None
  ∧ (∃ popped rb' h',
       Segment_Run.run Size now
         ((Segment_Run.Push <$> args)
          ++ replicate (length args + k) Segment_Run.Pop)
         (Audio_Ring_Buffer.init Size now) h
       = Ok (((Some <$> popped) ++ replicate k None, rb'), h')
       ∧ Forall2 (λ w a,
           Carried.of_segment w = Carried.of_segment a
           ∧ Audio_Segment.samples w h' = Audio_Segment.samples a h)
           popped args)
  ∧ Audio_Ring_Buffer.push Size now empty (Audio_Ring_Buffer.init Size now) h
    = Terminate.
Proof.
  intros HS Hvalues Hargs Hheap Hall Hnodup Hempty. split; [|split].
  - pose proof (push_all_then_pops Size HS values k) as Hp.
    simpl in Hp. by rewrite keep_last_all in Hp by lia.
  - pose proof (segment_pushes_then_pops Size HS now args k h Hheap Hall Hnodup)
      as Hp.
    simpl in Hp. by rewrite keep_last_all in Hp by lia.
  - by apply segment_push_empty.
Qed.

Lemma pops_return_pushes_below_capacity_witness :
  let a1 := Audio_Segment.mk (Some 0%nat) (Ptr 0 1) 7 3 in
  let a2 := Audio_Segment.mk (Some 1%nat) (Ptr 1 1) 8 2 in
  let h := Heap.mk (<[ 1%nat := [8; 9] ]> {[ 0%nat := [4; 5; 6] ]}) 2 in
  (Ring_Buffer.pop_n 16 (length [10; 20; 30] + 2)
     (Ring_Buffer.push_all 16 [10; 20; 30] (Ring_Buffer.init 16))).1
  = (Some <$> [10; 20; 30]) ++ replicate 2 None
  ∧ (∃ popped rb' h',
       Segment_Run.run 16 9
         ((Segment_Run.Push <$> [a1; a2])
          ++ replicate (length [a1; a2] + 2) Segment_Run.Pop)
         (Audio_Ring_Buffer.init 16 9) h
       = Ok (((Some <$> popped) ++ replicate 2 None, rb'), h')
       ∧ Forall2 (λ w a,
           Carried.of_segment w = Carried.of_segment a
           ∧ Audio_Segment.samples w h' = Audio_Segment.samples a h)
           popped [a1; a2])
  ∧ Audio_Ring_Buffer.push 16 9 (Audio_Segment.default_constructor 1)
      (Audio_Ring_Buffer.init 16 9) h
    = Terminate.
Proof.
  apply (pops_return_pushes_below_capacity 16 [10; 20; 30] 2 9
           [Audio_Segment.mk (Some 0%nat) (Ptr 0 1) 7 3;
            Audio_Segment.mk (Some 1%nat) (Ptr 1 1) 8 2]
           (Audio_Segment.default_constructor 1)
           (Heap.mk (<[ 1%nat := [8; 9] ]> {[ 0%nat := [4; 5; 6] ]}) 2)).
  - split; reflexivity.
  - simpl. lia.
  - simpl. lia.
  - intros b Hb. simpl in *.
    rewrite lookup_insert_ne by lia. apply lookup_singleton_ne. lia.
  - repeat constructor; simpl; try lia; eexists; reflexivity.
  - apply (bool_decide_unpack _). vm_compute. exact I.
  - reflexivity.
Defined.

(** C3, as stated, fails: after seventeen pushes into the buffer of capacity
    16 the pops return fifteen values, not the last sixteen. *)
Lemma overflow_keeps_fifteen_not_sixteen :
  (Ring_Buffer.pop_n 16 17 (Ring_Buffer.push_all 16 (seqZ 0 17) (Ring_Buffer.init 16))).1
  = (Some <$> seqZ 2 15) ++ [None; None]
  ∧ (Ring_Buffer.pop_n 16 17 (Ring_Buffer.push_all 16 (seqZ 0 17) (Ring_Buffer.init 16))).1
    ≠ (Some <$> Unread.keep_last 16 (seqZ 0 17)) ++ [None].
Proof. split; [by vm_compute | by vm_compute]. Qed.

(** C3, amended. After N pushes into the empty buffer with N > capacity, the
    pops return the last capacity - 1 of what was pushed, oldest of those
    first, and then empty, every time. In the buffer of time points these
    are the pushed values. In the buffer of segments, where the pushed
    segments must not be empty and must own distinct live arrays, every
    popped segment has the array, the timestamp and the size of the pushed
    one, and the array holds the samples it held when pushed. *)
Theorem pops_return_newest_above_capacity (Size : Z) (values : list Z) (k : nat)
    (now : Z) (args : list Audio_Segment.t) (h : Heap.t) :
  0 < Size < size_t_modulus →
  Size < Z.of_nat (length values) →
  Size < Z.of_nat (length args) →
  heap_wf h →
  Forall (Segment_Run.pushable h) args →
  NoDup (Audio_Segment.audio <$> args) →
  let kept := Unread.keep_last (Z.to_nat (Size - 1)) values in
  let kept_args := Unread.keep_last (Z.to_nat (Size - 1)) args in
  Z.of_nat (length kept) = Size - 1
  ∧ (Ring_Buffer.pop_n Size (length kept + k)
       (Ring_Buffer.push_all Size values (Ring_Buffer.init Size))).1
    = (Some <$> kept) ++ replicate k None
  ∧ Z.of_nat (length kept_args) = Size - 1
  ∧ ∃ popped rb' h',
      Segment_Run.run Size now
        ((Segment_Run.Push <$> args)
         ++ replicate (length kept_args + k) Segment_Run.Pop)
        (Audio_Ring_Buffer.init Size now) h
      = Ok (((Some <$> popped) ++ replicate k None, rb'), h')
      ∧ Forall2 (λ w a,
          Carried.of_segment w = Carried.of_segment a
          ∧ Audio_Segment.samples w h' = Audio_Segment.samples a h)
          popped kept_args.
Proof.
  intros HS Hvalues Hargs Hheap Hall Hnodup kept kept_args.
  split; [unfold kept; rewrite length_keep_last; lia|].
  split; [apply (push_all_then_pops Size HS values k)|].
  split; [unfold kept_args; rewrite length_keep_last; lia|].
  apply (segment_pushes_then_pops Size HS now args k h Hheap Hall Hnodup).
Qed.

Lemma pops_return_newest_above_capacity_witness :
  let segment (i : nat) := Audio_Segment.mk (Some i) (Ptr i 1) (Z.of_nat i + 10) 2 in
  let args := segment <$> seq 0 5 in
  let h := Heap.mk (list_to_map ((λ i : nat, (i, [Z.of_nat i; 0])) <$> seq 0 5)) 5 in
  let kept := Unread.keep_last (Z.to_nat (3 - 1)) [1; 2; 3; 4; 5] in
  let kept_args := Unread.keep_last (Z.to_nat (3 - 1)) args in
  Z.of_nat (length kept) = 3 - 1
  ∧ (Ring_Buffer.pop_n 3 (length kept + 1)
       (Ring_Buffer.push_all 3 [1; 2; 3; 4; 5] (Ring_Buffer.init 3))).1
    = (Some <$> kept) ++ replicate 1 None
  ∧ Z.of_nat (length kept_args) = 3 - 1
  ∧ ∃ popped rb' h',
      Segment_Run.run 3 9
        ((Segment_Run.Push <$> args)
         ++ replicate (length kept_args + 1) Segment_Run.Pop)
        (Audio_Ring_Buffer.init 3 9) h
      = Ok (((Some <$> popped) ++ replicate 1 None, rb'), h')
      ∧ Forall2 (λ w a,
          Carried.of_segment w = Carried.of_segment a
          ∧ Audio_Segment.samples w h' = Audio_Segment.samples a h)
          popped kept_args.
Proof.
  apply (pops_return_newest_above_capacity 3 [1; 2; 3; 4; 5] 1 9
           ((λ i : nat, Audio_Segment.mk (Some i) (Ptr i 1) (Z.of_nat i + 10) 2)
              <$> seq 0 5)
           (Heap.mk (list_to_map ((λ i : nat, (i, [Z.of_nat i; 0])) <$> seq 0 5)) 5)).
  - split; reflexivity.
  - simpl. lia.
  - simpl. lia.
  - intros b Hb. simpl in Hb. unfold Heap.blocks.
    apply not_elem_of_list_to_map_1.
    simpl. rewrite !elem_of_cons, elem_of_nil. lia.
  - repeat constructor; simpl; try lia; eexists; vm_compute; reflexivity.
  - apply (bool_decide_unpack _). vm_compute. exact I.
Defined.

(** C9, as stated, fails in the buffer of segments: a push of an empty
    segment onto fifteen unread segments moves neither head nor tail;
    [lazy_initialize] throws inside the [noexcept] push and the process
    ends. *)
Lemma empty_segment_push_ends_the_process :
  let segment (i : nat) := Audio_Segment.mk (Some i) (Ptr i 1) (Z.of_nat i + 10) 2 in
  let h0 := Heap.mk (list_to_map ((λ i : nat, (i, [Z.of_nat i; 0])) <$> seq 0 15)) 15 in
  match Segment_Run.run 16 9 (Segment_Run.Push <$> (segment <$> seq 0 15))
          (Audio_Ring_Buffer.init 16 9) h0 with
  | Ok ((_, segments), h) =>
      length (Segment_Run.drain 16 16 segments) = 15%nat
      ∧ Audio_Ring_Buffer.push 16 9 (Audio_Segment.default_constructor 9) segments h
        = Terminate
  | _ => False
  end.
Proof. vm_compute. split; reflexivity. Qed.

(** C9, amended. In every state reachable from the empty buffer, at most
    capacity - 1 elements are unread: draining yields at most capacity - 1
    values, and in the buffer of time points a pop after capacity - 1 pops
    answers empty. A push of a time point, or of a segment that is not empty,
    moves the head on by one; exactly when capacity - 1 elements are unread
    the new head equals the tail, the tail moves on as well and the oldest
    element is no longer popped, and otherwise the tail stays and the pushed
    element is the last to be popped. A push of an empty segment ends the
    process. *)
Theorem unread_at_most_capacity_minus_one (Size : Z)
    (rb : Ring_Buffer.t Z) (value : Z)
    (now : Z) (calls : list Segment_Run.call) (h0 : Heap.t)
    (results : list (option Audio_Segment.t))
    (segments : Ring_Buffer.t Audio_Segment.t) (h : Heap.t)
    (arg empty : Audio_Segment.t) :
  0 < Size < size_t_modulus →
  Unread.reachable Size rb →
  Segment_Run.run Size now calls (Audio_Ring_Buffer.init Size now) h0
  = Ok ((results, segments), h) →
  0 < Audio_Segment.size arg < float_array_limit →
  Audio_Segment.size empty = 0 →
  ((∀ fuel, Z.of_nat (length (Unread.drain Size fuel rb)) ≤ Size - 1)
   ∧ (∀ n : nat, (Z.to_nat (Size - 1) ≤ n)%nat →
        (Ring_Buffer.pop_n Size (S n) rb).1 !! n = Some None)
   ∧ let unread := Unread.drain Size (Z.to_nat Size) rb in
     let full := Z.of_nat (length unread) =? Size - 1 in
     Ring_Buffer.head (Ring_Buffer.push Size value rb)
     = Ring_Buffer.wrap_index Size (size_t_add (Ring_Buffer.head rb) 1)
     ∧ Ring_Buffer.tail (Ring_Buffer.push Size value rb)
       = (if full
          then Ring_Buffer.wrap_index Size (size_t_add (Ring_Buffer.tail rb) 1)
          else Ring_Buffer.tail rb)
     ∧ (full = true
        ↔ Ring_Buffer.wrap_index Size (size_t_add (Ring_Buffer.head rb) 1)
          = Ring_Buffer.tail rb)
     ∧ Unread.drain Size (Z.to_nat Size) (Ring_Buffer.push Size value rb)
       = if full then drop 1 (unread ++ [value]) else unread ++ [value])
  ∧ ((∀ fuel, Z.of_nat (length (Segment_Run.drain Size fuel segments)) ≤ Size - 1)
     ∧ let unread := Segment_Run.drain Size (Z.to_nat Size) segments in
       let full := Z.of_nat (length unread) =? Size - 1 in
       (∃ segments' arg' h',
          Audio_Ring_Buffer.push Size now arg segments h
          = Ok ((segments', arg'), h')
          ∧ Ring_Buffer.head segments'
            = Ring_Buffer.wrap_index Size
                (size_t_add (Ring_Buffer.head segments) 1)
          ∧ Ring_Buffer.tail segments'
            = (if full
               then Ring_Buffer.wrap_index Size
                      (size_t_add (Ring_Buffer.tail segments) 1)
               else Ring_Buffer.tail segments)
          ∧ Carried.of_segment <$> Segment_Run.drain Size (Z.to_nat Size) segments'
            = if full
              then drop 1 ((Carried.of_segment <$> unread)
                           ++ [Carried.of_segment arg])
              else (Carried.of_segment <$> unread) ++ [Carried.of_segment arg])
       ∧ (full = true
          ↔ Ring_Buffer.wrap_index Size
              (size_t_add (Ring_Buffer.head segments) 1)
            = Ring_Buffer.tail segments)
       ∧ Audio_Ring_Buffer.push Size now empty segments h = Terminate).
Proof.
  intros HS Hr Hrun Harg Hempty.
  pose proof (reachable_wf Size HS rb Hr) as Hwf.
  split.
  { split; [|split].
    - intros fuel. rewrite drain_contents by done.
      rewrite length_take, length_contents.
      pose proof (count_bound Size HS rb). lia.
    - intros n Hn. by apply reachable_pops_bounded.
    - by apply push_characterised. }
  pose proof (run_view Size HS now calls _ h0 results segments h
                (init_view_wf Size HS now) Hrun) as Hview.
  assert (Unread.wf Size (Segment_Run.view segments)) as Hswf.
  { pose proof (run_wf Size HS (Segment_Run.carried <$> calls)
                  (Segment_Run.view (Audio_Ring_Buffer.init Size now))
                  (init_view_wf Size HS now)) as Hw.
    by rewrite Hview in Hw. }
  split.
  { intros fuel.
    rewrite <- (length_fmap Carried.of_segment).
    rewrite drain_view by done. rewrite drain_contents by done.
    rewrite length_take, length_contents.
    pose proof (count_bound Size HS (Segment_Run.view segments)). lia. }
  intros unread full.
  pose proof (push_characterised Size HS (Carried.of_segment arg)
                (Segment_Run.view segments) Hswf) as Hpush.
  cbv zeta in Hpush.
  rewrite <- (drain_view Size HS) in Hpush by done.
  rewrite length_fmap in Hpush. fold unread full in Hpush.
  destruct Hpush as (Hhead & Htail & Hmeet & Hdrain).
  split; [|split; [exact Hmeet|by apply segment_push_empty]].
  rewrite segment_push_eq by lia.
  set (slot := Audio_Segment.mk (Audio_Segment.audio arg)
                 (Ptr (Heap.next h) (Z.quot (Audio_Segment.size arg) 2))
                 (Audio_Segment.timestamp arg) (Audio_Segment.size arg)).
  assert (Segment_Run.view (Ring_Buffer.push Size slot segments)
          = Ring_Buffer.push Size (Carried.of_segment arg)
              (Segment_Run.view segments)) as Hv
    by exact (view_push Size slot segments).
  rewrite <- Hv in Hhead, Htail, Hdrain.
  eexists _, _, _. split; [reflexivity|].
  split; [exact Hhead|]. split; [exact Htail|].
  rewrite drain_view; [exact Hdrain|done|].
  rewrite Hv. by apply push_wf.
Qed.

Lemma unread_at_most_capacity_minus_one_witness :
  let segment (i : nat) := Audio_Segment.mk (Some i) (Ptr i 1) (Z.of_nat i + 10) 2 in
  let h0 := Heap.mk (list_to_map ((λ i : nat, (i, [Z.of_nat i; 0])) <$> seq 0 16)) 16 in
  let calls := Segment_Run.Push <$> (segment <$> seq 0 15) in
  let reached := Segment_Run.run 16 9 calls (Audio_Ring_Buffer.init 16 9) h0 in
  let segments := match reached with
                  | Ok ((_, segments), _) => segments
                  | _ => Audio_Ring_Buffer.init 16 9
                  end in
  let h := match reached with Ok (_, h) => h | _ => h0 end in
  let rb := Ring_Buffer.push_all 16 (seqZ 0 15) (Ring_Buffer.init 16) in
  Ring_Buffer.tail (Ring_Buffer.push 16 99 rb) = 1
  ∧ Unread.drain 16 16 (Ring_Buffer.push 16 99 rb) = seqZ 1 14 ++ [99]
  ∧ ∃ segments' arg' h',
      Audio_Ring_Buffer.push 16 9 (segment 15%nat) segments h
      = Ok ((segments', arg'), h')
      ∧ Ring_Buffer.tail segments' = 1
      ∧ Carried.of_segment <$> Segment_Run.drain 16 16 segments'
        = Carried.of_segment <$> (segment <$> seq 1 15).
Proof.
  intros segment h0 calls reached segments h rb.
  destruct (unread_at_most_capacity_minus_one 16 rb 99 9 calls h0
              (replicate 0 None) segments h (segment 15%nat)
              (Audio_Segment.default_constructor 9))
    as ((_ & _ & _ & Htail & _ & Hdrain) & _ & Hpush & _ & _).
  - split; reflexivity.
  - apply reachable_push_all, Unread.reachable_init.
  - vm_compute. reflexivity.
  - split; reflexivity.
  - reflexivity.
  - split; [exact Htail|]. split; [exact Hdrain|].
    destruct Hpush as (segments' & arg' & h' & Hok & _ & Htail' & Hdrain').
    exists segments', arg', h'. split; [exact Hok|]. split; [exact Htail'|].
    exact Hdrain'.
Defined.

(** X4. The ring buffer is a bounded queue: in any run of pushes, pops and
    clears on a fresh buffer, each pop returns what a first-in first-out queue
    returns that holds at most Size - 1 values and drops its oldest value to
    take one more. In the buffer of time points the pops return the pushed
    values. In the buffer of segments, where the pushed segments must not be
    empty and must own distinct live arrays, the run returns, the pops return
    segments with the array, timestamp and size the queue gives, and the
    samples of every popped segment are as they were before the run. *)
Theorem run_refines_queue (Size : Z) (calls : list (Run.call Z))
    (now : Z) (segment_calls : list Segment_Run.call) (h : Heap.t) :
  0 < Size < size_t_modulus →
  heap_wf h →
  Forall (Segment_Run.pushable h) (Segment_Run.pushed segment_calls) →
  NoDup (Audio_Segment.audio <$> Segment_Run.pushed segment_calls) →
  (Run.run Size calls (Ring_Buffer.init Size)).1
  = (Run.queue (Z.to_nat (Size - 1)) calls []).1
  ∧ ∃ results rb' h',
      Segment_Run.run Size now segment_calls (Audio_Ring_Buffer.init Size now) h
      = Ok ((results, rb'), h')
      ∧ fmap (M:=option) Carried.of_segment <$> results
        = (Run.queue (Z.to_nat (Size - 1))
             (Segment_Run.carried <$> segment_calls) []).1
      ∧ Forall (λ r, ∀ w, r = Some w →
           Audio_Segment.samples w h' = Audio_Segment.samples w h) results.
Proof.
  intros HS Hheap Hall Hnodup. split.
  { destruct (run_refines_queue_from Size calls (Ring_Buffer.init Size) HS
                (init_wf Size HS)) as [Hr _].
    by rewrite init_contents in Hr. }
  destruct (run_returns Size HS now h segment_calls
              (Audio_Ring_Buffer.init Size now) h [])
    as (rs & rb' & h' & Hrun & Hheap' & Hkept).
  { apply init_view_wf; done. }
  { done. }
  { eapply Forall_impl; [exact Hall|]. intros a Ha.
    destruct (pushable_facts h a Ha) as (? & b & -> & _). split; [done|by eexists]. }
  { rewrite init_slot_blocks, app_nil_r. simpl. by apply kept_start. }
  exists rs, rb', h'. split; [done|]. split.
  - pose proof (run_view Size HS now segment_calls _ h rs rb' h'
                  (init_view_wf Size HS now) Hrun) as Hview.
    destruct (run_refines_queue_from Size (Segment_Run.carried <$> segment_calls)
                (Segment_Run.view (Audio_Ring_Buffer.init Size now)) HS
                (init_view_wf Size HS now)) as [Hr _].
    rewrite Hview in Hr. simpl in Hr. rewrite Hr. done.
  - apply Forall_forall. intros r Hr w ->.
    apply samples_same; [done|]. intros b Hb. destruct Hkept as [_ Hlive].
    apply Hlive. rewrite !elem_of_app. right; right.
    apply list_elem_of_omap. by exists (Some w).
Qed.

Lemma run_refines_queue_witness :
  let a1 := Audio_Segment.mk (Some 0%nat) (Ptr 0 1) 7 3 in
  let a2 := Audio_Segment.mk (Some 1%nat) (Ptr 1 1) 8 2 in
  let a3 := Audio_Segment.mk (Some 2%nat) (Ptr 2 0) 9 1 in
  let h := Heap.mk (list_to_map [(0%nat, [4; 5; 6]); (1%nat, [8; 9]); (2%nat, [3])]) 3 in
  let calls := [Run.Push 1; Run.Push 2; Run.Pop; Run.Push 3; Run.Push 4; Run.Push 5;
                Run.Pop; Run.Clear; Run.Pop; Run.Push 6; Run.Pop] in
  let segment_calls :=
    [Segment_Run.Push a1; Segment_Run.Pop; Segment_Run.Push a2; Segment_Run.Push a3;
     Segment_Run.Pop; Segment_Run.Clear; Segment_Run.Pop] in
  (Run.run 4 calls (Ring_Buffer.init 4)).1
  = (Run.queue (Z.to_nat (4 - 1)) calls []).1
  ∧ ∃ results rb' h',
      Segment_Run.run 4 9 segment_calls (Audio_Ring_Buffer.init 4 9) h
      = Ok ((results, rb'), h')
      ∧ fmap (M:=option) Carried.of_segment <$> results
        = (Run.queue (Z.to_nat (4 - 1))
             (Segment_Run.carried <$> segment_calls) []).1
      ∧ Forall (λ r, ∀ w, r = Some w →
           Audio_Segment.samples w h' = Audio_Segment.samples w h) results.
Proof.
  apply (run_refines_queue 4
    [Run.Push 1; Run.Push 2; Run.Pop; Run.Push 3; Run.Push 4; Run.Push 5;
     Run.Pop; Run.Clear; Run.Pop; Run.Push 6; Run.Pop] 9
    [Segment_Run.Push (Audio_Segment.mk (Some 0%nat) (Ptr 0 1) 7 3);
     Segment_Run.Pop;
     Segment_Run.Push (Audio_Segment.mk (Some 1%nat) (Ptr 1 1) 8 2);
     Segment_Run.Push (Audio_Segment.mk (Some 2%nat) (Ptr 2 0) 9 1);
     Segment_Run.Pop; Segment_Run.Clear; Segment_Run.Pop]
    (Heap.mk (list_to_map [(0%nat, [4; 5; 6]); (1%nat, [8; 9]); (2%nat, [3])]) 3)).
  - split; reflexivity.
  - intros b Hb. simpl in Hb. unfold Heap.blocks.
    apply not_elem_of_list_to_map_1.
    simpl. rewrite !elem_of_cons, elem_of_nil. lia.
  - repeat constructor; simpl; try lia; eexists; vm_compute; reflexivity.
  - apply (bool_decide_unpack _). vm_compute. exact I.
Defined.

(** ** The first-segment flag of the stitcher *)

(** A pass that leaves [first_segment] set has consumed nothing and changed
    nothing but the loop it is at. *)
Lemma pass_keeping_first_segment o s h s' h' :
  Preprocessing.pass o s h = Ok (Preprocessing.Next s', h') →
  Preprocessing.first_segment s' = true →
  Preprocessing.first_segment s = true
  ∧ Preprocessing.shared_audio_ring_buffer s' = Preprocessing.shared_audio_ring_buffer s
  ∧ Preprocessing.full_audio_segment s' = Preprocessing.full_audio_segment s
  ∧ Preprocessing.current_timestamp s' = Preprocessing.current_timestamp s
  ∧ Preprocessing.last_timestamp s' = Preprocessing.last_timestamp s
  ∧ Preprocessing.engine s' = Preprocessing.engine s
  ∧ h' = h.
Proof.
  assert (Hbody : Preprocessing.outer_body o s h = Ok (Preprocessing.Next s', h') →
            Preprocessing.first_segment s' = true →
            Preprocessing.first_segment s = true
            ∧ Preprocessing.shared_audio_ring_buffer s'
              = Preprocessing.shared_audio_ring_buffer s
            ∧ Preprocessing.full_audio_segment s' = Preprocessing.full_audio_segment s
            ∧ Preprocessing.current_timestamp s' = Preprocessing.current_timestamp s
            ∧ Preprocessing.last_timestamp s' = Preprocessing.last_timestamp s
            ∧ Preprocessing.engine s' = Preprocessing.engine s
            ∧ h' = h).
  { unfold Preprocessing.outer_body, Audio_Ring_Buffer.pop.
    destruct (Ring_Buffer.head _ =? Ring_Buffer.tail _).
    - intros [= <- <-]. simpl. by intros ->.
    - unfold Audio_Segment.move_constructor. unfold mbind, M_bind, lift.
      repeat (case_match; try done); unfold mret, M_ret;
        intros [= <- <-]; simpl; done. }
  unfold Preprocessing.pass.
  destruct (Preprocessing.at_loop s),
    (Script_Engine.is_running (Preprocessing.engine s)),
    (Script_Engine.is_recording (Preprocessing.engine s)); simpl; try done.
  all: first [ exact Hbody | intros [= <- <-]; simpl; by intros -> ].
Qed.

(** With [first_segment] set, a pass pushes no window to the engine. *)
Lemma pass_with_first_segment o s h s' h' :
  Preprocessing.pass o s h = Ok (Preprocessing.Next s', h') →
  Preprocessing.first_segment s = true →
  Preprocessing.engine s' = Preprocessing.engine s.
Proof.
  intros Hpass Hfirst.
  assert (Hbody : Preprocessing.outer_body o s h = Ok (Preprocessing.Next s', h') →
            Preprocessing.engine s' = Preprocessing.engine s).
  { unfold Preprocessing.outer_body. rewrite Hfirst.
    destruct (Audio_Ring_Buffer.pop _ _) as [[value|] rb].
    2:{ by intros [= <- <-]. }
    unfold Audio_Segment.move_constructor. unfold mbind, M_bind, lift.
    repeat (case_match; try done); unfold mret, M_ret; by intros [= <- <-]. }
  revert Hpass. unfold Preprocessing.pass.
  destruct (Preprocessing.at_loop s),
    (Script_Engine.is_running (Preprocessing.engine s)),
    (Script_Engine.is_recording (Preprocessing.engine s)); simpl; try done.
  all: first [ exact Hbody | by intros [= <- <-] ].
Qed.

(** With [first_segment] clear, a pass that consumes a half-window pushes a
    window to the engine. *)
Lemma pass_without_first_segment o s h s' h' :
  Preprocessing.pass o s h = Ok (Preprocessing.Next s', h') →
  Preprocessing.first_segment s = false →
  Preprocessing.shared_audio_ring_buffer s' ≠ Preprocessing.shared_audio_ring_buffer s →
  Ring_Buffer.head (Script_Engine.audio_buffer (Preprocessing.engine s'))
  = Ring_Buffer.wrap_index AUDIO_BUFFER_SIZE
      (size_t_add
         (Ring_Buffer.head (Script_Engine.audio_buffer (Preprocessing.engine s))) 1).
Proof.
  intros Hpass Hfirst Hconsumed.
  assert (Hbody : Preprocessing.outer_body o s h = Ok (Preprocessing.Next s', h') →
    Ring_Buffer.head (Script_Engine.audio_buffer (Preprocessing.engine s'))
    = Ring_Buffer.wrap_index AUDIO_BUFFER_SIZE
        (size_t_add
           (Ring_Buffer.head
              (Script_Engine.audio_buffer (Preprocessing.engine s))) 1)).
  { revert Hconsumed. unfold Preprocessing.outer_body. rewrite Hfirst.
    unfold Audio_Ring_Buffer.pop.
    destruct (Ring_Buffer.head _ =? Ring_Buffer.tail _).
    { intros Hne [= <- <-]. by destruct Hne. }
    intros _. unfold Audio_Segment.move_constructor.
    unfold mbind at 1, M_bind at 1, lift.
    destruct (Audio_tsrt.preprocess_audio_segment _ _ _) as [status| | |]; try done.
    case_bool_decide; simpl; [|done].
    unfold mbind at 1, M_bind at 1.
    destruct (memcpy _ _ _ h) as [[[] h1]| | |]; try done.
    unfold Script_Engine.push_to_audio_buffer.
    unfold mbind at 1, M_bind at 1. unfold mbind at 1, M_bind at 1.
    unfold noexcept at 1.
    destruct (Audio_Ring_Buffer.push _ _ _ _ h1) as [[[rb seg] h2]| | |] eqn:Hpush;
      try done.
    apply segment_push_fields in Hpush as (slot & _ & Hhead & _).
    unfold mret at 1, M_ret at 1.
    unfold mbind, M_bind.
    repeat (case_match; try done); unfold mret, M_ret; intros [= <- <-]; simpl.
    all: exact Hhead. }
  revert Hpass Hconsumed. unfold Preprocessing.pass.
  destruct (Preprocessing.at_loop s),
    (Script_Engine.is_running (Preprocessing.engine s)),
    (Script_Engine.is_recording (Preprocessing.engine s)); simpl; try done.
  all: first [ intros Hb _; by apply Hbody
             | intros [= <- <-] Hne; by destruct Hne ].
Qed.

(** X21. The first-half branch of the stitcher is taken at most once.
    [first_segment], once clear, stays clear over any sequence of passes; if
    it is still set after a sequence of passes, nothing has been consumed and
    nothing changed; a pass that finds it set pushes no window to the
    engine; and a pass that finds it clear and consumes a half-window pushes
    one. *)
Theorem stitching_never_starts_over (os : list Preprocessing.observation)
    (s s' : Preprocessing.state) (h h' : Heap.t)
    (o : Preprocessing.observation) (s1 s2 : Preprocessing.state)
    (h1 h2 : Heap.t) :
  Preprocessing.run os s h = Ok (Preprocessing.Next s', h') →
  Preprocessing.pass o s1 h1 = Ok (Preprocessing.Next s2, h2) →
  (Preprocessing.first_segment s = false → Preprocessing.first_segment s' = false)
  ∧ (Preprocessing.first_segment s' = true →
     Preprocessing.first_segment s = true
     ∧ Preprocessing.shared_audio_ring_buffer s'
       = Preprocessing.shared_audio_ring_buffer s
     ∧ Preprocessing.full_audio_segment s' = Preprocessing.full_audio_segment s
     ∧ Preprocessing.current_timestamp s' = Preprocessing.current_timestamp s
     ∧ Preprocessing.last_timestamp s' = Preprocessing.last_timestamp s
     ∧ Preprocessing.engine s' = Preprocessing.engine s
     ∧ h' = h)
  ∧ (Preprocessing.first_segment s1 = true →
     Preprocessing.engine s2 = Preprocessing.engine s1)
  ∧ (Preprocessing.first_segment s1 = false →
     Preprocessing.shared_audio_ring_buffer s2
     ≠ Preprocessing.shared_audio_ring_buffer s1 →
     Ring_Buffer.head (Script_Engine.audio_buffer (Preprocessing.engine s2))
     = Ring_Buffer.wrap_index AUDIO_BUFFER_SIZE
         (size_t_add
            (Ring_Buffer.head
               (Script_Engine.audio_buffer (Preprocessing.engine s1))) 1)).
Proof.
  intros Hrun Hpass.
  split; [|split; [|split]].
  - revert s h Hrun. induction os as [|o' os IH]; intros s h; simpl.
    { by intros [= <- <-]. }
    unfold mbind, M_bind.
    destruct (Preprocessing.pass o' s h) as [[[s3|] h3]| | |] eqn:Hp; try done.
    intros Hrun Hfirst. apply (IH s3 h3 Hrun).
    destruct (Preprocessing.first_segment s3) eqn:Hs3; [|done].
    apply (pass_keeping_first_segment o' s h s3 h3 Hp) in Hs3 as [Hs _].
    congruence.
  - revert s h Hrun. induction os as [|o' os IH]; intros s h; simpl.
    { by intros [= <- <-]. }
    unfold mbind, M_bind.
    destruct (Preprocessing.pass o' s h) as [[[s3|] h3]| | |] eqn:Hp; try done.
    intros Hrun Hfirst.
    destruct (IH s3 h3 Hrun Hfirst) as (H3 & -> & -> & -> & -> & -> & ->).
    by apply (pass_keeping_first_segment o' s h s3 h3 Hp).
  - by apply (pass_with_first_segment o s1 h1 s2 h2).
  - by apply (pass_without_first_segment o s1 h1 s2 h2).
Qed.

Lemma stitching_never_starts_over_witness :
  let started :=
    rb ← Scenario.feed_all [(replicate 400 1, 10); (replicate 400 2, 20)] 5
           (Audio_Ring_Buffer.init 16 5);
    Preprocessing.init 5 rb (Scenario.engine_recording 5) in
  let fallback :=
    Preprocessing.mk AtOuterLoop true (Audio_Segment.default_constructor 5) 5 5
      (Audio_Ring_Buffer.init 16 5) (Scenario.engine_recording 5) in
  let s0 := match started Heap.empty with Ok (s, _) => s | _ => fallback end in
  let h0 := match started Heap.empty with Ok (_, h) => h | _ => Heap.empty end in
  let o := Preprocessing.mk_observation 0 "" 6 in
  let s1 := match Preprocessing.pass o s0 h0 with
            | Ok (Preprocessing.Next s, _) => s
            | _ => fallback
            end in
  let h1 := match Preprocessing.pass o s0 h0 with Ok (_, h) => h | _ => h0 end in
  let s2 := match Preprocessing.pass o s1 h1 with
            | Ok (Preprocessing.Next s, _) => s
            | _ => fallback
            end in
  Preprocessing.first_segment s0 = true
  ∧ Preprocessing.first_segment s1 = false
  ∧ Preprocessing.first_segment s2 = false
  ∧ Preprocessing.engine s1 = Preprocessing.engine s0
  ∧ Ring_Buffer.head (Script_Engine.audio_buffer (Preprocessing.engine s2)) = 1.
Proof.
  intros started fallback s0 h0 o s1 h1 s2.
  set (h2 := match Preprocessing.pass o s1 h1 with Ok (_, h) => h | _ => h1 end).
  destruct (stitching_never_starts_over [o] s0 s1 h0 h1 o s0 s1 h0 h1)
    as (_ & Hkeeps & Hsilent & _).
  { vm_compute. reflexivity. }
  { vm_compute. reflexivity. }
  destruct (stitching_never_starts_over [o; o] s0 s2 h0 h2 o s1 s2 h1 h2)
    as (_ & _ & _ & Hemits).
  { vm_compute. reflexivity. }
  { vm_compute. reflexivity. }
  assert (Preprocessing.first_segment s1 = false) as Hs1.
  { destruct (Preprocessing.first_segment s1) eqn:E; [|reflexivity].
    destruct (Hkeeps eq_refl) as (_ & Hrb & _).
    apply (f_equal Ring_Buffer.tail) in Hrb. vm_compute in Hrb. discriminate. }
  split; [reflexivity|]. split; [exact Hs1|].
  split.
  { destruct (stitching_never_starts_over [o] s1 s2 h1 h2 o s1 s2 h1 h2)
      as (Hstays' & _); [vm_compute; reflexivity..|].
    exact (Hstays' Hs1). }
  split; [exact (Hsilent eq_refl)|].
  rewrite (Hemits Hs1).
  - reflexivity.
  - intros Hrb. apply (f_equal Ring_Buffer.tail) in Hrb.
    vm_compute in Hrb. discriminate.
Defined.
